(** * Canonical form and signature of NFTS record units

    A shallow embedding of the two signing scripts of the repository,
    [sign_xml_soap_nfts_corrigido_com_debug.py] (module [Debug] below) and
    [sign_xml_soap_nfts_novos_campos.py] (module [Novos]), together with
    the properties the specification states about them.

    Text is modelled on the Latin-1 range: a [string] is a sequence of
    code points below 256, one [ascii] each.  An element tree holds
    elements only (comments and processing instructions of a document are
    not part of the model). *)

From Stdlib Require Import ZArith NArith Nnat List String Ascii Bool Lia Arith.
From Stdlib Require Import DecimalString DecimalN DecimalPos DecimalFacts Decimal.
Import ListNotations.

Local Open Scope string_scope.

(** ** The text primitives of the interpreter *)

Module Text.

Definition code (c : ascii) : N := N_of_ascii c.

(** The non-breaking space ['\xa0'] and the ordinary space. *)
Definition nbsp : ascii := ascii_of_N 160.
Definition space : ascii := " "%char.
Definition comma : ascii := ","%char.
Definition period : ascii := "."%char.

(** White space as [str.strip()] and [str.split()] see it, below 256:
    U+0009..U+000D, U+001C..U+0020, U+0085 and U+00A0. *)
Definition is_space (c : ascii) : bool :=
  let n := code c in
  ((9 <=? n) && (n <=? 13) || (28 <=? n) && (n <=? 32)
   || (n =? 133) || (n =? 160))%N.

(** [str.replace(a, b)] for one-character arguments. *)
Fixpoint replace (a b : ascii) (s : string) : string :=
  match s with
  | EmptyString => EmptyString
  | String c r => String (if Ascii.eqb c a then b else c) (replace a b r)
  end.

Fixpoint lstrip (s : string) : string :=
  match s with
  | EmptyString => EmptyString
  | String c r => if is_space c then lstrip r else s
  end.

Fixpoint rstrip (s : string) : string :=
  match s with
  | EmptyString => EmptyString
  | String c r =>
      match rstrip r with
      | EmptyString => if is_space c then EmptyString else String c EmptyString
      | r' => String c r'
      end
  end.

(** [str.strip()] *)
Definition strip (s : string) : string := rstrip (lstrip s).

(** [s[:n]] *)
Fixpoint take (n : nat) (s : string) : string :=
  match n, s with
  | S k, String c r => String c (take k r)
  | _, _ => EmptyString
  end.

(** [str.lower()]: the letters A..Z and U+00C0..U+00DE other than the
    multiplication sign U+00D7 move up by 32. *)
Definition lower_char (c : ascii) : ascii :=
  let n := code c in
  if ((65 <=? n) && (n <=? 90)
      || (192 <=? n) && (n <=? 222) && negb (n =? 215))%N
  then ascii_of_N (n + 32) else c.

Fixpoint lower (s : string) : string :=
  match s with
  | EmptyString => EmptyString
  | String c r => String (lower_char c) (lower r)
  end.

Definition is_ascii_digit (c : ascii) : bool :=
  let n := code c in ((48 <=? n) && (n <=? 57))%N.

(** Characters for which [str.isdigit()] holds: the decimal digits and the
    superscripts U+00B2, U+00B3 and U+00B9. *)
Definition isdigit_char (c : ascii) : bool :=
  let n := code c in
  is_ascii_digit c || (n =? 178)%N || (n =? 179)%N || (n =? 185)%N.

Fixpoint all_chars (p : ascii -> bool) (s : string) : bool :=
  match s with
  | EmptyString => true
  | String c r => p c && all_chars p r
  end.

(** [str.isdigit()]: non-empty and every character a digit. *)
Definition isdigit (s : string) : bool :=
  match s with
  | EmptyString => false
  | _ => all_chars isdigit_char s
  end.

(** [str.split()] followed by ["".join]: all white space removed. *)
Fixpoint remove_spaces (s : string) : string :=
  match s with
  | EmptyString => EmptyString
  | String c r => if is_space c then remove_spaces r else String c (remove_spaces r)
  end.

(** [text.replace('\xa0', ' ').strip()], the cleaning every normalizer
    starts with. *)
Definition clean (s : string) : string := strip (replace nbsp space s).

End Text.

(** ** Exceptions *)

Inductive exn : Set := ValueError | OverflowError | AttributeError.

Inductive result (A : Type) : Type :=
| Ok (a : A)
| Raise (e : exn).
Arguments Ok {A} a.
Arguments Raise {A} e.

Definition exn_eqb (a b : exn) : bool :=
  match a, b with
  | ValueError, ValueError | OverflowError, OverflowError
  | AttributeError, AttributeError => true
  | _, _ => false
  end.

(** [try: body / except E: handler]: only the named exception is caught. *)
Definition try_except {A} (body : result A) (E : exn) (handler : result A)
  : result A :=
  match body with
  | Ok a => Ok a
  | Raise e => if exn_eqb e E then handler else Raise e
  end.

(** [try: body / except: handler] and [except Exception]. *)
Definition try_except_all {A} (body : result A) (handler : result A)
  : result A :=
  match body with
  | Ok a => Ok a
  | Raise _ => handler
  end.

(** ** Integers: [int(str)] and [str(int)] *)

Module PyInt.

(** [int(s)] on a string without sign, blank or underscore (the only ones
    the normalizer hands it, behind [isdigit]): the decimal digits are
    read, anything else is a [ValueError]. *)
Definition int (s : string) : result N :=
  match NilZero.uint_of_string s with
  | Some d => Ok (N.of_uint d)
  | None => Raise ValueError
  end.

(** [str(n)] for a non-negative integer. *)
Definition str (n : N) : string := NilZero.string_of_uint (N.to_uint n).

End PyInt.

(** ** Floating point: [float(str)], ['{:.2f}'.format] and [str(float)]

    A Python float is an IEEE 754 binary64 number.  The model keeps it
    exact: a finite value is [m * 2^e] with [0 <= m < 2^53] and
    [-1074 <= e <= 971]; reading a literal rounds the decimal value to the
    nearest such number, ties to even, and printing rounds the exact
    binary value. *)

Module PyFloat.

Local Open Scope Z_scope.

Inductive float : Set :=
| Finite (neg : bool) (m : Z) (e : Z)
| Inf (neg : bool)
| NaN.

Definition prec : Z := 53.
Definition emin : Z := -1074.
Definition emax : Z := 971.

(** The integer nearest to [p / q], ties to the even one ([0 < q]). *)
Definition rne_div (p q : Z) : Z :=
  let d := p / q in
  match (2 * (p mod q) ?= q) with
  | Lt => d
  | Gt => d + 1
  | Eq => if Z.even d then d else d + 1
  end.

(** [p / (q * 2^e)] as a fraction of integers. *)
Definition scale (p q e : Z) : Z * Z :=
  if 0 <=? e then (p, q * 2 ^ e) else (p * 2 ^ (- e), q).

(** [floor (log2 (p / q))] for positive [p] and [q]. *)
Definition ilog2_ratio (p q : Z) : Z :=
  let k := Z.log2 p - Z.log2 q in
  let '(p', q') := scale p q k in
  if q' <=? p' then k else k - 1.

(** The binary64 number nearest to [p / q] ([0 < p], [0 < q]); [None] on
    overflow. *)
Definition of_ratio (p q : Z) : option (Z * Z) :=
  let e := Z.max (ilog2_ratio p q - (prec - 1)) emin in
  let '(p', q') := scale p q e in
  let m := rne_div p' q' in
  let '(m, e) := if m =? 2 ^ prec then (2 ^ (prec - 1), e + 1) else (m, e) in
  if emax <? e then None else Some (m, e).

(** The value [d * 10^x] of a decimal literal, rounded. *)
Definition of_decimal (neg : bool) (d x : Z) : float :=
  if d =? 0 then Finite neg 0 emin
  else
    let '(p, q) := if 0 <=? x then (d * 10 ^ x, 1) else (d, 10 ^ (- x)) in
    match of_ratio p q with
    | Some (m, e) => Finite neg m e
    | None => Inf neg
    end.

(** *** Reading a literal *)

Fixpoint span_digits (s : string) : string * string :=
  match s with
  | String c r =>
      if Text.is_ascii_digit c
      then let '(d, t) := span_digits r in (String c d, t)
      else (EmptyString, s)
  | EmptyString => (EmptyString, EmptyString)
  end.

Definition digit_of (c : ascii) : Z := Z.of_N (Text.code c) - 48.

(** The number a string of decimal digits denotes (the empty one: 0). *)
Fixpoint digits_value_from (acc : Z) (s : string) : Z :=
  match s with
  | EmptyString => acc
  | String c r => digits_value_from (10 * acc + digit_of c) r
  end.

Definition digits_value (s : string) : Z := digits_value_from 0 s.

Definition underscore : ascii := "_"%char.

(** PEP 515: an underscore is allowed between two digits only; the
    underscores are dropped.  [prev] is the character before [s]. *)
Fixpoint drop_underscores (prev : option ascii) (s : string) : option string :=
  let prev_digit :=
    match prev with Some p => Text.is_ascii_digit p | None => false end in
  match s with
  | EmptyString =>
      match prev with
      | Some p => if Ascii.eqb p underscore then None else Some EmptyString
      | None => Some EmptyString
      end
  | String c r =>
      if Ascii.eqb c underscore then
        if prev_digit then drop_underscores (Some c) r else None
      else
        let after_us :=
          match prev with Some p => Ascii.eqb p underscore | None => false end in
        if after_us && negb (Text.is_ascii_digit c) then None
        else option_map (String c) (drop_underscores (Some c) r)
  end.

Definition split_sign (s : string) : bool * string :=
  match s with
  | String "-" r => (true, r)
  | String "+" r => (false, r)
  | _ => (false, s)
  end.

(** The exponent part: empty, or [e] or [E], an optional sign and at
    least one digit, up to the end of the string. *)
Definition parse_exponent (s : string) : option Z :=
  match s with
  | EmptyString => Some 0
  | String c r =>
      if Ascii.eqb c "e" || Ascii.eqb c "E" then
        let '(neg, r') := split_sign r in
        match span_digits r' with
        | (String _ _ as ds, EmptyString) =>
            Some (if neg then - digits_value ds else digits_value ds)
        | _ => None
        end
      else None
  end.

(** [float(s)] on a string without surrounding white space (the
    normalizer strips its argument first, so that the trimming [float]
    does itself finds nothing to trim). *)
Definition float_of_string (s : string) : result float :=
  match drop_underscores None s with
  | None => Raise ValueError
  | Some s =>
      let '(neg, body) := split_sign s in
      let low := Text.lower body in
      if String.eqb low "inf" || String.eqb low "infinity" then Ok (Inf neg)
      else if String.eqb low "nan" then Ok NaN
      else
        let '(ip, r1) := span_digits body in
        let '(fp, r2) :=
          match r1 with
          | String "." t => span_digits t
          | _ => (EmptyString, r1)
          end in
        match (ip ++ fp)%string, parse_exponent r2 with
        | EmptyString, _ => Raise ValueError
        | _, None => Raise ValueError
        | ds, Some x =>
            Ok (of_decimal neg (digits_value ds)
                  (x - Z.of_nat (String.length fp)))
        end
  end.

(** *** Printing with two decimals *)

Definition str_of_Z (n : Z) : string := PyInt.str (Z.to_N n).

Definition digit_char (d : Z) : ascii := ascii_of_N (48 + Z.to_N d).

(** The hundredths nearest to [m * 2^e], ties to even. *)
Definition hundredths (m e : Z) : Z :=
  if 0 <=? e then 100 * m * 2 ^ e else rne_div (100 * m) (2 ^ (- e)).

Definition sign_str (neg : bool) : string := if neg then "-" else "".

(** ['{:.2f}'.format(x)] *)
Definition format_2f (x : float) : string :=
  match x with
  | NaN => "nan"
  | Inf neg => sign_str neg ++ "inf"
  | Finite neg m e =>
      let n := hundredths m e in
      sign_str neg ++ str_of_Z (n / 100) ++ "."
        ++ String (digit_char (n mod 100 / 10))
             (String (digit_char (n mod 10)) EmptyString)
  end.

(** *** Printing the shortest literal that reads back

    [str(x)] prints the shortest string of digits that [float] reads back
    as [x] (the one nearest to [x] if there are several), in positional
    notation when the decimal point falls at a position in [-3 .. 16]
    and in exponent notation otherwise. *)

Definition ratio_of (m e : Z) : Z * Z :=
  if 0 <=? e then (m * 2 ^ e, 1) else (m, 2 ^ (- e)).

(** [p / (q * 10^x)] as a fraction of integers. *)
Definition scale10 (p q x : Z) : Z * Z :=
  if 0 <=? x then (p, q * 10 ^ x) else (p * 10 ^ (- x), q).

(** The least [k' >= k] with [p / q < 10^k'], looking at [fuel] values. *)
Fixpoint dec_point_from (fuel : nat) (k p q : Z) : Z :=
  match fuel with
  | O => k
  | S f =>
      let '(p', q') := scale10 p q k in
      if p' <? q' then k else dec_point_from f (k + 1) p q
  end.

Definition dec_point (p q : Z) : Z := dec_point_from 640 (-324) p q.

Definition reads_back (m e c x : Z) : bool :=
  match of_decimal false c x with
  | Finite _ m' e' => (m' =? m) && (e' =? e)
  | _ => false
  end.

(** The [n]-digit decimal [c * 10^(k - n)] that reads back as [m * 2^e],
    if there is one: one of the two neighbours of the value. *)
Definition shortest_at (m e k n : Z) : option Z :=
  let '(p, q) := ratio_of m e in
  let '(p', q') := scale10 p q (k - n) in
  let lo := p' / q' in
  let r := p' mod q' in
  if r =? 0 then (if reads_back m e lo (k - n) then Some lo else None)
  else
    let hi := lo + 1 in
    match reads_back m e lo (k - n), reads_back m e hi (k - n) with
    | true, true =>
        Some (match 2 * r ?= q' with
              | Lt => lo
              | Gt => hi
              | Eq => if Z.even lo then lo else hi
              end)
    | true, false => Some lo
    | false, true => Some hi
    | false, false => None
    end.

(** Digits are tried from [n] on, [fuel] lengths; past 17 digits the
    nearest 17-digit decimal is taken. *)
Fixpoint shortest_from (fuel : nat) (m e k n : Z) : Z * Z :=
  match fuel with
  | O =>
      let '(p, q) := ratio_of m e in
      let '(p', q') := scale10 p q (k - 17) in
      (rne_div p' q', k - 17)
  | S f =>
      match shortest_at m e k n with
      | Some c => (c, k - n)
      | None => shortest_from f m e k (n + 1)
      end
  end.

Fixpoint rstrip_zeros (s : string) : string :=
  match s with
  | EmptyString => EmptyString
  | String c r =>
      match rstrip_zeros r with
      | EmptyString => if Ascii.eqb c "0" then EmptyString else String c EmptyString
      | r' => String c r'
      end
  end.

Fixpoint zeros (n : nat) : string :=
  match n with O => EmptyString | S k => String "0" (zeros k) end.

(** The digits [d1 d2 ...] and the position [decpt] of the decimal point:
    the value is [0.d1d2... * 10^decpt]. *)
Definition shortest_digits (m e : Z) : string * Z :=
  let '(p, q) := ratio_of m e in
  let k := dec_point p q in
  let '(c, x) := shortest_from 17 m e k 1 in
  let ds := str_of_Z c in
  (rstrip_zeros ds, x + Z.of_nat (String.length ds)).

Fixpoint drop (n : nat) (s : string) : string :=
  match n, s with
  | S k, String _ r => drop k r
  | _, _ => s
  end.

Definition exponent_str (x : Z) : string :=
  let a := str_of_Z (Z.abs x) in
  String (if x <? 0 then "-"%char else "+"%char)
    (if Z.abs x <? 10 then String "0" a else a).

Definition repr_finite (m e : Z) : string :=
  if m =? 0 then "0.0"
  else
    let '(ds, decpt) := shortest_digits m e in
    let n := Z.of_nat (String.length ds) in
    if (decpt <=? -4) || (16 <? decpt) then
      match ds with
      | String d EmptyString => String d ("e" ++ exponent_str (decpt - 1))
      | String d r => String d ("." ++ r ++ "e" ++ exponent_str (decpt - 1))
      | EmptyString => EmptyString
      end
    else if decpt <=? 0 then "0." ++ zeros (Z.to_nat (- decpt)) ++ ds
    else if n <=? decpt then ds ++ zeros (Z.to_nat (decpt - n)) ++ ".0"
    else Text.take (Z.to_nat decpt) ds ++ "." ++ drop (Z.to_nat decpt) ds.

(** [str(x)] *)
Definition repr (x : float) : string :=
  match x with
  | NaN => "nan"
  | Inf neg => sign_str neg ++ "inf"
  | Finite neg m e => sign_str neg ++ repr_finite m e
  end.

End PyFloat.

(** ** Element trees *)

(** An lxml tag ["{ns}local"], or ["local"] without a namespace. *)
Record QName : Set := mkQName { ns : option string; local : string }.

#[warnings="-register-all"]
Inductive Element : Set :=
| Elem (tag : QName) (attrib : list (string * string))
       (text : option string) (tail : option string)
       (children : list Element).

Definition tag_of (e : Element) : QName := let 'Elem t _ _ _ _ := e in t.
Definition text_of (e : Element) : option string := let 'Elem _ _ x _ _ := e in x.
Definition children_of (e : Element) : list Element :=
  let 'Elem _ _ _ _ c := e in c.
Definition local_name (e : Element) : string := local (tag_of e).

(** [etree.Element(name)], with its text and children set afterwards. *)
Definition new_element (name : string) (text : option string)
  (children : list Element) : Element :=
  Elem (mkQName None name) [] text None children.

(** [original_child.text or ""] *)
Definition text_or_empty (e : Element) : string :=
  match text_of e with Some t => t | None => EmptyString end.

Definition has_local (name : string) (e : Element) : bool :=
  String.eqb (local_name e) name.

(** [find_child]: the first child whose local name is [tagname], whatever
    its namespace. *)
Definition find_child (parent : Element) (tagname : string) : option Element :=
  List.find (has_local tagname) (children_of parent).

(** [parent.remove(child)] for the first child of a local name. *)
Fixpoint remove_first (name : string) (l : list Element) : list Element :=
  match l with
  | [] => []
  | c :: r => if has_local name c then r else c :: remove_first name r
  end.

(** ** Normalizers *)

Import Text.

(** The normalizers as the scripts write them, exceptions included. *)
Module Raising.

Definition bind {A B} (r : result A) (k : A -> result B) : result B :=
  match r with Ok a => k a | Raise e => Raise e end.

(** [normalize_numeric_string] of the debug script: [except ValueError]. *)
Definition normalize_numeric_string (text : option string) : result string :=
  match text with
  | None => Ok ""
  | Some text =>
      let clean_text := strip (replace nbsp space text) in
      bind (if isdigit clean_text
            then try_except
                   (bind (PyInt.int clean_text)
                      (fun n => Ok (Some (PyInt.str n))))
                   ValueError (Ok None)
            else Ok None)
        (fun returned =>
           match returned with
           | Some s => Ok s
           | None => Ok clean_text
           end)
  end.

(** The same function in the other script: a bare [except]. *)
Definition normalize_numeric_string_bare (text : option string)
  : result string :=
  match text with
  | None => Ok ""
  | Some text =>
      let clean_text := strip (replace nbsp space text) in
      bind (if isdigit clean_text
            then try_except_all
                   (bind (PyInt.int clean_text)
                      (fun n => Ok (Some (PyInt.str n))))
                   (Ok None)
            else Ok None)
        (fun returned =>
           match returned with
           | Some s => Ok s
           | None => Ok clean_text
           end)
  end.

Definition normalize_float_value (text : option string)
  (format_decimals : bool) : result string :=
  match text with
  | None => Ok ""
  | Some text =>
      let clean_text :=
        strip (replace comma period (replace nbsp space text)) in
      try_except_all
        (bind (PyFloat.float_of_string clean_text)
           (fun float_value =>
              if format_decimals
              then Ok (PyFloat.format_2f float_value)
              else Ok (PyFloat.repr float_value)))
        (Ok clean_text)
  end.

Definition normalize_boolean_value (text : option string) : result string :=
  match text with
  | None => Ok "false"
  | Some text =>
      let clean_text := lower (strip (replace nbsp space text)) in
      if List.existsb (String.eqb clean_text)
           ["true"; "1"; "s"; "sim"; "t"; "y"; "yes"]
      then Ok "true" else Ok "false"
  end.

(** [normalize_serie_nfts] of the debug script. *)
Definition normalize_serie_nfts_padded (text : option string) : result string :=
  match text with
  | None => Ok "     "
  | Some text =>
      let clean_text := strip (replace nbsp space text) in
      Ok (take 5 (clean_text ++ "     "))
  end.

(** [normalize_serie_nfts] of the other script. *)
Definition normalize_serie_nfts_plain (text : option string) : result string :=
  match text with
  | None => Ok "     "
  | Some text => Ok (strip (replace nbsp space text))
  end.

End Raising.

(** The values the normalizers return. *)

Definition normalize_numeric_string (text : option string) : string :=
  match text with
  | None => ""
  | Some text =>
      let clean_text := strip (replace nbsp space text) in
      if isdigit clean_text then
        match PyInt.int clean_text with
        | Ok n => PyInt.str n
        | Raise _ => clean_text
        end
      else clean_text
  end.

Definition normalize_float_value (text : option string)
  (format_decimals : bool) : string :=
  match text with
  | None => ""
  | Some text =>
      let clean_text :=
        strip (replace comma period (replace nbsp space text)) in
      match PyFloat.float_of_string clean_text with
      | Ok float_value =>
          if format_decimals then PyFloat.format_2f float_value
          else PyFloat.repr float_value
      | Raise _ => clean_text
      end
  end.

Definition true_tokens : list string :=
  ["true"; "1"; "s"; "sim"; "t"; "y"; "yes"].

Definition normalize_boolean_value (text : option string) : string :=
  match text with
  | None => "false"
  | Some text =>
      let clean_text := lower (strip (replace nbsp space text)) in
      if List.existsb (String.eqb clean_text) true_tokens
      then "true" else "false"
  end.

Definition normalize_serie_nfts_padded (text : option string) : string :=
  match text with
  | None => "     "
  | Some text => take 5 (strip (replace nbsp space text) ++ "     ")
  end.

Definition normalize_serie_nfts_plain (text : option string) : string :=
  match text with
  | None => "     "
  | Some text => strip (replace nbsp space text)
  end.

(** ** The canonical schema map *)

(** A value of [canonical_order_map]: the name of a normalization, or a
    nested dictionary.  A dictionary is kept as the list of its items, in
    insertion order. *)
#[warnings="-register-all"]
Inductive Def : Set :=
| DStr (kind : string)
| DDict (items : list (string * Def)).

Definition OrderMap : Set := list (string * Def).

(** ** Serialization *)

Module Xml.

(** UTF-8 of a code point below 256. *)
Definition utf8_char (c : ascii) : string :=
  let n := code c in
  if (n <? 128)%N then String c EmptyString
  else String (ascii_of_N (192 + n / 64))
         (String (ascii_of_N (128 + n mod 64)) EmptyString).

(** Character data as libxml2 writes it. *)
Definition escape_char (c : ascii) : string :=
  if Ascii.eqb c "&" then "&amp;"
  else if Ascii.eqb c "<" then "&lt;"
  else if Ascii.eqb c ">" then "&gt;"
  else if (code c =? 13)%N then "&#13;"
  else utf8_char c.

Fixpoint escape (s : string) : string :=
  match s with
  | EmptyString => EmptyString
  | String c r => escape_char c ++ escape r
  end.

Fixpoint utf8 (s : string) : string :=
  match s with
  | EmptyString => EmptyString
  | String c r => utf8_char c ++ utf8 r
  end.

(** [etree.tostring(e, encoding="utf-8", xml_declaration=False)] for an
    element made by [etree.Element]: no attribute, no namespace, no tail. *)
Fixpoint tostring (e : Element) : string :=
  let 'Elem t _ x _ cs := e in
  let name := utf8 (local t) in
  match x, cs with
  | None, [] => "<" ++ name ++ "/>"
  | _, _ =>
      "<" ++ name ++ ">"
        ++ match x with Some s => escape s | None => EmptyString end
        ++ (fix all (l : list Element) : string :=
              match l with
              | [] => EmptyString
              | c :: r => tostring c ++ all r
              end) cs
        ++ "</" ++ name ++ ">"
  end.

Definition bom : string :=
  String (ascii_of_N 239) (String (ascii_of_N 187)
    (String (ascii_of_N 191) EmptyString)).

(** [b[len(bom):] if b.startswith(bom) else b] *)
Definition strip_bom (b : string) : string :=
  if String.prefix bom b then PyFloat.drop 3 b else b.

End Xml.

(** ** The canonical builder *)

Section Builder.

(** The two scripts differ in [normalize_serie_nfts] and in the map. *)
Variable normalize_serie_nfts : option string -> string.
Variable canonical_order_map : OrderMap.

(** The [if]/[elif] chain of [build_fragment] on the kind of a field. *)
Definition normalize (definition : string) (text_value : string) : string :=
  if String.eqb definition "num_str" then
    normalize_numeric_string (Some text_value)
  else if String.eqb definition "float_currency" then
    normalize_float_value (Some text_value) true
  else if String.eqb definition "float" then
    normalize_float_value (Some text_value) false
  else if String.eqb definition "bool" then
    normalize_boolean_value (Some text_value)
  else if String.eqb definition "serie" then
    normalize_serie_nfts (Some text_value)
  else strip (replace nbsp space text_value).

(** One turn of the loop of [build_fragment]: what the item
    [(tag_name, definition)] appends to [elems]. *)
Fixpoint build_item (node : Element) (tag_name : string) (definition : Def)
  : list Element :=
  match find_child node tag_name with
  | None => []
  | Some original_child =>
      match definition with
      | DStr kind =>
          let final := normalize kind (text_or_empty original_child) in
          if String.eqb final "" then []
          else [new_element tag_name (Some final) []]
      | DDict items =>
          let nested :=
            (fix loop (l : list (string * Def)) : list Element :=
               match l with
               | [] => []
               | (t, d) :: r => (build_item original_child t d ++ loop r)%list
               end) items in
          match nested with
          | [] => []
          | _ => [new_element tag_name None nested]
          end
      end
  end.

Fixpoint build_fragment (node : Element) (order_map : OrderMap)
  : list Element :=
  match order_map with
  | [] => []
  | (tag_name, definition) :: r =>
      (build_item node tag_name definition ++ build_fragment node r)%list
  end.

(** The copy of the unit without its first [Assinatura] child. *)
Definition clean_tp (nfts_node : Element) : Element :=
  let 'Elem t a x tl cs := nfts_node in
  Elem t a x tl (remove_first "Assinatura" cs).

Definition canonical_root (nfts_node : Element) : Element :=
  new_element "tpNFTS" None
    (build_fragment (clean_tp nfts_node) canonical_order_map).

Definition build_tpNFTS_bytes (nfts_node : Element) : string :=
  Xml.strip_bom (Xml.tostring (canonical_root nfts_node)).

End Builder.

(** ** The two scripts *)

Module Debug.

Definition normalize_serie_nfts := normalize_serie_nfts_padded.

Definition canonical_order_map : OrderMap :=
  [ ("TipoDocumento", DStr "str");
    ("ChaveDocumento", DDict
       [ ("InscricaoMunicipal", DStr "str");
         ("SerieNFTS", DStr "serie");
         ("NumeroDocumento", DStr "num_str") ]);
    ("DataPrestacao", DStr "str");
    ("StatusNFTS", DStr "str");
    ("TributacaoNFTS", DStr "str");
    ("ValorServicos", DStr "float_currency");
    ("ValorDeducoes", DStr "float_currency");
    ("CodigoServico", DStr "num_str");
    ("CodigoSubItem", DStr "num_str");
    ("AliquotaServicos", DStr "float");
    ("ISSRetidoTomador", DStr "bool");
    ("ISSRetidoIntermediario", DStr "bool");
    ("Prestador", DDict
       [ ("CPFCNPJ", DDict [ ("CNPJ", DStr "str"); ("CPF", DStr "str") ]);
         ("InscricaoMunicipal", DStr "str");
         ("RazaoSocialPrestador", DStr "str");
         ("Endereco", DDict
            [ ("TipoLogradouro", DStr "str");
              ("Logradouro", DStr "str");
              ("NumeroEndereco", DStr "str");
              ("ComplementoEndereco", DStr "str_opt");
              ("Bairro", DStr "str");
              ("Cidade", DStr "num_str");
              ("UF", DStr "str");
              ("CEP", DStr "str") ]);
         ("Email", DStr "str_opt") ]);
    ("RegimeTributacao", DStr "num_str");
    ("DataPagamento", DStr "str_opt");
    ("Discriminacao", DStr "str");
    ("TipoNFTS", DStr "num_str");
    ("Tomador", DDict
       [ ("CPFCNPJ", DDict [ ("CPF", DStr "str"); ("CNPJ", DStr "str") ]);
         ("RazaoSocial", DStr "str") ]) ].

Definition build_fragment :=
  build_fragment normalize_serie_nfts.
Definition canonical_root :=
  canonical_root normalize_serie_nfts canonical_order_map.
Definition build_tpNFTS_bytes :=
  build_tpNFTS_bytes normalize_serie_nfts canonical_order_map.

End Debug.

Module Novos.

Definition normalize_serie_nfts := normalize_serie_nfts_plain.

Definition canonical_order_map : OrderMap :=
  [ ("TipoDocumento", DStr "str");
    ("ChaveDocumento", DDict
       [ ("InscricaoMunicipal", DStr "str");
         ("SerieNFTS", DStr "serie");
         ("NumeroDocumento", DStr "str") ]);
    ("DataPrestacao", DStr "str");
    ("StatusNFTS", DStr "str");
    ("TributacaoNFTS", DStr "str");
    ("ValorServicos", DStr "float_currency");
    ("ValorDeducoes", DStr "float_currency");
    ("CodigoServico", DStr "num_str");
    ("CodigoSubItem", DStr "num_str");
    ("AliquotaServicos", DStr "float");
    ("ISSRetidoTomador", DStr "bool");
    ("ISSRetidoIntermediario", DStr "bool");
    ("Prestador", DDict
       [ ("CPFCNPJ", DDict [ ("CNPJ", DStr "str"); ("CPF", DStr "str") ]);
         ("InscricaoMunicipal", DStr "str");
         ("RazaoSocialPrestador", DStr "str");
         ("Endereco", DDict
            [ ("TipoLogradouro", DStr "str");
              ("Logradouro", DStr "str");
              ("NumeroEndereco", DStr "str");
              ("ComplementoEndereco", DStr "str");
              ("Bairro", DStr "str");
              ("Cidade", DStr "num_str");
              ("UF", DStr "str");
              ("CEP", DStr "num_str") ]);
         ("Email", DStr "str") ]);
    ("RegimeTributacao", DStr "num_str");
    ("DataPagamento", DStr "str");
    ("Discriminacao", DStr "str");
    ("TipoNFTS", DStr "num_str");
    ("Tomador", DDict
       [ ("CPFCNPJ", DDict [ ("CPF", DStr "str"); ("CNPJ", DStr "str") ]);
         ("RazaoSocial", DStr "str") ]) ].

Definition build_fragment :=
  build_fragment normalize_serie_nfts.
Definition canonical_root :=
  canonical_root normalize_serie_nfts canonical_order_map.
Definition build_tpNFTS_bytes :=
  build_tpNFTS_bytes normalize_serie_nfts canonical_order_map.

End Novos.

(** ** Base64 *)

Module Base64.

Definition alphabet : string :=
  "ABCDEFGHIJKLMNOPQRSTUVWXYZabcdefghijklmnopqrstuvwxyz0123456789+/".

(** Six bits, most significant first. *)
Definition sextet : Set := (bool * bool * bool * bool * bool * bool)%type.

Definition N_of_sextet (s : sextet) : N :=
  let '(b5, b4, b3, b2, b1, b0) := s in
  (32 * N.b2n b5 + 16 * N.b2n b4 + 8 * N.b2n b3
   + 4 * N.b2n b2 + 2 * N.b2n b1 + N.b2n b0)%N.

Definition sextet_of_N (n : N) : sextet :=
  (N.testbit n 5, N.testbit n 4, N.testbit n 3,
   N.testbit n 2, N.testbit n 1, N.testbit n 0).

Definition char_of_sextet (s : sextet) : ascii :=
  match String.get (N.to_nat (N_of_sextet s)) alphabet with
  | Some c => c
  | None => "="%char
  end.

Definition sextet_of_char (c : ascii) : option sextet :=
  let n := code c in
  if ((65 <=? n) && (n <=? 90))%N then Some (sextet_of_N (n - 65))
  else if ((97 <=? n) && (n <=? 122))%N then Some (sextet_of_N (n - 71))
  else if ((48 <=? n) && (n <=? 57))%N then Some (sextet_of_N (n + 4))
  else if (n =? 43)%N then Some (sextet_of_N 62)
  else if (n =? 47)%N then Some (sextet_of_N 63)
  else None.

(** An [ascii] lists its bits least significant first. *)
Definition enc3 (a b c : ascii) : string :=
  let 'Ascii a0 a1 a2 a3 a4 a5 a6 a7 := a in
  let 'Ascii b0 b1 b2 b3 b4 b5 b6 b7 := b in
  let 'Ascii c0 c1 c2 c3 c4 c5 c6 c7 := c in
  String (char_of_sextet (a7, a6, a5, a4, a3, a2))
    (String (char_of_sextet (a1, a0, b7, b6, b5, b4))
       (String (char_of_sextet (b3, b2, b1, b0, c7, c6))
          (String (char_of_sextet (c5, c4, c3, c2, c1, c0)) EmptyString))).

Definition enc2 (a b : ascii) : string :=
  let 'Ascii a0 a1 a2 a3 a4 a5 a6 a7 := a in
  let 'Ascii b0 b1 b2 b3 b4 b5 b6 b7 := b in
  String (char_of_sextet (a7, a6, a5, a4, a3, a2))
    (String (char_of_sextet (a1, a0, b7, b6, b5, b4))
       (String (char_of_sextet (b3, b2, b1, b0, false, false)) "=")).

Definition enc1 (a : ascii) : string :=
  let 'Ascii a0 a1 a2 a3 a4 a5 a6 a7 := a in
  String (char_of_sextet (a7, a6, a5, a4, a3, a2))
    (String (char_of_sextet (a1, a0, false, false, false, false)) "==").

(** [base64.b64encode] *)
Fixpoint b64encode (data : string) : string :=
  match data with
  | String a (String b (String c r)) => enc3 a b c ++ b64encode r
  | String a (String b EmptyString) => enc2 a b
  | String a EmptyString => enc1 a
  | EmptyString => EmptyString
  end.

Definition byte1 (s t : sextet) : ascii :=
  let '(s5, s4, s3, s2, s1, s0) := s in
  let '(t5, t4, _, _, _, _) := t in
  Ascii t4 t5 s0 s1 s2 s3 s4 s5.

Definition byte2 (t u : sextet) : ascii :=
  let '(_, _, t3, t2, t1, t0) := t in
  let '(u5, u4, u3, u2, _, _) := u in
  Ascii u2 u3 u4 u5 t0 t1 t2 t3.

Definition byte3 (u v : sextet) : ascii :=
  let '(_, _, _, _, u1, u0) := u in
  let '(v5, v4, v3, v2, v1, v0) := v in
  Ascii v0 v1 v2 v3 v4 v5 u0 u1.

Definition pad : ascii := "="%char.

(** [base64.b64decode(s, validate=True)]: groups of four characters of
    the alphabet, the last one possibly padded; [None] stands for
    [binascii.Error]. *)
Fixpoint b64decode (s : string) : option string :=
  match s with
  | EmptyString => Some EmptyString
  | String c1 (String c2 (String c3 (String c4 r))) =>
      match sextet_of_char c1, sextet_of_char c2 with
      | Some s1, Some s2 =>
          if Ascii.eqb c3 pad then
            match r with
            | EmptyString =>
                if Ascii.eqb c4 pad
                then Some (String (byte1 s1 s2) EmptyString) else None
            | _ => None
            end
          else
            match sextet_of_char c3 with
            | None => None
            | Some s3 =>
                if Ascii.eqb c4 pad then
                  match r with
                  | EmptyString =>
                      Some (String (byte1 s1 s2)
                              (String (byte2 s2 s3) EmptyString))
                  | _ => None
                  end
                else
                  match sextet_of_char c4, b64decode r with
                  | Some s4, Some t =>
                      Some (String (byte1 s1 s2)
                              (String (byte2 s2 s3)
                                 (String (byte3 s3 s4) t)))
                  | _, _ => None
                  end
            end
      | _, _ => None
      end
  | _ => None
  end.

End Base64.

(** ** Signing and verifying a unit *)

(** The text of the first [Assinatura] child is set; without such a child
    a new element is appended ([sign_file] of the debug script). *)
Fixpoint set_first_text (name : string) (text : string) (l : list Element)
  : list Element :=
  match l with
  | [] => []
  | c :: r =>
      if has_local name c
      then (let 'Elem t a _ tl cs := c in Elem t a (Some text) tl cs) :: r
      else c :: set_first_text name text r
  end.

Definition insert_assinatura (nfts : Element) (assin_text : string) : Element :=
  let 'Elem t a x tl cs := nfts in
  match find_child nfts "Assinatura" with
  | None => Elem t a x tl (cs ++ [new_element "Assinatura" (Some assin_text) []])
  | Some _ => Elem t a x tl (set_first_text "Assinatura" assin_text cs)
  end.

Inductive Verdict : Set :=
| MissingSignature
| MalformedSignature
| Valid
| Invalid (digest : string) (signature_length : nat).

Section Signing.

(** The RSA primitives of the [cryptography] package, at the fixed
    scheme: [key.sign(data, padding.PKCS1v15(), hashes.SHA1())], which
    returns the signature or raises, and
    [key.verify(signature, data, padding.PKCS1v15(), hashes.SHA1())],
    [true] when it returns and [false] when it raises
    [InvalidSignature]; [sha1] is the digest of the diagnostics. *)
Variable PrivateKey PublicKey : Type.
Variable rsa_sign : PrivateKey -> string -> result string.
Variable rsa_verify : PublicKey -> string -> string -> bool.
Variable sha1 : string -> string.

(** A key pair is compatible when the public key accepts what the
    private key signs. *)
Definition compatible (private_key : PrivateKey) (pubkey : PublicKey) : Prop :=
  forall data, exists signature,
    rsa_sign private_key data = Ok signature
    /\ rsa_verify pubkey signature data = true.

Definition sign_bytes_sha1_pkcs1 (private_key_obj : PrivateKey)
  (data_bytes : string) : result string :=
  rsa_sign private_key_obj data_bytes.

Section Unit.

Variable build_tpNFTS_bytes : Element -> string.

(** The body of the loop of [sign_file] in the debug script. *)
Definition sign_unit (private_key : PrivateKey) (nfts : Element)
  : result Element :=
  let canonical_bytes := build_tpNFTS_bytes nfts in
  Raising.bind (sign_bytes_sha1_pkcs1 private_key canonical_bytes)
    (fun sig_bytes =>
       let sig_b64 := Base64.b64encode sig_bytes in
       let assin_text := remove_spaces sig_b64 in
       Ok (insert_assinatura nfts assin_text)).

(** The body of the loop of [verify_signed_nfts]; a signature element
    without text makes [.text.split()] raise. *)
Definition verify_unit (pubkey : PublicKey) (nfts : Element)
  : result Verdict :=
  match List.filter (has_local "Assinatura") (children_of nfts) with
  | [] => Ok MissingSignature
  | assin :: _ =>
      match text_of assin with
      | None => Raise AttributeError
      | Some text =>
          let assinatura_b64 := remove_spaces text in
          match Base64.b64decode assinatura_b64 with
          | None => Ok MalformedSignature
          | Some sig_bytes =>
              let canonical_bytes := build_tpNFTS_bytes nfts in
              if rsa_verify pubkey sig_bytes canonical_bytes then Ok Valid
              else Ok (Invalid (sha1 canonical_bytes)
                         (String.length sig_bytes))
          end
      end
  end.

End Unit.

End Signing.

(** ** Reassembling the signed unit *)

Module Reassemble.

Definition NFTS_ELEMENT_ORDER : list string :=
  [ "TipoDocumento"; "ChaveDocumento"; "DataPrestacao"; "StatusNFTS";
    "TributacaoNFTS"; "ValorServicos"; "ValorDeducoes"; "CodigoServico";
    "CodigoSubItem"; "AliquotaServicos"; "ISSRetidoTomador";
    "ISSRetidoIntermediario"; "Prestador"; "RegimeTributacao";
    "DataPagamento"; "Discriminacao"; "TipoNFTS"; "Tomador";
    "Assinatura";
    "ExigibilidadeSuspensa";
    "PagamentoParceladoAntecipado" ].

Definition qname_eqb (a b : QName) : bool :=
  match ns a, ns b with
  | None, None => String.eqb (local a) (local b)
  | Some x, Some y => String.eqb x y && String.eqb (local a) (local b)
  | _, _ => false
  end.

(** A dictionary keyed by tag, as the list of its items. *)
Definition Dict : Set := list (QName * Element).

(** [d[k] = v] *)
Fixpoint dict_set (k : QName) (v : Element) (d : Dict) : Dict :=
  match d with
  | [] => [(k, v)]
  | (k', v') :: r =>
      if qname_eqb k' k then (k, v) :: r else (k', v') :: dict_set k v r
  end.

Fixpoint dict_get (k : QName) (d : Dict) : option Element :=
  match d with
  | [] => None
  | (k', v') :: r => if qname_eqb k' k then Some v' else dict_get k r
  end.

(** [{el.tag: el for el in nfts}] *)
Definition elements_dict_of (children : list Element) : Dict :=
  List.fold_left (fun d el => dict_set (tag_of el) el d) children [].

(** A plain string used as a key is a tag without namespace. *)
Definition plain (name : string) : QName := mkQName None name.

(** [for tag in NFTS_ELEMENT_ORDER: if tag in elements_dict: append] *)
Fixpoint append_in_order (order : list string) (d : Dict) : list Element :=
  match order with
  | [] => []
  | tag :: r =>
      match dict_get (plain tag) d with
      | Some el => el :: append_in_order r d
      | None => append_in_order r d
      end
  end.

(** Lines 252 to 259 of [sign_file] in the script with the new fields:
    the children of the unit are replaced by those listed in
    [NFTS_ELEMENT_ORDER]. *)
Definition reassemble (nfts : Element) (assin_text : string) : Element :=
  let 'Elem t a x tl cs := nfts in
  let elements_dict := elements_dict_of cs in
  let assin_el := new_element "Assinatura" (Some assin_text) [] in
  let elements_dict := dict_set (plain "Assinatura") assin_el elements_dict in
  Elem t a x tl (append_in_order NFTS_ELEMENT_ORDER elements_dict).

End Reassemble.

(** ** Shapes of canonical trees and of schema maps *)

(** A canonical node is a leaf with text that is not empty, or a group
    with at least one child, all of them canonical nodes again. *)
Fixpoint pruned (e : Element) : bool :=
  let 'Elem _ _ x _ cs := e in
  match x, cs with
  | Some s, [] => negb (String.eqb s "")
  | None, _ :: _ => List.forallb pruned cs
  | _, _ => false
  end.

Definition keys (order_map : OrderMap) : list string := List.map fst order_map.

(** The keys of a dictionary are distinct, at every level. *)
Fixpoint distinct_keys (d : Def) : Prop :=
  match d with
  | DStr _ => True
  | DDict items =>
      NoDup (List.map fst items)
      /\ (fix all (l : list (string * Def)) : Prop :=
            match l with
            | [] => True
            | (_, d') :: r => distinct_keys d' /\ all r
            end) items
  end.

Definition has_name (name : string) (l : list Element) : Prop :=
  exists e, In e l /\ local_name e = name.

(** ** The content of a unit the schema reaches *)

(** The text of the field at a path of names, each step taking the first
    child of that local name; [None] when a step finds no child. *)
Fixpoint field_text (node : Element) (path : list string) : option string :=
  match path with
  | [] => Some (text_or_empty node)
  | name :: rest =>
      match find_child node name with
      | None => None
      | Some c => field_text c rest
      end
  end.

(** The paths of the fields of a schema map. *)
Fixpoint leaf_paths_def (d : Def) : list (list string) :=
  match d with
  | DStr _ => [[]]
  | DDict items =>
      (fix all (l : list (string * Def)) : list (list string) :=
         match l with
         | [] => []
         | (t, d') :: r => (List.map (cons t) (leaf_paths_def d') ++ all r)%list
         end) items
  end.

Fixpoint leaf_paths (order_map : OrderMap) : list (list string) :=
  match order_map with
  | [] => []
  | (t, d) :: r => (List.map (cons t) (leaf_paths_def d) ++ leaf_paths r)%list
  end.

(** Two units agree on a schema map when every field of the map is
    absent from both or present in both with the same text. *)
Definition agree (order_map : OrderMap) (u1 u2 : Element) : Prop :=
  forall path, In path (leaf_paths order_map) ->
               field_text u1 path = field_text u2 path.

(** ** A field absent, and the same field present and empty *)

(** [order_map[name]] *)
Fixpoint lookup (name : string) (order_map : OrderMap) : option Def :=
  match order_map with
  | [] => None
  | (t, d) :: r => if String.eqb t name then Some d else lookup name r
  end.

(** The kind of the field at a path of the schema map. *)
Fixpoint kind_at (order_map : OrderMap) (path : list string) : option string :=
  match path with
  | [] => None
  | name :: rest =>
      match lookup name order_map, rest with
      | Some (DStr kind), [] => Some kind
      | Some (DDict items), _ :: _ => kind_at items rest
      | _, _ => None
      end
  end.

(** [adds_empty path u u']: [u'] is [u] with one more element, without
    text, put at [path] where [u] has no element of that name; the groups
    on the way are those the builder follows. *)
Inductive adds_empty : list string -> Element -> Element -> Prop :=
| adds_here (name : string) t a x tl (pre post : list Element) (c : Element) :
    find (has_local name) (pre ++ post)%list = None ->
    local_name c = name ->
    text_or_empty c = "" ->
    adds_empty [name] (Elem t a x tl (pre ++ post)%list)
      (Elem t a x tl (pre ++ c :: post)%list)
| adds_below (name : string) (path : list string) t a x tl
    (pre post : list Element) (g g' : Element) :
    find (has_local name) pre = None ->
    local_name g = name ->
    local_name g' = name ->
    adds_empty path g g' ->
    adds_empty (name :: path) (Elem t a x tl (pre ++ g :: post)%list)
      (Elem t a x tl (pre ++ g' :: post)%list).

(** ** A small instance of the signature primitives

    Textbook RSA on the modulus 3233 = 61 * 53, over a checksum of the
    data: an instance of the interface of section [Signing], small
    enough to be checked by computation. *)

Module ToyRSA.

Local Open Scope N_scope.

Definition modulus : N := 3233.
Definition public_exponent : N := 17.
Definition private_exponent : N := 2753.

Fixpoint pow_mod_pos (a : N) (e : positive) (n : N) : N :=
  match e with
  | xH => a mod n
  | xO e' => let r := pow_mod_pos a e' n in (r * r) mod n
  | xI e' => let r := pow_mod_pos a e' n in (r * r * a) mod n
  end.

Definition pow_mod (a e n : N) : N :=
  match e with
  | N0 => 1 mod n
  | Npos p => pow_mod_pos a p n
  end.

Fixpoint checksum (data : string) : N :=
  match data with
  | EmptyString => 0
  | String c r => (N_of_ascii c + 31 * checksum r) mod modulus
  end.

Definition encode (s : N) : string :=
  String (ascii_of_N (s / 256)) (String (ascii_of_N (s mod 256)) EmptyString).

Definition decode (b : string) : option N :=
  match b with
  | String h (String l EmptyString) => Some (256 * N_of_ascii h + N_of_ascii l)
  | _ => None
  end.

Definition sign (d : N) (data : string) : result string :=
  Ok (encode (pow_mod (checksum data) d modulus)).

Definition accepts (m s : N) : bool := pow_mod s public_exponent modulus =? m.

Definition verify (e : N) (signature data : string) : bool :=
  match decode signature with
  | Some s => pow_mod s e modulus =? checksum data
  | None => false
  end.

Definition digest (data : string) : string := encode (checksum data).

(** Every residue signed with the private exponent is accepted with the
    public one. *)
Definition round_trip (m : N) : bool :=
  match decode (encode (pow_mod m private_exponent modulus)) with
  | Some s => pow_mod s public_exponent modulus =? m
  | None => false
  end.

Definition residues : list N := List.map N.of_nat (List.seq 0 3233).

End ToyRSA.

(** ** Series that survive a second normalization *)

(** White space other than the ordinary space. *)
Definition odd_space (c : ascii) : bool :=
  is_space c && negb (Ascii.eqb c space).

(** The cleaned text has no such white space among its first five
    characters. *)
Definition serie_plain_spaces (text : string) : bool :=
  all_chars (fun c => negb (odd_space c)) (take 5 (clean text)).

(** The paths of the fields of a schema map, each with its kind. *)
Fixpoint leaf_kinds_def (d : Def) : list (list string * string) :=
  match d with
  | DStr kind => [([], kind)]
  | DDict items =>
      (fix all (l : list (string * Def)) : list (list string * string) :=
         match l with
         | [] => []
         | (t, d') :: r =>
             (List.map (fun pk => (t :: fst pk, snd pk)) (leaf_kinds_def d')
                ++ all r)%list
         end) items
  end.

Fixpoint leaf_kinds (order_map : OrderMap) : list (list string * string) :=
  match order_map with
  | [] => []
  | (t, d) :: r =>
      (List.map (fun pk => (t :: fst pk, snd pk)) (leaf_kinds_def d)
         ++ leaf_kinds r)%list
  end.

(** * Properties *)

(** ** Text *)

Lemma length_take (n : nat) (s : string) :
  String.length (take n s) = Nat.min n (String.length s).
Proof.
  revert s; induction n as [|n IH]; intros [|c r]; simpl; auto.
Qed.

Lemma length_append (s t : string) :
  String.length (s ++ t) = String.length s + String.length t.
Proof. induction s; simpl; auto. Qed.

Lemma take_append_short (n : nat) (s t : string) :
  String.length s <= n ->
  take n (s ++ t) = s ++ take (n - String.length s) t.
Proof.
  revert s; induction n as [|n IH]; intros [|c r] H; simpl in *; auto; try lia.
  f_equal. apply IH. lia.
Qed.

Lemma take_append_long (n : nat) (s t : string) :
  n <= String.length s -> take n (s ++ t) = take n s.
Proof.
  revert s; induction n as [|n IH]; intros [|c r] H; simpl in *; auto; try lia.
  f_equal. apply IH. lia.
Qed.

(** ** The normalizers never raise *)

Lemma int_raises_value_error (s : string) (e : exn) :
  PyInt.int s = Raise e -> e = ValueError.
Proof.
  unfold PyInt.int. destruct (NilZero.uint_of_string s); congruence.
Qed.

Lemma numeric_string_returns (text : option string) :
  Raising.normalize_numeric_string text = Ok (normalize_numeric_string text)
  /\ Raising.normalize_numeric_string_bare text
     = Ok (normalize_numeric_string text).
Proof.
  destruct text as [t|]; [|split; reflexivity].
  unfold Raising.normalize_numeric_string,
    Raising.normalize_numeric_string_bare, normalize_numeric_string.
  cbv zeta. destruct (isdigit _); [|split; reflexivity].
  destruct (PyInt.int _) as [n|e] eqn:E; simpl; [split; reflexivity|].
  apply int_raises_value_error in E. subst e. split; reflexivity.
Qed.

Lemma float_value_returns (text : option string) (format_decimals : bool) :
  Raising.normalize_float_value text format_decimals
  = Ok (normalize_float_value text format_decimals).
Proof.
  destruct text as [t|]; [|reflexivity].
  unfold Raising.normalize_float_value, normalize_float_value. cbv zeta.
  destruct (PyFloat.float_of_string _) as [x|e]; simpl; [|reflexivity].
  destruct format_decimals; reflexivity.
Qed.

(** C9. Every normalizer returns a string on every input, [None]
    included, and never raises: the value is the one of the pure function
    of the same name.  When [int] or [float] rejects the cleaned text, the
    cleaned text itself is returned. *)
Theorem normalizers_total (text : option string) :
  (Raising.normalize_numeric_string text = Ok (normalize_numeric_string text)
   /\ Raising.normalize_numeric_string_bare text
      = Ok (normalize_numeric_string text)
   /\ (forall format_decimals,
          Raising.normalize_float_value text format_decimals
          = Ok (normalize_float_value text format_decimals))
   /\ Raising.normalize_boolean_value text = Ok (normalize_boolean_value text)
   /\ Raising.normalize_serie_nfts_padded text
      = Ok (normalize_serie_nfts_padded text)
   /\ Raising.normalize_serie_nfts_plain text
      = Ok (normalize_serie_nfts_plain text))
  /\ (forall t e,
         text = Some t -> PyInt.int (clean t) = Raise e ->
         normalize_numeric_string text = clean t)
  /\ (forall t e format_decimals,
         text = Some t ->
         PyFloat.float_of_string (strip (replace comma period (replace nbsp space t)))
         = Raise e ->
         normalize_float_value text format_decimals
         = strip (replace comma period (replace nbsp space t))).
Proof.
  split; [|split].
  - pose proof (numeric_string_returns text) as [H1 H2].
    repeat split; auto using float_value_returns.
    + destruct text as [t|]; [|reflexivity].
      unfold Raising.normalize_boolean_value, normalize_boolean_value.
      cbv zeta. fold true_tokens. destruct (existsb _ _); reflexivity.
    + destruct text; reflexivity.
    + destruct text; reflexivity.
  - intros t e -> E. unfold normalize_numeric_string, clean in *. cbv zeta.
    rewrite E. destruct (isdigit _); reflexivity.
  - intros t e f -> E. unfold normalize_float_value. cbv zeta.
    rewrite E. reflexivity.
Qed.

(** The superscript two passes [isdigit] and is rejected by [int]: the
    cleaned input comes back. *)
Example numeric_string_superscript :
  let s := String (ascii_of_N 178) EmptyString in
  isdigit s = true /\ PyInt.int s = Raise ValueError
  /\ Raising.normalize_numeric_string (Some s) = Ok s.
Proof. repeat split. Qed.

Example numeric_string_examples :
  normalize_numeric_string (Some "0042") = "42"
  /\ normalize_numeric_string (Some "000") = "0"
  /\ normalize_numeric_string (Some " 12a ") = "12a".
Proof. repeat split. Qed.

(** ** The series *)

Fixpoint spaces (n : nat) : string :=
  match n with O => EmptyString | S k => String space (spaces k) end.

Lemma take_spaces (n : nat) : n <= 5 -> take n "     " = spaces n.
Proof.
  intros H. do 6 (destruct n as [|n]; [reflexivity|]). lia.
Qed.

(** The padded normalizer of the debug script: five characters, the
    cleaned text cut at five or filled up with spaces. *)
Lemma serie_padded_spec (text : string) :
  let r := Debug.normalize_serie_nfts (Some text) in
  String.length r = 5
  /\ (String.length (clean text) <= 5 ->
      r = clean text ++ spaces (5 - String.length (clean text)))
  /\ (5 <= String.length (clean text) -> r = take 5 (clean text)).
Proof.
  cbv zeta. unfold Debug.normalize_serie_nfts, normalize_serie_nfts_padded.
  fold (clean text). repeat split.
  - rewrite length_take, length_append.
    change (String.length "     ") with 5. lia.
  - intros H. rewrite take_append_short by exact H.
    rewrite take_spaces by lia. reflexivity.
  - intros H. apply take_append_long. exact H.
Qed.

(** C6, as the code has it.  In the debug script the series normalizer
    cleans its input and returns exactly five characters, the cleaned text
    filled up with spaces on the right or cut at five ("AB" gives
    "AB   ", "ABCDEFG" gives "ABCDE"); in the script with the new fields
    it returns the cleaned text as it is, neither filled up nor cut. *)
Theorem serie_normalizer_by_script (text : string) :
  (String.length (Debug.normalize_serie_nfts (Some text)) = 5
   /\ (String.length (clean text) <= 5 ->
       Debug.normalize_serie_nfts (Some text)
       = clean text ++ spaces (5 - String.length (clean text)))
   /\ (5 <= String.length (clean text) ->
       Debug.normalize_serie_nfts (Some text) = take 5 (clean text)))
  /\ Debug.normalize_serie_nfts (Some "AB") = "AB   "
  /\ Debug.normalize_serie_nfts (Some "ABCDEFG") = "ABCDE"
  /\ Novos.normalize_serie_nfts (Some text) = clean text.
Proof.
  split; [exact (serie_padded_spec text)|]. repeat split.
Qed.

(** C6 fails on the script with the new fields: "AB" stays "AB". *)
Lemma serie_plain_not_padded :
  Novos.normalize_serie_nfts (Some "AB") = "AB"
  /\ Novos.normalize_serie_nfts (Some "AB") <> "AB   "
  /\ Novos.normalize_serie_nfts (Some "ABCDEFG") = "ABCDEFG"
  /\ String.length (Novos.normalize_serie_nfts (Some "ABCDEFG")) <> 5.
Proof. repeat split; discriminate. Qed.

(** ** Booleans *)

Lemma boolean_value_cases (text : option string) :
  normalize_boolean_value text = "true"
  \/ normalize_boolean_value text = "false".
Proof.
  destruct text as [t|]; [|right; reflexivity].
  unfold normalize_boolean_value.
  destruct (existsb (String.eqb _) true_tokens); [left|right]; reflexivity.
Qed.

Lemma boolean_value_true_iff (text : string) :
  normalize_boolean_value (Some text) = "true"
  <-> In (lower (clean text)) true_tokens.
Proof.
  unfold normalize_boolean_value. fold (clean text).
  destruct (existsb _ _) eqn:E.
  - split; [intros _|reflexivity].
    apply existsb_exists in E. destruct E as [x [Hin Hx]].
    apply String.eqb_eq in Hx. subst x. exact Hin.
  - split; [discriminate|]. intros Hin. exfalso.
    assert (existsb (String.eqb (lower (clean text))) true_tokens = true).
    { apply existsb_exists. exists (lower (clean text)). split; auto.
      apply String.eqb_refl. }
    congruence.
Qed.

Lemma boolean_value_nonempty (text : option string) :
  normalize_boolean_value text <> "".
Proof.
  destruct (boolean_value_cases text) as [H|H]; rewrite H; discriminate.
Qed.

Example boolean_examples :
  normalize_boolean_value (Some "Sim") = "true"
  /\ normalize_boolean_value (Some "") = "false"
  /\ normalize_boolean_value (Some "NAO") = "false"
  /\ normalize_boolean_value (Some " YES ") = "true".
Proof. repeat split. Qed.

(** ** The builder *)

Section BuilderFacts.

Variable normalize_serie_nfts : option string -> string.

Local Abbreviation build_item := (build_item normalize_serie_nfts).
Local Abbreviation build_fragment := (build_fragment normalize_serie_nfts).
Local Abbreviation normalize := (normalize normalize_serie_nfts).

Lemma build_item_dict (node : Element) (tag_name : string)
  (items : list (string * Def)) :
  build_item node tag_name (DDict items)
  = match find_child node tag_name with
    | None => []
    | Some original_child =>
        match build_fragment original_child items with
        | [] => []
        | nested => [new_element tag_name None nested]
        end
    end.
Proof.
  simpl. destruct (find_child node tag_name) as [c|]; [|reflexivity].
  match goal with
  | |- match ?l with _ => _ end = match ?r with _ => _ end =>
      assert (E : l = r); [|rewrite E; destruct r; reflexivity]
  end.
  induction items as [|[t d] r IH]; simpl; [reflexivity|].
  rewrite IH. reflexivity.
Qed.

Lemma build_item_str (node : Element) (tag_name kind : string) :
  build_item node tag_name (DStr kind)
  = match find_child node tag_name with
    | None => []
    | Some original_child =>
        let final := normalize kind (text_or_empty original_child) in
        if String.eqb final "" then []
        else [new_element tag_name (Some final) []]
    end.
Proof. reflexivity. Qed.

(** Induction on schema maps, items included. *)
Lemma order_map_ind (P : Def -> Prop) (Q : list (string * Def) -> Prop) :
  (forall kind, P (DStr kind)) ->
  (forall items, Q items -> P (DDict items)) ->
  Q [] ->
  (forall t d r, P d -> Q r -> Q ((t, d) :: r)) ->
  forall order_map, Q order_map.
Proof.
  intros Hs Hd Hn Hc.
  assert (HP : forall d, P d).
  { fix rec 1. intros [kind|items]; [apply Hs|].
    apply Hd. induction items as [|[t d] r IH]; [apply Hn|].
    apply Hc; [apply rec|exact IH]. }
  induction order_map as [|[t d] r IH]; [apply Hn|].
  apply Hc; [apply HP|exact IH].
Qed.

(** Every element an item appends carries the name of the item. *)
Lemma build_item_name (node : Element) (tag_name : string) (d : Def) (e : Element) :
  In e (build_item node tag_name d) -> local_name e = tag_name.
Proof.
  destruct d as [kind|items].
  - rewrite build_item_str. destruct (find_child _ _); [|intros []].
    cbv zeta. destruct (String.eqb _ ""); [intros []|].
    intros [<-|[]]. reflexivity.
  - rewrite build_item_dict. destruct (find_child _ _); [|intros []].
    destruct (build_fragment _ _); [intros []|].
    intros [<-|[]]. reflexivity.
Qed.

Lemma build_fragment_name (node : Element) (order_map : OrderMap) (e : Element) :
  In e (build_fragment node order_map) -> In (local_name e) (keys order_map).
Proof.
  induction order_map as [|[t d] r IH]; simpl; [auto|].
  rewrite in_app_iff. intros [H|H].
  - left. symmetry. eapply build_item_name; eauto.
  - right. auto.
Qed.

(** The item of a key that appends nothing leaves no element of its name,
    the keys being distinct. *)
Lemma build_fragment_absent (node : Element) (order_map : OrderMap)
  (tag_name : string) (d : Def) :
  NoDup (keys order_map) -> In (tag_name, d) order_map ->
  build_item node tag_name d = [] ->
  ~ has_name tag_name (build_fragment node order_map).
Proof.
  induction order_map as [|[t d'] r IH]; simpl; [tauto|].
  intros ND Hin Hnil [e [He Hn]]. inversion ND as [|? ? Hnotin ND']; subst.
  apply in_app_iff in He. destruct Hin as [Heq|Hin].
  - inversion Heq; subst. destruct He as [He|He].
    + rewrite Hnil in He. exact He.
    + apply build_fragment_name in He. auto.
  - destruct He as [He|He].
    + apply build_item_name in He. subst t.
      apply Hnotin. unfold keys. change (local_name e) with (fst (local_name e, d)).
      apply in_map. exact Hin.
    + apply (IH ND' Hin Hnil). exists e. auto.
Qed.

Lemma build_fragment_present (node : Element) (order_map : OrderMap)
  (tag_name : string) (d : Def) (e : Element) :
  In (tag_name, d) order_map -> In e (build_item node tag_name d) ->
  In e (build_fragment node order_map).
Proof.
  induction order_map as [|[t d'] r IH]; simpl; [tauto|].
  intros [Heq|Hin] He; apply in_app_iff.
  - inversion Heq; subst. left. exact He.
  - right. auto.
Qed.

(** No empty leaf and no empty group, at any depth. *)
Lemma build_fragment_pruned (order_map : OrderMap) :
  forall node, forallb pruned (build_fragment node order_map) = true.
Proof.
  apply (order_map_ind
           (fun d => forall node t, forallb pruned (build_item node t d) = true)
           (fun om => forall node, forallb pruned (build_fragment node om) = true)).
  - intros kind node t. rewrite build_item_str.
    destruct (find_child _ _); [|reflexivity]. cbv zeta.
    destruct (String.eqb _ "") eqn:E; [reflexivity|].
    simpl. rewrite E. reflexivity.
  - intros items IH node t. rewrite build_item_dict.
    destruct (find_child _ _) as [c|]; [|reflexivity].
    specialize (IH c). destruct (build_fragment c items) as [|x l]; [reflexivity|].
    cbn [forallb new_element pruned]. rewrite andb_true_r. exact IH.
  - reflexivity.
  - intros t d r Hd Hr node. simpl. rewrite forallb_app, Hd, Hr. reflexivity.
Qed.

End BuilderFacts.

(** C4. Whatever the unit, the canonical tree has no empty leaf and no
    empty group at any depth; a field of the map whose text normalizes to
    the empty string leaves no element of its name in the fragment, and
    neither does a group whose own fragment is empty.  The keys of the
    map are distinct, as those of a dictionary are. *)
Theorem pruning (normalize_serie_nfts : option string -> string)
  (order_map : OrderMap) (node : Element) (ND : NoDup (keys order_map)) :
  forallb pruned (build_fragment normalize_serie_nfts node order_map) = true
  /\ (forall u,
         forallb pruned
           (children_of (canonical_root normalize_serie_nfts order_map u))
         = true)
  /\ (forall tag_name kind c,
         In (tag_name, DStr kind) order_map ->
         find_child node tag_name = Some c ->
         normalize normalize_serie_nfts kind (text_or_empty c) = "" ->
         ~ has_name tag_name
             (build_fragment normalize_serie_nfts node order_map))
  /\ (forall tag_name items c,
         In (tag_name, DDict items) order_map ->
         find_child node tag_name = Some c ->
         build_fragment normalize_serie_nfts c items = [] ->
         ~ has_name tag_name
             (build_fragment normalize_serie_nfts node order_map)).
Proof.
  split; [apply build_fragment_pruned|].
  split; [intros u; apply build_fragment_pruned|].
  split.
  - intros t kind c Hin Hc Hn.
    apply (build_fragment_absent _ _ _ _ (DStr kind) ND Hin).
    rewrite build_item_str, Hc. cbv zeta. rewrite Hn. reflexivity.
  - intros t items c Hin Hc Hn.
    apply (build_fragment_absent _ _ _ _ (DDict items) ND Hin).
    rewrite build_item_dict, Hc, Hn. reflexivity.
Qed.

Lemma debug_keys_distinct : NoDup (keys Debug.canonical_order_map).
Proof.
  unfold keys; simpl.
  repeat (constructor; [simpl; intuition discriminate|]). constructor.
Qed.

Lemma novos_keys_distinct : NoDup (keys Novos.canonical_order_map).
Proof.
  unfold keys; simpl.
  repeat (constructor; [simpl; intuition discriminate|]). constructor.
Qed.

(** A unit whose e-mail is blank, inside a provider that has nothing
    else: neither the field nor the group is in the canonical form. *)
Definition pruning_unit : Element :=
  new_element "NFTS" None
    [ new_element "TipoDocumento" (Some " 01 ") [];
      new_element "DataPagamento" (Some "  ") [];
      new_element "Prestador" None [ new_element "Email" (Some " ") [] ] ].

Lemma pruning_witness :
  Debug.build_tpNFTS_bytes pruning_unit
  = "<tpNFTS><TipoDocumento>01</TipoDocumento></tpNFTS>"
  /\ ~ has_name "DataPagamento"
         (Debug.build_fragment pruning_unit Debug.canonical_order_map)
  /\ ~ has_name "Prestador"
         (Debug.build_fragment pruning_unit Debug.canonical_order_map).
Proof.
  destruct (pruning Debug.normalize_serie_nfts Debug.canonical_order_map
              pruning_unit debug_keys_distinct) as (_ & _ & Hf & Hg).
  split; [reflexivity|]. split.
  - apply (Hf "DataPagamento" "str_opt"
             (new_element "DataPagamento" (Some "  ") [])).
    + simpl; tauto.
    + reflexivity.
    + reflexivity.
  - apply (Hg "Prestador"
             [ ("CPFCNPJ", DDict [ ("CNPJ", DStr "str"); ("CPF", DStr "str") ]);
               ("InscricaoMunicipal", DStr "str");
               ("RazaoSocialPrestador", DStr "str");
               ("Endereco", DDict
                  [ ("TipoLogradouro", DStr "str");
                    ("Logradouro", DStr "str");
                    ("NumeroEndereco", DStr "str");
                    ("ComplementoEndereco", DStr "str_opt");
                    ("Bairro", DStr "str");
                    ("Cidade", DStr "num_str");
                    ("UF", DStr "str");
                    ("CEP", DStr "str") ]);
               ("Email", DStr "str_opt") ]
             (new_element "Prestador" None [ new_element "Email" (Some " ") [] ])).
    + simpl; tauto.
    + reflexivity.
    + reflexivity.
Defined.

(** ** Lookups and the signature child *)

Lemma find_remove_first_other (name other : string) (l : list Element) :
  other <> name ->
  find (has_local other) (remove_first name l) = find (has_local other) l.
Proof.
  intros Hne. induction l as [|c r IH]; [reflexivity|].
  cbn [remove_first find].
  destruct (has_local name c) eqn:E; destruct (has_local other c) eqn:E';
    cbn [find]; rewrite ?E'; auto.
  unfold has_local in E, E'. apply String.eqb_eq in E, E'. congruence.
Qed.

Lemma find_child_clean_tp (u : Element) (name : string) :
  name <> "Assinatura" -> find_child (clean_tp u) name = find_child u name.
Proof.
  intros Hne. destruct u as [t a x tl cs]. unfold find_child. simpl.
  apply find_remove_first_other. exact Hne.
Qed.

(** ** Bytes of a canonical tree *)

Lemma append_assoc (a b c : string) : ((a ++ b) ++ c = a ++ (b ++ c))%string.
Proof. induction a; simpl; congruence. Qed.

Fixpoint tostring_all (l : list Element) : string :=
  match l with
  | [] => EmptyString
  | c :: r => Xml.tostring c ++ tostring_all r
  end.

Lemma tostring_group (name : string) (c : Element) (cs : list Element) :
  Xml.tostring (new_element name None (c :: cs))
  = "<" ++ Xml.utf8 name ++ ">" ++ tostring_all (c :: cs)
      ++ "</" ++ Xml.utf8 name ++ ">".
Proof.
  reflexivity.
Qed.

Lemma tostring_leaf (name text : string) :
  Xml.tostring (new_element name (Some text) [])
  = "<" ++ Xml.utf8 name ++ ">" ++ Xml.escape text
      ++ "</" ++ Xml.utf8 name ++ ">".
Proof. reflexivity. Qed.

Lemma tostring_all_in (c : Element) (l : list Element) :
  In c l ->
  exists pre post, tostring_all l = pre ++ Xml.tostring c ++ post.
Proof.
  induction l as [|x r IH]; [intros []|].
  intros [->|H].
  - exists "", (tostring_all r). reflexivity.
  - destruct (IH H) as (pre & post & E).
    exists (Xml.tostring x ++ pre), post. simpl. rewrite E.
    symmetry. apply append_assoc.
Qed.

Lemma strip_bom_tag (s : string) : Xml.strip_bom (String "<" s) = String "<" s.
Proof. reflexivity. Qed.

(** The bytes of a root that has a given child. *)
Lemma root_bytes_in (serie : option string -> string) (om : OrderMap)
  (u c : Element) :
  In c (children_of (canonical_root serie om u)) ->
  exists pre post,
    build_tpNFTS_bytes serie om u
    = "<tpNFTS>" ++ pre ++ Xml.tostring c ++ post ++ "</tpNFTS>".
Proof.
  unfold build_tpNFTS_bytes, canonical_root. simpl children_of.
  destruct (build_fragment serie (clean_tp u) om) as [|x l] eqn:E;
    [intros []|].
  intros Hin. destruct (tostring_all_in c (x :: l) Hin) as (pre & post & Ea).
  exists pre, post. rewrite tostring_group, Ea.
  change (Xml.utf8 "tpNFTS") with "tpNFTS".
  cbn [append]. rewrite strip_bom_tag. do 8 f_equal.
  rewrite !append_assoc. reflexivity.
Qed.

(** C10. A boolean field present in the unit is in the canonical form of
    either script, as a leaf whose text is "true" when the lower-cased
    cleaned text is one of true, 1, s, sim, t, y, yes and "false"
    otherwise, the empty text included; it is never pruned. *)
Theorem boolean_field_kept (u c : Element) (name : string)
  (Hname : name = "ISSRetidoTomador" \/ name = "ISSRetidoIntermediario")
  (Hfound : find_child u name = Some c) :
  let v := normalize_boolean_value (Some (text_or_empty c)) in
  (v = "true" <-> In (lower (clean (text_or_empty c))) true_tokens)
  /\ (v = "true" \/ v = "false")
  /\ v <> ""
  /\ In (new_element name (Some v) []) (children_of (Debug.canonical_root u))
  /\ In (new_element name (Some v) []) (children_of (Novos.canonical_root u))
  /\ (exists pre post,
         Debug.build_tpNFTS_bytes u
         = "<tpNFTS>" ++ pre ++ "<" ++ name ++ ">" ++ v ++ "</" ++ name ++ ">"
             ++ post ++ "</tpNFTS>")
  /\ (exists pre post,
         Novos.build_tpNFTS_bytes u
         = "<tpNFTS>" ++ pre ++ "<" ++ name ++ ">" ++ v ++ "</" ++ name ++ ">"
             ++ post ++ "</tpNFTS>").
Proof.
  intros v.
  assert (Hne : name <> "Assinatura") by (destruct Hname; subst; discriminate).
  assert (Hv : v = "true" \/ v = "false") by apply boolean_value_cases.
  assert (Hitem : forall serie,
             build_item serie (clean_tp u) name (DStr "bool")
             = [new_element name (Some v) []]).
  { intros serie. rewrite build_item_str, find_child_clean_tp, Hfound by exact Hne.
    cbv zeta. change (normalize serie "bool" (text_or_empty c)) with v.
    destruct Hv as [-> | ->]; reflexivity. }
  assert (HD : In (new_element name (Some v) [])
                 (children_of (Debug.canonical_root u))).
  { apply (build_fragment_present _ _ _ name (DStr "bool")).
    - destruct Hname; subst; simpl; tauto.
    - rewrite Hitem. left. reflexivity. }
  assert (HN : In (new_element name (Some v) [])
                 (children_of (Novos.canonical_root u))).
  { apply (build_fragment_present _ _ _ name (DStr "bool")).
    - destruct Hname; subst; simpl; tauto.
    - rewrite Hitem. left. reflexivity. }
  assert (Hleaf : Xml.tostring (new_element name (Some v) [])
                  = "<" ++ name ++ ">" ++ v ++ "</" ++ name ++ ">").
  { rewrite tostring_leaf.
    destruct Hname; subst name; destruct Hv as [-> | ->]; reflexivity. }
  split; [apply boolean_value_true_iff|].
  split; [exact Hv|].
  split; [apply boolean_value_nonempty|].
  split; [exact HD|]. split; [exact HN|]. split.
  - destruct (root_bytes_in _ _ _ _ HD) as (pre & post & E).
    exists pre, post. unfold Debug.build_tpNFTS_bytes. rewrite E, Hleaf.
    rewrite !append_assoc. reflexivity.
  - destruct (root_bytes_in _ _ _ _ HN) as (pre & post & E).
    exists pre, post. unfold Novos.build_tpNFTS_bytes. rewrite E, Hleaf.
    rewrite !append_assoc. reflexivity.
Qed.

(** ** The canonical form depends on the schema fields only *)

Section Determinism.

Variable normalize_serie_nfts : option string -> string.

Local Abbreviation build_item := (build_item normalize_serie_nfts).
Local Abbreviation build_fragment := (build_fragment normalize_serie_nfts).

Lemma leaf_paths_dict (items : list (string * Def)) :
  leaf_paths_def (DDict items) = leaf_paths items.
Proof.
  simpl. induction items as [|[t d] r IH]; simpl; [reflexivity|].
  rewrite IH. reflexivity.
Qed.

(** A node that has none of the fields of a map gives an empty fragment. *)
Lemma build_fragment_no_field (order_map : OrderMap) :
  forall node,
    (forall path, In path (leaf_paths order_map) -> field_text node path = None) ->
    build_fragment node order_map = [].
Proof.
  apply (order_map_ind
           (fun d => forall node t,
                (forall path, In path (leaf_paths_def d) ->
                              field_text node (t :: path) = None) ->
                build_item node t d = [])
           (fun om => forall node,
                (forall path, In path (leaf_paths om) ->
                              field_text node path = None) ->
                build_fragment node om = [])).
  - intros kind node t H. specialize (H [] (or_introl eq_refl)).
    rewrite build_item_str. simpl in H.
    destruct (find_child node t); [discriminate|reflexivity].
  - intros items IH node t H. rewrite build_item_dict.
    destruct (find_child node t) as [c|] eqn:E; [|reflexivity].
    rewrite IH; [reflexivity|]. intros path Hin.
    rewrite <- leaf_paths_dict in Hin. specialize (H path Hin).
    simpl in H. rewrite E in H. exact H.
  - reflexivity.
  - intros t d r Hd Hr node H. simpl. rewrite Hd, Hr; [reflexivity| |].
    + intros path Hin. apply H. simpl. apply in_app_iff. right. exact Hin.
    + intros path Hin. apply H. simpl. apply in_app_iff. left.
      apply in_map. exact Hin.
Qed.

Lemma build_fragment_agree (order_map : OrderMap) :
  forall n1 n2, agree order_map n1 n2 ->
                build_fragment n1 order_map = build_fragment n2 order_map.
Proof.
  unfold agree.
  apply (order_map_ind
           (fun d => forall n1 n2 t,
                (forall path, In path (leaf_paths_def d) ->
                              field_text n1 (t :: path) = field_text n2 (t :: path)) ->
                build_item n1 t d = build_item n2 t d)
           (fun om => forall n1 n2,
                (forall path, In path (leaf_paths om) ->
                              field_text n1 path = field_text n2 path) ->
                build_fragment n1 om = build_fragment n2 om)).
  - intros kind n1 n2 t H. specialize (H [] (or_introl eq_refl)).
    rewrite !build_item_str. simpl in H.
    destruct (find_child n1 t), (find_child n2 t); try discriminate;
      [|reflexivity].
    injection H as ->. reflexivity.
  - intros items IH n1 n2 t H. rewrite !build_item_dict.
    destruct (find_child n1 t) as [c1|] eqn:E1,
             (find_child n2 t) as [c2|] eqn:E2.
    + rewrite (IH c1 c2); [reflexivity|]. intros path Hin.
      rewrite <- leaf_paths_dict in Hin. specialize (H path Hin).
      simpl in H. rewrite E1, E2 in H. exact H.
    + rewrite build_fragment_no_field; [reflexivity|]. intros path Hin.
      rewrite <- leaf_paths_dict in Hin. specialize (H path Hin).
      simpl in H. rewrite E1, E2 in H. exact H.
    + rewrite build_fragment_no_field; [reflexivity|]. intros path Hin.
      rewrite <- leaf_paths_dict in Hin. specialize (H path Hin).
      simpl in H. rewrite E1, E2 in H. symmetry. exact H.
    + reflexivity.
  - reflexivity.
  - intros t d r Hd Hr n1 n2 H. simpl. rewrite (Hd n1 n2), (Hr n1 n2);
      [reflexivity| |].
    + intros path Hin. apply H. simpl. apply in_app_iff. right. exact Hin.
    + intros path Hin. apply H. simpl. apply in_app_iff. left.
      apply in_map. exact Hin.
Qed.

Lemma leaf_paths_head (order_map : OrderMap) (t : string) (path : list string) :
  In (t :: path) (leaf_paths order_map) -> In t (keys order_map).
Proof.
  induction order_map as [|[t' d] r IH]; simpl; [auto|].
  rewrite in_app_iff. intros [H|H]; [left|right; auto].
  apply in_map_iff in H. destruct H as (p & E & _). congruence.
Qed.

Lemma leaf_paths_nonempty (order_map : OrderMap) : ~ In [] (leaf_paths order_map).
Proof.
  induction order_map as [|[t' d] r IH]; simpl; [auto|].
  rewrite in_app_iff. intros [H|H]; [|auto].
  apply in_map_iff in H. destruct H as (p & E & _). discriminate.
Qed.

Lemma agree_clean_tp (order_map : OrderMap) (u1 u2 : Element) :
  ~ In "Assinatura" (keys order_map) ->
  agree order_map u1 u2 -> agree order_map (clean_tp u1) (clean_tp u2).
Proof.
  intros Hk H path Hin. specialize (H path Hin).
  destruct path as [|t rest]; [destruct (leaf_paths_nonempty _ Hin)|].
  assert (t <> "Assinatura").
  { intros ->. apply Hk. eapply leaf_paths_head; eauto. }
  simpl in *. rewrite !find_child_clean_tp by assumption. exact H.
Qed.

End Determinism.

(** C1. Two units that agree on every field of the canonical schema map
    (the field found by local name, first match, along its path: absent
    from both, or present in both with the same text) have the same
    canonical bytes, whatever else they hold and in whatever order.  The
    map has no key [Assinatura], the child the builder removes. *)
Theorem canonical_bytes_determined
  (normalize_serie_nfts : option string -> string) (order_map : OrderMap)
  (u1 u2 : Element)
  (Hkeys : ~ In "Assinatura" (keys order_map))
  (Hagree : agree order_map u1 u2) :
  canonical_root normalize_serie_nfts order_map u1
  = canonical_root normalize_serie_nfts order_map u2
  /\ build_tpNFTS_bytes normalize_serie_nfts order_map u1
     = build_tpNFTS_bytes normalize_serie_nfts order_map u2.
Proof.
  assert (E : canonical_root normalize_serie_nfts order_map u1
              = canonical_root normalize_serie_nfts order_map u2).
  { unfold canonical_root. f_equal.
    apply build_fragment_agree, agree_clean_tp; assumption. }
  split; [exact E|]. unfold build_tpNFTS_bytes. rewrite E. reflexivity.
Qed.

(** ** Absent and empty *)

Lemma find_app (p : Element -> bool) (l r : list Element) :
  find p (l ++ r)%list
  = match find p l with Some x => Some x | None => find p r end.
Proof.
  induction l as [|x l IH]; simpl; [reflexivity|].
  destruct (p x); [reflexivity|exact IH].
Qed.

Lemma lookup_in (name : string) (order_map : OrderMap) (d : Def) :
  lookup name order_map = Some d -> In (name, d) order_map.
Proof.
  induction order_map as [|[t d'] r IH]; simpl; [discriminate|].
  destruct (String.eqb t name) eqn:E.
  - apply String.eqb_eq in E. intros [= ->]. left. congruence.
  - auto.
Qed.

Lemma in_keys_unique (order_map : OrderMap) (name : string) (d d' : Def) :
  NoDup (keys order_map) ->
  In (name, d) order_map -> In (name, d') order_map -> d = d'.
Proof.
  induction order_map as [|[t x] r IH]; simpl; [tauto|].
  intros ND. inversion ND as [|? ? Hn ND']; subst.
  assert (K : forall y, In (t, y) r -> False).
  { intros y Hy. apply Hn. change t with (fst (t, y)). apply in_map. exact Hy. }
  intros [E1|H1] [E2|H2].
  - congruence.
  - inversion E1; subst. destruct (K _ H2).
  - inversion E2; subst. destruct (K _ H1).
  - auto.
Qed.

Lemma distinct_keys_dict (order_map : OrderMap) :
  distinct_keys (DDict order_map) ->
  NoDup (keys order_map)
  /\ forall name d, In (name, d) order_map -> distinct_keys d.
Proof.
  simpl. intros [ND H]. split; [exact ND|]. clear ND.
  induction order_map as [|[t x] r IH]; simpl; [tauto|].
  destruct H as [Hx Hr]. intros name d [E|Hin].
  - inversion E; subst. exact Hx.
  - eapply IH; eauto.
Qed.

Section AbsentEmpty.

Variable normalize_serie_nfts : option string -> string.

Local Abbreviation build_item := (build_item normalize_serie_nfts).
Local Abbreviation build_fragment := (build_fragment normalize_serie_nfts).
Local Abbreviation normalize := (normalize normalize_serie_nfts).

(** Two nodes that differ at one name only give the same fragment as
    soon as the item of that name gives the same elements. *)
Lemma build_fragment_one_name (n n' : Element) (name : string) (d0 : Def)
  (order_map : OrderMap) :
  NoDup (keys order_map) ->
  (forall t, t <> name -> find_child n t = find_child n' t) ->
  (In (name, d0) order_map -> build_item n name d0 = build_item n' name d0) ->
  (forall d, In (name, d) order_map -> In (name, d0) order_map) ->
  build_fragment n order_map = build_fragment n' order_map.
Proof.
  intros ND Hother Hitem Hd0.
  assert (H : forall om, (forall t d, In (t, d) om -> In (t, d) order_map) ->
                         build_fragment n om = build_fragment n' om).
  { induction om as [|[t d] r IH]; intros Hsub; [reflexivity|].
    simpl. rewrite IH by (intros; apply Hsub; right; assumption).
    f_equal. destruct (String.eqb t name) eqn:E.
    - apply String.eqb_eq in E. subst t.
      assert (Hin : In (name, d) order_map) by (apply Hsub; left; reflexivity).
      rewrite (in_keys_unique _ _ _ _ ND Hin (Hd0 _ Hin)).
      apply Hitem. eauto.
    - apply String.eqb_neq in E. specialize (Hother t E).
      destruct d as [kind|items].
      + rewrite !build_item_str, Hother. reflexivity.
      + rewrite !build_item_dict, Hother. reflexivity. }
  apply H. auto.
Qed.

Lemma has_local_other (name t : string) (c : Element) :
  local_name c = name -> t <> name -> has_local t c = false.
Proof.
  intros <- Hne. unfold has_local. apply String.eqb_neq. congruence.
Qed.

Lemma has_local_same (name : string) (c : Element) :
  local_name c = name -> has_local name c = true.
Proof. intros <-. apply String.eqb_refl. Qed.

Lemma build_fragment_adds_empty (path : list string) (u u' : Element) :
  adds_empty path u u' ->
  forall order_map kind,
    distinct_keys (DDict order_map) ->
    kind_at order_map path = Some kind ->
    normalize kind "" = "" ->
    build_fragment u order_map = build_fragment u' order_map.
Proof.
  induction 1 as [name t a x tl pre post c Hnone Hc Htext
                 |name path t a x tl pre post g g' Hpre Hg Hg' Hadd IH];
    intros order_map kind Hdk Hkind Hnorm;
    destruct (distinct_keys_dict _ Hdk) as [ND Hsub].
  - simpl in Hkind.
    destruct (lookup name order_map) as [[k|items]|] eqn:El; try discriminate.
    injection Hkind as ->. apply lookup_in in El.
    apply (build_fragment_one_name _ _ name (DStr kind)); auto.
    + intros t' Hne. unfold find_child. simpl. rewrite !find_app. simpl.
      rewrite (has_local_other name t' c) by assumption. reflexivity.
    + intros _. rewrite !build_item_str. unfold find_child. simpl children_of.
      rewrite Hnone. rewrite find_app in Hnone |- *.
      destruct (find (has_local name) pre); [discriminate|].
      simpl. rewrite (has_local_same name c) by assumption.
      cbv zeta. rewrite Htext, Hnorm. reflexivity.
  - simpl in Hkind.
    destruct (lookup name order_map) as [[k|items]|] eqn:El; try discriminate;
      destruct path as [|p path]; try discriminate; [inversion Hadd|].
    apply lookup_in in El.
    apply (build_fragment_one_name _ _ name (DDict items)); auto.
    + intros t' Hne. unfold find_child. simpl. rewrite !find_app. simpl.
      rewrite (has_local_other name t' g), (has_local_other name t' g')
        by assumption. reflexivity.
    + intros _. rewrite !build_item_dict. unfold find_child. simpl children_of.
      rewrite !find_app, Hpre. simpl.
      rewrite (has_local_same name g), (has_local_same name g') by assumption.
      rewrite (IH items kind); auto. eapply Hsub; eauto.
Qed.

Lemma build_item_find (n n' : Element) (t : string) (d : Def) :
  find_child n t = find_child n' t -> build_item n t d = build_item n' t d.
Proof.
  intros E. destruct d as [kind|items].
  - rewrite !build_item_str, E. reflexivity.
  - rewrite !build_item_dict, E. reflexivity.
Qed.

(** Removing the signature child changes nothing for a map without the
    key [Assinatura]. *)
Lemma build_fragment_clean_tp (u : Element) (order_map : OrderMap) :
  ~ In "Assinatura" (keys order_map) ->
  build_fragment (clean_tp u) order_map = build_fragment u order_map.
Proof.
  induction order_map as [|[t d] r IH]; simpl; [reflexivity|].
  intros Hk. rewrite IH by tauto. f_equal.
  apply build_item_find, find_child_clean_tp. intros ->. tauto.
Qed.

End AbsentEmpty.

(** C7. For an optional field of the schema map (kind [str_opt]), the
    unit in which the field is absent and the unit in which it is present
    without text, all else equal, have the same canonical bytes. *)
Theorem absent_equals_empty
  (normalize_serie_nfts : option string -> string) (order_map : OrderMap)
  (path : list string) (u u' : Element)
  (Hkeys : ~ In "Assinatura" (keys order_map))
  (Hdistinct : distinct_keys (DDict order_map))
  (Hoptional : kind_at order_map path = Some "str_opt")
  (Hadds : adds_empty path u u') :
  build_tpNFTS_bytes normalize_serie_nfts order_map u
  = build_tpNFTS_bytes normalize_serie_nfts order_map u'.
Proof.
  unfold build_tpNFTS_bytes, canonical_root.
  rewrite !build_fragment_clean_tp by exact Hkeys.
  rewrite (build_fragment_adds_empty _ path u u' Hadds order_map "str_opt");
    auto.
Qed.

Lemma debug_no_assinatura_key : ~ In "Assinatura" (keys Debug.canonical_order_map).
Proof. unfold keys; simpl. intuition discriminate. Qed.

Lemma novos_no_assinatura_key : ~ In "Assinatura" (keys Novos.canonical_order_map).
Proof. unfold keys; simpl. intuition discriminate. Qed.

Lemma debug_distinct_keys : distinct_keys (DDict Debug.canonical_order_map).
Proof.
  simpl. repeat split;
    repeat (constructor; [simpl; intuition discriminate|]); constructor.
Qed.

(** The e-mail of the provider, absent and then present and empty. *)
Definition unit_without_email : Element :=
  new_element "NFTS" None
    [ new_element "TipoDocumento" (Some "01") [];
      new_element "Prestador" None
        [ new_element "RazaoSocialPrestador" (Some "ACME") [] ] ].

Definition unit_with_empty_email : Element :=
  new_element "NFTS" None
    [ new_element "TipoDocumento" (Some "01") [];
      new_element "Prestador" None
        [ new_element "Email" None [];
          new_element "RazaoSocialPrestador" (Some "ACME") [] ] ].

Lemma absent_equals_empty_witness :
  Debug.build_tpNFTS_bytes unit_without_email
  = Debug.build_tpNFTS_bytes unit_with_empty_email.
Proof.
  apply (absent_equals_empty Debug.normalize_serie_nfts
           Debug.canonical_order_map ["Prestador"; "Email"]).
  - exact debug_no_assinatura_key.
  - exact debug_distinct_keys.
  - reflexivity.
  - apply (adds_below "Prestador" ["Email"] _ _ _ _
             [new_element "TipoDocumento" (Some "01") []] []);
      try reflexivity.
    apply (adds_here "Email" _ _ _ _ []
             [new_element "RazaoSocialPrestador" (Some "ACME") []]);
      reflexivity.
Defined.

(** Two units in a different order, one with a namespace, attributes, a
    signature and a field outside the map. *)
Definition unit_plain : Element :=
  new_element "NFTS" None
    [ new_element "TipoDocumento" (Some "01") [];
      new_element "ChaveDocumento" None
        [ new_element "NumeroDocumento" (Some "0042") [] ];
      new_element "ValorServicos" (Some "3,5") [] ].

Definition unit_shuffled : Element :=
  Elem (mkQName (Some "http://www.prefeitura.sp.gov.br/nfts") "NFTS")
    [("id", "1")] None None
    [ new_element "Assinatura" (Some "AAAA") [];
      new_element "ValorServicos" (Some "3,5") [];
      new_element "CodigoCEI" (Some "7") [];
      Elem (mkQName (Some "urn:x") "ChaveDocumento") [] (Some "x") None
        [ new_element "NumeroDocumento" (Some "0042") [] ];
      new_element "TipoDocumento" (Some "01") [];
      new_element "TipoDocumento" (Some "02") [];
      new_element "Tomador" None [] ].

Lemma canonical_bytes_determined_witness :
  Debug.build_tpNFTS_bytes unit_plain = Debug.build_tpNFTS_bytes unit_shuffled.
Proof.
  apply (canonical_bytes_determined Debug.normalize_serie_nfts
           Debug.canonical_order_map unit_plain unit_shuffled).
  - exact debug_no_assinatura_key.
  - intros path Hin. simpl in Hin.
    repeat (destruct Hin as [<-|Hin]; [reflexivity|]). destruct Hin.
Defined.

Definition unit_with_boolean : Element :=
  new_element "NFTS" None
    [ new_element "ISSRetidoTomador" None [];
      new_element "ISSRetidoIntermediario" (Some " SIM ") [] ].

Lemma boolean_field_kept_witness :
  In (new_element "ISSRetidoTomador" (Some "false") [])
     (children_of (Debug.canonical_root unit_with_boolean)).
Proof.
  exact (proj1 (proj2 (proj2 (proj2
           (boolean_field_kept unit_with_boolean
              (new_element "ISSRetidoTomador" None []) "ISSRetidoTomador"
              (or_introl eq_refl) eq_refl))))).
Defined.

(** ** The reassembled unit *)

Module ReassembleFacts.

Import Reassemble.

Lemma qname_eqb_eq (a b : QName) : qname_eqb a b = true <-> a = b.
Proof.
  destruct a as [[na|] la], b as [[nb|] lb]; unfold qname_eqb; simpl;
    rewrite ?andb_true_iff, ?String.eqb_eq; split;
    try discriminate; try (intros [-> ->]; reflexivity);
    try (intros ->; reflexivity); try (intros [= -> ->]; auto);
    try (intros [= ->]; auto).
Qed.

Lemma qname_eqb_refl (a : QName) : qname_eqb a a = true.
Proof. apply qname_eqb_eq. reflexivity. Qed.

Lemma qname_eqb_neq (a b : QName) : qname_eqb a b = false <-> a <> b.
Proof.
  rewrite <- qname_eqb_eq. destruct (qname_eqb a b); split;
    congruence.
Qed.

Lemma dict_get_set_same (k : QName) (v : Element) (d : Dict) :
  dict_get k (dict_set k v d) = Some v.
Proof.
  induction d as [|[k' v'] r IH]; simpl.
  - rewrite qname_eqb_refl. reflexivity.
  - destruct (qname_eqb k' k) eqn:E; simpl.
    + rewrite qname_eqb_refl. reflexivity.
    + rewrite E. exact IH.
Qed.

Lemma dict_get_set_other (k k' : QName) (v : Element) (d : Dict) :
  k <> k' -> dict_get k' (dict_set k v d) = dict_get k' d.
Proof.
  intros Hne. induction d as [|[k0 v0] r IH]; simpl.
  - apply qname_eqb_neq in Hne. rewrite Hne. reflexivity.
  - destruct (qname_eqb k0 k) eqn:E; simpl.
    + apply qname_eqb_eq in E. subst k0.
      apply qname_eqb_neq in Hne. rewrite Hne. reflexivity.
    + destruct (qname_eqb k0 k'); [reflexivity|exact IH].
Qed.

(** The last child of a tag. *)
Fixpoint last_with (k : QName) (l : list Element) : option Element :=
  match l with
  | [] => None
  | c :: r =>
      match last_with k r with
      | Some x => Some x
      | None => if qname_eqb (tag_of c) k then Some c else None
      end
  end.

Lemma dict_get_fold (k : QName) (l : list Element) (d : Dict) :
  dict_get k (fold_left (fun d el => dict_set (tag_of el) el d) l d)
  = match last_with k l with
    | Some x => Some x
    | None => dict_get k d
    end.
Proof.
  revert d. induction l as [|c r IH]; intros d; simpl; [reflexivity|].
  rewrite IH. destruct (last_with k r); [reflexivity|].
  destruct (qname_eqb (tag_of c) k) eqn:E.
  - apply qname_eqb_eq in E. subst k. apply dict_get_set_same.
  - apply qname_eqb_neq in E. apply dict_get_set_other. exact E.
Qed.

Lemma dict_get_elements (k : QName) (l : list Element) :
  dict_get k (elements_dict_of l) = last_with k l.
Proof.
  unfold elements_dict_of. rewrite dict_get_fold.
  destruct (last_with k l); reflexivity.
Qed.

Lemma last_with_spec (k : QName) (l : list Element) (x : Element) :
  last_with k l = Some x -> In x l /\ tag_of x = k.
Proof.
  induction l as [|c r IH]; simpl; [discriminate|].
  destruct (last_with k r) as [y|].
  - intros [= ->]. destruct (IH eq_refl). auto.
  - destruct (qname_eqb (tag_of c) k) eqn:E; [|discriminate].
    intros [= ->]. apply qname_eqb_eq in E. auto.
Qed.

Lemma last_with_none (k : QName) (l : list Element) :
  last_with k l = None <-> forall c, In c l -> tag_of c <> k.
Proof.
  induction l as [|c r IH]; simpl; [tauto|].
  destruct (last_with k r) as [y|].
  - split; [discriminate|]. intros H.
    assert (Hy : forall c0, In c0 r -> tag_of c0 <> k) by auto.
    apply IH in Hy. discriminate.
  - destruct (qname_eqb (tag_of c) k) eqn:E.
    + apply qname_eqb_eq in E. split; [discriminate|].
      intros H. destruct (H c); auto.
    + apply qname_eqb_neq in E. split; [|reflexivity].
      intros _ c0 [<-|H]; [exact E|]. apply (proj1 IH); auto.
Qed.

(** What the loop over [NFTS_ELEMENT_ORDER] picks for a name. *)
Definition pick (cs : list Element) (assin_text : string) (tag : string)
  : option Element :=
  if String.eqb tag "Assinatura"
  then Some (new_element "Assinatura" (Some assin_text) [])
  else last_with (plain tag) cs.

Definition option_list {A} (o : option A) : list A :=
  match o with Some x => [x] | None => [] end.

Lemma plain_inj (a b : string) : plain a = plain b -> a = b.
Proof. intros [= ->]. reflexivity. Qed.

Lemma dict_get_pick (cs : list Element) (assin_text tag : string) :
  dict_get (plain tag)
    (dict_set (plain "Assinatura")
       (new_element "Assinatura" (Some assin_text) []) (elements_dict_of cs))
  = pick cs assin_text tag.
Proof.
  unfold pick. destruct (String.eqb tag "Assinatura") eqn:E.
  - apply String.eqb_eq in E. subst tag. apply dict_get_set_same.
  - apply String.eqb_neq in E. rewrite dict_get_set_other.
    + apply dict_get_elements.
    + intros H. apply plain_inj in H. congruence.
Qed.

Lemma append_in_order_pick (cs : list Element) (assin_text : string)
  (order : list string) :
  append_in_order order
    (dict_set (plain "Assinatura")
       (new_element "Assinatura" (Some assin_text) []) (elements_dict_of cs))
  = flat_map (fun tag => option_list (pick cs assin_text tag)) order.
Proof.
  induction order as [|t r IH]; [reflexivity|].
  cbn [append_in_order flat_map]. rewrite IH, dict_get_pick.
  destruct (pick cs assin_text t); reflexivity.
Qed.

Lemma pick_tag (cs : list Element) (assin_text tag : string) (x : Element) :
  pick cs assin_text tag = Some x -> tag_of x = plain tag.
Proof.
  unfold pick. destruct (String.eqb tag "Assinatura") eqn:E.
  - apply String.eqb_eq in E. subst tag. intros [= <-]. reflexivity.
  - intros H. apply last_with_spec in H. tauto.
Qed.

(** The names the reassembled unit keeps: the signature, and the listed
    names the unit has as a child without namespace. *)
Definition kept (cs : list Element) (tag : string) : bool :=
  String.eqb tag "Assinatura"
  || existsb (fun c => qname_eqb (tag_of c) (plain tag)) cs.

Lemma pick_kept (cs : list Element) (assin_text tag : string) :
  kept cs tag = match pick cs assin_text tag with Some _ => true | None => false end.
Proof.
  unfold kept, pick. destruct (String.eqb tag "Assinatura"); [reflexivity|].
  simpl. destruct (last_with (plain tag) cs) as [x|] eqn:E.
  - apply last_with_spec in E. apply existsb_exists. exists x.
    split; [tauto|]. apply qname_eqb_eq. tauto.
  - destruct (existsb _ cs) eqn:E'; [|reflexivity].
    apply existsb_exists in E'. destruct E' as (c & Hin & Hc).
    apply qname_eqb_eq in Hc. exfalso.
    exact (proj1 (last_with_none _ _) E c Hin Hc).
Qed.

Lemma tags_in_order (cs : list Element) (assin_text : string)
  (order : list string) :
  map tag_of (flat_map (fun tag => option_list (pick cs assin_text tag)) order)
  = map plain (filter (kept cs) order).
Proof.
  induction order as [|t r IH]; simpl; [reflexivity|].
  rewrite map_app, IH, (pick_kept cs assin_text t).
  destruct (pick cs assin_text t) as [x|] eqn:E; simpl; [|reflexivity].
  rewrite (pick_tag _ _ _ _ E). reflexivity.
Qed.

Lemma order_distinct : NoDup NFTS_ELEMENT_ORDER.
Proof.
  unfold NFTS_ELEMENT_ORDER.
  repeat (constructor; [simpl; intuition discriminate|]). constructor.
Qed.



End ReassembleFacts.


(** C3 fails on both scripts.  A unit with the fields [Tomador],
    [CodigoCEI] and [TipoDocumento], in this order: the script with the
    new fields drops [CodigoCEI], which [NFTS_ELEMENT_ORDER] does not
    list, and the debug script leaves the three where they are. *)
Definition unit_out_of_order : Element :=
  new_element "NFTS" None
    [ new_element "Tomador" None [];
      new_element "CodigoCEI" (Some "7") [];
      new_element "TipoDocumento" (Some "01") [] ].


(** ** Base64 *)

Module Base64Facts.

Import Base64.

Lemma sextet_char (s : sextet) : sextet_of_char (char_of_sextet s) = Some s.
Proof.
  destruct s as [[[[[[] []] []] []] []] []]; reflexivity.
Qed.

Lemma char_not_pad (s : sextet) : Ascii.eqb (char_of_sextet s) pad = false.
Proof.
  destruct s as [[[[[[] []] []] []] []] []]; reflexivity.
Qed.

Lemma char_not_space (s : sextet) : is_space (char_of_sextet s) = false.
Proof.
  destruct s as [[[[[[] []] []] []] []] []]; reflexivity.
Qed.

(** Induction on strings, three characters at a time. *)
Lemma string_ind3 (P : string -> Prop) :
  P EmptyString ->
  (forall a, P (String a EmptyString)) ->
  (forall a b, P (String a (String b EmptyString))) ->
  (forall a b c r, P r -> P (String a (String b (String c r)))) ->
  forall s, P s.
Proof.
  intros H0 H1 H2 H3.
  fix rec 1. intros [|a [|b [|c r]]];
    [apply H0|apply H1|apply H2|apply H3; apply rec].
Qed.

Lemma decode_encode (data : string) : b64decode (b64encode data) = Some data.
Proof.
  induction data as [|a|a b|a b c r IH] using string_ind3.
  - reflexivity.
  - destruct a as [a0 a1 a2 a3 a4 a5 a6 a7].
    cbn [b64encode enc1 b64decode].
    rewrite !sextet_char. reflexivity.
  - destruct a as [a0 a1 a2 a3 a4 a5 a6 a7], b as [b0 b1 b2 b3 b4 b5 b6 b7].
    cbn [b64encode enc2 b64decode].
    rewrite !sextet_char, char_not_pad. reflexivity.
  - destruct a as [a0 a1 a2 a3 a4 a5 a6 a7], b as [b0 b1 b2 b3 b4 b5 b6 b7],
      c as [c0 c1 c2 c3 c4 c5 c6 c7].
    cbn [b64encode enc3 append]. cbn [b64decode].
    rewrite !sextet_char, !char_not_pad, IH. reflexivity.
Qed.

Lemma encode_no_space (data : string) :
  remove_spaces (b64encode data) = b64encode data.
Proof.
  induction data as [|a|a b|a b c r IH] using string_ind3.
  - reflexivity.
  - destruct a as [a0 a1 a2 a3 a4 a5 a6 a7].
    cbn [b64encode enc1 remove_spaces]. rewrite !char_not_space. reflexivity.
  - destruct a as [a0 a1 a2 a3 a4 a5 a6 a7], b as [b0 b1 b2 b3 b4 b5 b6 b7].
    cbn [b64encode enc2 remove_spaces]. rewrite !char_not_space. reflexivity.
  - destruct a as [a0 a1 a2 a3 a4 a5 a6 a7], b as [b0 b1 b2 b3 b4 b5 b6 b7],
      c as [c0 c1 c2 c3 c4 c5 c6 c7].
    cbn [b64encode enc3 append remove_spaces].
    rewrite !char_not_space, IH. reflexivity.
Qed.

Lemma remove_spaces_idempotent (s : string) :
  remove_spaces (remove_spaces s) = remove_spaces s.
Proof.
  induction s as [|c r IH]; simpl; [reflexivity|].
  destruct (is_space c) eqn:E; [exact IH|]. simpl. rewrite E, IH. reflexivity.
Qed.

End Base64Facts.

(** ** Signing, then verifying *)

Lemma remove_first_none (name : string) (l : list Element) :
  find (has_local name) l = None -> remove_first name l = l.
Proof.
  induction l as [|c r IH]; simpl; [reflexivity|].
  destruct (has_local name c); [discriminate|]. intros H. rewrite IH; auto.
Qed.

Lemma remove_first_app_new (name : string) (l : list Element) (e : Element) :
  find (has_local name) l = None -> has_local name e = true ->
  remove_first name (l ++ [e]) = l.
Proof.
  intros Hl He. induction l as [|c r IH]; simpl in *.
  - rewrite He. reflexivity.
  - destruct (has_local name c); [discriminate|]. rewrite IH; auto.
Qed.

Lemma has_local_elem (name : string) t a x tl cs :
  has_local name (Elem t a x tl cs) = String.eqb (local t) name.
Proof. reflexivity. Qed.

Lemma remove_first_set_text (name text : string) (l : list Element) :
  remove_first name (set_first_text name text l) = remove_first name l.
Proof.
  induction l as [|[t a x tl cs] r IH]; [reflexivity|].
  cbn [set_first_text remove_first]. rewrite has_local_elem.
  destruct (String.eqb (local t) name) eqn:E; cbn [remove_first];
    rewrite has_local_elem, E; [reflexivity|].
  rewrite IH. reflexivity.
Qed.

(** The signature child does not reach the canonical form: the builder
    works on the unit without it. *)
Lemma clean_tp_insert (nfts : Element) (assin_text : string) :
  clean_tp (insert_assinatura nfts assin_text) = clean_tp nfts.
Proof.
  destruct nfts as [t a x tl cs]. unfold insert_assinatura.
  destruct (find_child _ _) eqn:E; unfold find_child in E; simpl in *; f_equal.
  - apply remove_first_set_text.
  - rewrite remove_first_app_new, remove_first_none; auto.
Qed.

Lemma first_assinatura_after_insert (nfts : Element) (assin_text : string) :
  exists e rest,
    filter (has_local "Assinatura")
      (children_of (insert_assinatura nfts assin_text)) = e :: rest
    /\ text_of e = Some assin_text.
Proof.
  destruct nfts as [t a x tl cs]. unfold insert_assinatura.
  destruct (find_child _ _) eqn:E; unfold find_child in E;
    cbn [children_of] in *; clear t a x tl.
  - induction cs as [|[t a x tl cs'] r IH]; [discriminate|].
    cbn [find set_first_text filter] in *. rewrite has_local_elem in *.
    destruct (String.eqb (local t) "Assinatura") eqn:Ec.
    + cbn [filter]. rewrite has_local_elem, Ec. eauto.
    + cbn [filter]. rewrite has_local_elem, Ec. auto.
  - induction cs as [|c r IH]; [simpl; eauto|].
    cbn [find app filter] in *.
    destruct (has_local "Assinatura" c) eqn:Ec; [discriminate|].
    simpl. rewrite Ec. auto.
Qed.

(** C2. With a compatible key pair, signing a unit as [sign_file] of the
    debug script does and then verifying the signed unit as
    [verify_signed_nfts] does ends in [Valid]: the signature is made over
    the canonical bytes of the unit, written as Base64 into the signature
    field, read back, and checked against the canonical bytes built again
    from the signed unit. *)
Theorem sign_then_verify
  (PrivateKey PublicKey : Type)
  (rsa_sign : PrivateKey -> string -> result string)
  (rsa_verify : PublicKey -> string -> string -> bool)
  (sha1 : string -> string)
  (private_key : PrivateKey) (pubkey : PublicKey) (nfts : Element)
  (Hkeys : compatible PrivateKey PublicKey rsa_sign rsa_verify
             private_key pubkey) :
  exists signed,
    sign_unit PrivateKey rsa_sign Debug.build_tpNFTS_bytes private_key nfts
    = Ok signed
    /\ Debug.build_tpNFTS_bytes signed = Debug.build_tpNFTS_bytes nfts
    /\ verify_unit PublicKey rsa_verify sha1 Debug.build_tpNFTS_bytes
         pubkey signed
       = Ok Valid.
Proof.
  destruct (Hkeys (Debug.build_tpNFTS_bytes nfts)) as (sig & Hs & Hv).
  exists (insert_assinatura nfts (remove_spaces (Base64.b64encode sig))).
  assert (Hb : Debug.build_tpNFTS_bytes
                 (insert_assinatura nfts (remove_spaces (Base64.b64encode sig)))
               = Debug.build_tpNFTS_bytes nfts).
  { unfold Debug.build_tpNFTS_bytes, build_tpNFTS_bytes, canonical_root.
    rewrite clean_tp_insert. reflexivity. }
  split; [|split; [exact Hb|]].
  - unfold sign_unit, sign_bytes_sha1_pkcs1. rewrite Hs. reflexivity.
  - unfold verify_unit.
    destruct (first_assinatura_after_insert nfts
                (remove_spaces (Base64.b64encode sig)))
      as (e & rest & -> & ->).
    rewrite Hb, Base64Facts.remove_spaces_idempotent,
      Base64Facts.encode_no_space, Base64Facts.decode_encode, Hv.
    reflexivity.
Qed.

Lemma toy_round_trip_all : forallb ToyRSA.round_trip ToyRSA.residues = true.
Proof. vm_compute. reflexivity. Qed.

Lemma toy_checksum_bound (data : string) :
  (ToyRSA.checksum data < ToyRSA.modulus)%N.
Proof.
  destruct data; cbn [ToyRSA.checksum]; [reflexivity|].
  apply N.mod_lt. discriminate.
Qed.

Lemma residues_in (m : N) : (m < 3233)%N -> In m ToyRSA.residues.
Proof.
  intros H. unfold ToyRSA.residues. apply in_map_iff.
  exists (N.to_nat m). split; [apply Nnat.N2Nat.id|].
  apply in_seq. split; [apply Nat.le_0_l|].
  change (0 + 3233)%nat with (N.to_nat 3233).
  apply Nat.compare_lt_iff. rewrite <- Nnat.N2Nat.inj_compare. exact H.
Qed.

Opaque ToyRSA.pow_mod.

Lemma toy_keys_compatible :
  compatible N N ToyRSA.sign ToyRSA.verify
    ToyRSA.private_exponent ToyRSA.public_exponent.
Proof.
  intros data.
  pose proof (residues_in _ (toy_checksum_bound data)) as Hin.
  pose proof (proj1 (forallb_forall _ _) toy_round_trip_all _ Hin) as H.
  exact (ex_intro _ _ (conj eq_refl H)).
Qed.

Lemma sign_then_verify_witness :
  exists signed,
    sign_unit N ToyRSA.sign Debug.build_tpNFTS_bytes
      ToyRSA.private_exponent unit_shuffled = Ok signed
    /\ Debug.build_tpNFTS_bytes signed = Debug.build_tpNFTS_bytes unit_shuffled
    /\ verify_unit N ToyRSA.verify ToyRSA.digest Debug.build_tpNFTS_bytes
         ToyRSA.public_exponent signed = Ok Valid.
Proof.
  exact (sign_then_verify N N ToyRSA.sign ToyRSA.verify ToyRSA.digest
           ToyRSA.private_exponent ToyRSA.public_exponent unit_shuffled
           toy_keys_compatible).
Defined.

(** ** Decimal values *)

Lemma all_chars_lstrip (p : ascii -> bool) (s : string) :
  all_chars p s = true -> all_chars p (lstrip s) = true.
Proof.
  induction s as [|c r IH]; simpl; [auto|].
  intros H. destruct (is_space c); [|exact H].
  apply andb_true_iff in H. tauto.
Qed.

Lemma all_chars_rstrip (p : ascii -> bool) (s : string) :
  all_chars p s = true -> all_chars p (rstrip s) = true.
Proof.
  induction s as [|c r IH]; simpl; [auto|].
  intros H. apply andb_true_iff in H. destruct H as [Hc Hr].
  specialize (IH Hr). destruct (rstrip r).
  - destruct (is_space c); simpl; [reflexivity|]. rewrite Hc. reflexivity.
  - simpl in *. rewrite Hc. exact IH.
Qed.

Lemma all_chars_strip (p : ascii -> bool) (s : string) :
  all_chars p s = true -> all_chars p (strip s) = true.
Proof. intros H. apply all_chars_rstrip, all_chars_lstrip, H. Qed.

Definition not_comma (c : ascii) : bool := negb (Ascii.eqb c comma).

Lemma replace_comma (s : string) :
  all_chars not_comma (replace comma period s) = true.
Proof.
  induction s as [|c r IH]; simpl; [reflexivity|]. rewrite IH, andb_true_r.
  destruct (Ascii.eqb c comma) eqn:E; [reflexivity|].
  unfold not_comma. rewrite E. reflexivity.
Qed.

Lemma uint_of_char_digit (a : ascii) (d : option uint) (u : uint) :
  uint_of_char a d = Some u -> is_ascii_digit a = true.
Proof.
  intros H. destruct d as [d|]; [|discriminate].
  destruct a as [[] [] [] [] [] [] [] []]; try reflexivity; discriminate.
Qed.

Lemma uint_of_string_digits (s : string) (u : uint) :
  NilEmpty.uint_of_string s = Some u -> all_chars is_ascii_digit s = true.
Proof.
  revert u. induction s as [|c r IH]; simpl; [reflexivity|].
  intros u H. rewrite (uint_of_char_digit _ _ _ H). simpl.
  destruct (NilEmpty.uint_of_string r) as [v|] eqn:E; [eauto|].
  discriminate.
Qed.

(** [str(n)] is a non-empty string of decimal digits. *)
Lemma str_digits (n : N) :
  all_chars is_ascii_digit (PyInt.str n) = true /\ PyInt.str n <> "".
Proof.
  unfold PyInt.str.
  assert (H : NilZero.uint_of_string (NilZero.string_of_uint (N.to_uint n))
              = Some (N.to_uint n)).
  { apply NilZero.usu. intros E.
    pose proof (DecimalN.Unsigned.to_of (N.to_uint n)) as H.
    rewrite DecimalN.Unsigned.of_to in H.
    rewrite E in H. discriminate. }
  unfold NilZero.uint_of_string in H.
  destruct (NilZero.string_of_uint (N.to_uint n)) as [|c r] eqn:E;
    [discriminate|].
  split; [|discriminate].
  eapply uint_of_string_digits. exact H.
Qed.

Lemma digit_char_digit (d : Z) :
  (0 <= d <= 9)%Z -> is_ascii_digit (PyFloat.digit_char d) = true.
Proof.
  intros H.
  assert (E : (d = 0 \/ d = 1 \/ d = 2 \/ d = 3 \/ d = 4 \/ d = 5 \/ d = 6
               \/ d = 7 \/ d = 8 \/ d = 9)%Z) by lia.
  repeat (destruct E as [->|E]; [reflexivity|]). subst. reflexivity.
Qed.

(** Two digits after the point, for every finite value. *)
Lemma format_2f_finite (neg : bool) (m e : Z) :
  exists ip d1 d2,
    PyFloat.format_2f (PyFloat.Finite neg m e)
    = PyFloat.sign_str neg ++ ip ++ "." ++ String d1 (String d2 EmptyString)
    /\ all_chars is_ascii_digit ip = true /\ ip <> ""
    /\ is_ascii_digit d1 = true /\ is_ascii_digit d2 = true.
Proof.
  unfold PyFloat.format_2f. set (n := PyFloat.hundredths m e).
  exists (PyFloat.str_of_Z (n / 100)), (PyFloat.digit_char (n mod 100 / 10)),
    (PyFloat.digit_char (n mod 10)).
  split; [reflexivity|].
  destruct (str_digits (Z.to_N (n / 100))) as [Hd Hn].
  repeat split; auto.
  - apply digit_char_digit.
    pose proof (Z.mod_pos_bound n 100 eq_refl).
    split; [apply Z.div_pos; lia|].
    assert (n mod 100 / 10 < 10)%Z by (apply Z.div_lt_upper_bound; lia). lia.
  - apply digit_char_digit. pose proof (Z.mod_pos_bound n 10 eq_refl). lia.
Qed.

(** C5, as the code has it.  The currency normalizer replaces every comma
    by a period before it parses.  A text that [float] reads as a finite
    number is rendered with exactly two digits after the point (" 3,5 "
    gives "3.50"); one that it reads as an infinity or as a NaN is
    rendered as "inf", "-inf" or "nan"; one that it rejects is returned
    cleaned, as "1.234,5" is, which becomes "1.234.5". *)
Theorem currency_decimal (text : string) :
  let clean_text := strip (replace comma period (replace nbsp space text)) in
  let out := normalize_float_value (Some text) true in
  all_chars not_comma clean_text = true
  /\ (forall neg m e,
         PyFloat.float_of_string clean_text = Ok (PyFloat.Finite neg m e) ->
         exists ip d1 d2,
           out = PyFloat.sign_str neg ++ ip ++ "."
                   ++ String d1 (String d2 EmptyString)
           /\ all_chars is_ascii_digit ip = true /\ ip <> ""
           /\ is_ascii_digit d1 = true /\ is_ascii_digit d2 = true)
  /\ (forall neg,
         PyFloat.float_of_string clean_text = Ok (PyFloat.Inf neg) ->
         out = PyFloat.sign_str neg ++ "inf")
  /\ (PyFloat.float_of_string clean_text = Ok PyFloat.NaN -> out = "nan")
  /\ (forall e, PyFloat.float_of_string clean_text = Raise e ->
                out = clean_text)
  /\ normalize_float_value (Some " 3,5 ") true = "3.50"
  /\ strip (replace comma period (replace nbsp space "1.234,5")) = "1.234.5"
  /\ PyFloat.float_of_string "1.234.5" = Raise ValueError
  /\ normalize_float_value (Some "1.234,5") true = "1.234.5".
Proof.
  cbv zeta. unfold normalize_float_value.
  split; [apply all_chars_strip, replace_comma|].
  split; [intros neg m e ->; apply format_2f_finite|].
  split; [intros neg ->; reflexivity|].
  split; [intros ->; reflexivity|].
  split; [intros e ->; reflexivity|].
  repeat (match goal with |- _ /\ _ => split end); vm_compute; reflexivity.
Qed.

(** C5 fails on texts that [float] reads as an infinity or a NaN: they
    parse, and are rendered without any fractional digit. *)
Lemma currency_decimal_not_finite :
  PyFloat.float_of_string "1e999" = Ok (PyFloat.Inf false)
  /\ normalize_float_value (Some "1e999") true = "inf"
  /\ normalize_float_value (Some "-Infinity") true = "-inf"
  /\ normalize_float_value (Some " NaN ") true = "nan".
Proof. repeat (match goal with |- _ /\ _ => split end); vm_compute; reflexivity. Qed.

(** ** Canonicalizing a canonical tree *)

Section Reparse.

Variable normalize_serie_nfts : option string -> string.

Local Abbreviation build_item := (build_item normalize_serie_nfts).
Local Abbreviation build_fragment := (build_fragment normalize_serie_nfts).
Local Abbreviation normalize := (normalize normalize_serie_nfts).

(** A text on which a normalizer, applied to its own result, changes
    nothing more. *)
Definition settled (kind text : string) : Prop :=
  normalize kind (normalize kind text) = normalize kind text.

(** Every field of the map that the node has is settled. *)
Definition all_settled (node : Element) (order_map : OrderMap) : Prop :=
  forall path kind text,
    kind_at order_map path = Some kind ->
    field_text node path = Some text ->
    settled kind text.

Lemma build_item_shape (node : Element) (t : string) (d : Def) :
  build_item node t d = []
  \/ exists e, build_item node t d = [e] /\ local_name e = t.
Proof.
  destruct d as [kind|items].
  - rewrite build_item_str. destruct (find_child node t); [|auto].
    cbv zeta. destruct (String.eqb _ ""); [auto|]. right. eauto.
  - rewrite build_item_dict. destruct (find_child node t); [|auto].
    destruct (build_fragment _ _); [auto|]. right. eauto.
Qed.

Lemma find_absent (name : string) (l : list Element) :
  ~ has_name name l -> find (has_local name) l = None.
Proof.
  induction l as [|c r IH]; [reflexivity|]. intros H. cbn [find].
  destruct (has_local name c) eqn:E.
  - exfalso. apply H. exists c. split; [left; reflexivity|].
    apply String.eqb_eq. exact E.
  - apply IH. intros (e & He & Hn). apply H. exists e. split; [right|]; auto.
Qed.

Lemma lookup_of_in (order_map : OrderMap) (t : string) (d : Def) :
  NoDup (keys order_map) -> In (t, d) order_map -> lookup t order_map = Some d.
Proof.
  induction order_map as [|[t' d'] r IH]; simpl; [tauto|].
  intros ND. inversion ND as [|? ? Hn ND']; subst. intros [E|Hin].
  - inversion E; subst. rewrite String.eqb_refl. reflexivity.
  - destruct (String.eqb t' t) eqn:E; [|auto].
    apply String.eqb_eq in E. subst t'. exfalso. apply Hn.
    change t with (fst (t, d)). apply in_map. exact Hin.
Qed.

(** In a fragment the first element of a name is the one its item made. *)
Lemma find_in_fragment (node : Element) (order_map : OrderMap)
  (t : string) (d : Def) :
  NoDup (keys order_map) -> In (t, d) order_map ->
  find (has_local t) (build_fragment node order_map)
  = List.hd_error (build_item node t d).
Proof.
  induction order_map as [|[t' d'] r IH]; simpl; [tauto|].
  intros ND. inversion ND as [|? ? Hn ND']; subst. intros [E|Hin].
  - inversion E; subst. rewrite find_app.
    destruct (build_item_shape node t d) as [->|(e & -> & He)]; simpl.
    + apply find_absent. intros (e & He & Hname).
      apply build_fragment_name in He. congruence.
    + rewrite (has_local_same t e He). reflexivity.
  - rewrite find_app.
    assert (Hne : t' <> t).
    { intros ->. apply Hn. change t with (fst (t, d)). apply in_map, Hin. }
    destruct (build_item_shape node t' d') as [->|(e & -> & He)]; simpl; auto.
    rewrite (has_local_other t' t e He) by congruence. auto.
Qed.

Definition reparse_ok (items : OrderMap) : Prop :=
  distinct_keys (DDict items) ->
  forall node t a x tl,
    all_settled node items ->
    build_fragment (Elem t a x tl (build_fragment node items)) items
    = build_fragment node items.

Lemma reparse_items (items : OrderMap) :
  (forall t sub, In (t, DDict sub) items -> reparse_ok sub) ->
  reparse_ok items.
Proof.
  intros Hnested Hdk node t0 a x tl Hset.
  destruct (distinct_keys_dict _ Hdk) as [ND Hsub].
  set (N := Elem t0 a x tl (build_fragment node items)).
  assert (H : forall sub, (forall i, In i sub -> In i items) ->
                          build_fragment N sub = build_fragment node sub).
  { induction sub as [|[t d] r IH]; intros Hincl; [reflexivity|].
    simpl. rewrite IH by (intros; apply Hincl; right; assumption).
    f_equal.
    assert (Hin : In (t, d) items) by (apply Hincl; left; reflexivity).
    assert (Hfind : find_child N t = List.hd_error (build_item node t d)).
    { unfold find_child, N. simpl children_of.
      apply find_in_fragment; assumption. }
    pose proof (lookup_of_in _ _ _ ND Hin) as Hl.
    destruct d as [kind|sub'].
    - rewrite (build_item_str _ N), Hfind, build_item_str.
      destruct (find_child node t) as [c|] eqn:Ec; [|reflexivity].
      cbv zeta. destruct (String.eqb _ "") eqn:Ee; [reflexivity|].
      simpl. change (text_or_empty (new_element t (Some ?s) [])) with s.
      assert (Hs : settled kind (text_or_empty c)).
      { apply (Hset [t] kind).
        - simpl. rewrite Hl. reflexivity.
        - simpl. rewrite Ec. reflexivity. }
      unfold settled in Hs. rewrite Hs, Ee. reflexivity.
    - rewrite (build_item_dict _ N), Hfind, build_item_dict.
      destruct (find_child node t) as [c|] eqn:Ec; [|reflexivity].
      destruct (build_fragment c sub') as [|y l] eqn:En; [reflexivity|].
      cbn [hd_error].
      assert (Hre : build_fragment (new_element t None (y :: l)) sub' = y :: l).
      { rewrite <- En. unfold new_element.
        apply (Hnested t sub' Hin).
        - eapply Hsub; eauto.
        - intros path kind text Hk Hf. apply (Hset (t :: path) kind).
          + simpl. rewrite Hl.
            destruct path; [simpl in Hk; discriminate|exact Hk].
          + simpl. rewrite Ec. exact Hf. }
      rewrite Hre. reflexivity. }
  apply H. auto.
Qed.

Lemma reparse_all (order_map : OrderMap) : reparse_ok order_map.
Proof.
  apply reparse_items.
  apply (order_map_ind
           (fun d => match d with
                     | DStr _ => True
                     | DDict items => reparse_ok items
                     end)
           (fun om => forall t sub, In (t, DDict sub) om -> reparse_ok sub)).
  - exact (fun _ => I).
  - intros items H. apply reparse_items. exact H.
  - intros t sub [].
  - intros t d r Hd Hr t' sub [E|Hin].
    + inversion E; subst. exact Hd.
    + eapply Hr; eauto.
Qed.

(** The canonical tree of a canonical tree is the same tree, as soon as
    the fields of the unit are settled. *)
Lemma canonical_root_reparse (order_map : OrderMap) (u : Element) :
  ~ In "Assinatura" (keys order_map) ->
  distinct_keys (DDict order_map) ->
  all_settled (clean_tp u) order_map ->
  canonical_root normalize_serie_nfts order_map
    (canonical_root normalize_serie_nfts order_map u)
  = canonical_root normalize_serie_nfts order_map u.
Proof.
  intros Hk Hd Hs. unfold canonical_root.
  rewrite (build_fragment_clean_tp _ (new_element "tpNFTS" None _))
    by exact Hk.
  unfold new_element. f_equal.
  apply (reparse_all order_map Hd); assumption.
Qed.

End Reparse.

(** ** Normalizers applied to their own results *)

Definition head_not_space (s : string) : Prop :=
  match s with
  | EmptyString => True
  | String c _ => is_space c = false
  end.

Lemma lstrip_head (s : string) : head_not_space (lstrip s).
Proof.
  induction s as [|c r IH]; simpl; [exact I|].
  destruct (is_space c) eqn:E; [exact IH|exact E].
Qed.

Lemma lstrip_fixed (s : string) : head_not_space s -> lstrip s = s.
Proof. destruct s as [|c r]; simpl; [auto|]. intros ->. reflexivity. Qed.

Lemma rstrip_head (s : string) : head_not_space s -> head_not_space (rstrip s).
Proof.
  destruct s as [|c r]; simpl; [auto|]. intros H.
  destruct (rstrip r); [rewrite H|]; exact H.
Qed.

Lemma rstrip_idempotent (s : string) : rstrip (rstrip s) = rstrip s.
Proof.
  induction s as [|c r IH]; simpl; [reflexivity|].
  destruct (rstrip r) as [|c' r'] eqn:E.
  - destruct (is_space c) eqn:Ec; simpl; [reflexivity|]. rewrite Ec. reflexivity.
  - simpl in *. rewrite IH. reflexivity.
Qed.

Lemma strip_idempotent (s : string) : strip (strip s) = strip s.
Proof.
  unfold strip. rewrite (lstrip_fixed (rstrip (lstrip s))).
  - apply rstrip_idempotent.
  - apply rstrip_head, lstrip_head.
Qed.

Lemma replace_absent (a b : ascii) (s : string) :
  all_chars (fun c => negb (Ascii.eqb c a)) s = true -> replace a b s = s.
Proof.
  induction s as [|c r IH]; simpl; [reflexivity|]. intros H.
  apply andb_true_iff in H. destruct H as [Hc Hr].
  rewrite IH by exact Hr. destruct (Ascii.eqb c a); [discriminate|reflexivity].
Qed.

Lemma replace_removes (a b : ascii) (s : string) :
  a <> b -> all_chars (fun c => negb (Ascii.eqb c a)) (replace a b s) = true.
Proof.
  intros Hne. induction s as [|c r IH]; simpl; [reflexivity|].
  rewrite IH, andb_true_r. destruct (Ascii.eqb c a) eqn:E.
  - apply negb_true_iff, Ascii.eqb_neq. congruence.
  - rewrite E. reflexivity.
Qed.

Lemma clean_no_nbsp (s : string) :
  all_chars (fun c => negb (Ascii.eqb c nbsp)) (clean s) = true.
Proof. apply all_chars_strip, replace_removes. discriminate. Qed.

Lemma clean_idempotent (s : string) : clean (clean s) = clean s.
Proof.
  unfold clean at 1. rewrite replace_absent by apply clean_no_nbsp.
  apply strip_idempotent.
Qed.

Lemma all_chars_impl (p q : ascii -> bool) (s : string) :
  (forall c, p c = true -> q c = true) ->
  all_chars p s = true -> all_chars q s = true.
Proof.
  intros Hpq. induction s as [|c r IH]; simpl; [auto|]. intros H.
  apply andb_true_iff in H. destruct H as [Hc Hr].
  rewrite (Hpq _ Hc), IH; auto.
Qed.

Definition not_space (c : ascii) : bool := negb (is_space c).

Lemma rstrip_no_space (s : string) : all_chars not_space s = true -> rstrip s = s.
Proof.
  induction s as [|c r IH]; simpl; [reflexivity|]. intros H.
  apply andb_true_iff in H. destruct H as [Hc Hr]. rewrite IH by exact Hr.
  destruct r; [|reflexivity].
  unfold not_space in Hc. apply negb_true_iff in Hc. rewrite Hc. reflexivity.
Qed.

(** A text without white space is clean already. *)
Lemma clean_no_space (s : string) : all_chars not_space s = true -> clean s = s.
Proof.
  intros H. unfold clean. rewrite replace_absent.
  - unfold strip. rewrite lstrip_fixed.
    + apply rstrip_no_space, H.
    + destruct s as [|c r]; simpl in *; [exact I|].
      apply andb_true_iff in H. destruct H as [Hc _].
      apply negb_true_iff in Hc. exact Hc.
  - revert H. apply all_chars_impl. intros c Hc.
    destruct (Ascii.eqb c nbsp) eqn:E; [|reflexivity].
    apply Ascii.eqb_eq in E. subst c. discriminate.
Qed.

Lemma digit_not_space (c : ascii) : is_ascii_digit c = true -> not_space c = true.
Proof.
  destruct c as [[] [] [] [] [] [] [] []]; try discriminate; reflexivity.
Qed.

Lemma digit_isdigit (s : string) :
  all_chars is_ascii_digit s = true -> all_chars isdigit_char s = true.
Proof.
  apply all_chars_impl. intros c H. unfold isdigit_char. rewrite H. reflexivity.
Qed.

Lemma int_str (n : N) : PyInt.int (PyInt.str n) = Ok n.
Proof.
  unfold PyInt.int, PyInt.str. rewrite NilZero.usu.
  - rewrite DecimalN.Unsigned.of_to. reflexivity.
  - intros E. pose proof (DecimalN.Unsigned.to_of (N.to_uint n)) as H.
    rewrite DecimalN.Unsigned.of_to in H. rewrite E in H. discriminate.
Qed.

Lemma numeric_string_value (text : string) :
  normalize_numeric_string (Some text)
  = if isdigit (clean text)
    then match PyInt.int (clean text) with
         | Ok n => PyInt.str n
         | Raise _ => clean text
         end
    else clean text.
Proof. reflexivity. Qed.

Lemma numeric_string_settled (text : string) :
  normalize_numeric_string (Some (normalize_numeric_string (Some text)))
  = normalize_numeric_string (Some text).
Proof.
  rewrite (numeric_string_value text).
  destruct (isdigit (clean text)) eqn:Ed.
  - destruct (PyInt.int (clean text)) as [n|e] eqn:Ei.
    + destruct (str_digits n) as [Hd Hn]. rewrite numeric_string_value.
      rewrite clean_no_space
        by (revert Hd; apply all_chars_impl, digit_not_space).
      rewrite int_str.
      destruct (PyInt.str n) as [|c r] eqn:Es; [congruence|].
      unfold isdigit. rewrite (digit_isdigit _ Hd). reflexivity.
    + rewrite numeric_string_value, clean_idempotent, Ed, Ei. reflexivity.
  - rewrite numeric_string_value, clean_idempotent, Ed. reflexivity.
Qed.

Lemma boolean_settled (text : string) :
  normalize_boolean_value (Some (normalize_boolean_value (Some text)))
  = normalize_boolean_value (Some text).
Proof.
  destruct (boolean_value_cases (Some text)) as [-> | ->]; reflexivity.
Qed.

Lemma spaces_length (k : nat) : String.length (spaces k) = k.
Proof. induction k; simpl; auto. Qed.

Lemma rstrip_spaces (s : string) :
  all_chars (fun c => negb (odd_space c)) s = true ->
  exists k, s = rstrip s ++ spaces k.
Proof.
  induction s as [|c r IH]; simpl; [exists 0; reflexivity|]. intros H.
  apply andb_true_iff in H. destruct H as [Hc Hr].
  destruct (IH Hr) as [k Hk]. destruct (rstrip r) as [|c' r'] eqn:E.
  - simpl in Hk. destruct (is_space c) eqn:Es.
    + exists (S k). simpl. rewrite <- Hk. f_equal.
      unfold odd_space in Hc. rewrite Es in Hc. simpl in Hc.
      apply negb_true_iff, negb_false_iff, Ascii.eqb_eq in Hc. exact Hc.
    + exists k. simpl. rewrite <- Hk. reflexivity.
  - exists k. simpl. simpl in Hk. rewrite <- Hk. reflexivity.
Qed.

Lemma all_chars_append (p : ascii -> bool) (s t : string) :
  all_chars p (s ++ t) = all_chars p s && all_chars p t.
Proof.
  induction s as [|c r IH]; simpl; [reflexivity|].
  rewrite IH, andb_assoc. reflexivity.
Qed.

Lemma all_chars_take (p : ascii -> bool) (n : nat) (s : string) :
  all_chars p s = true -> all_chars p (take n s) = true.
Proof.
  revert s. induction n as [|n IH]; intros [|c r]; simpl; auto.
  intros H. apply andb_true_iff in H. destruct H as [Hc Hr].
  rewrite Hc, IH; auto.
Qed.

Lemma take_head (n : nat) (s : string) :
  head_not_space s -> head_not_space (take n s).
Proof. destruct n, s; simpl; auto. Qed.

Lemma append_head (s t : string) :
  s <> "" -> head_not_space s -> head_not_space (s ++ t).
Proof. destruct s; simpl; [congruence|auto]. Qed.

Lemma take_take_append (n : nat) (s t : string) :
  take n (take n s ++ t) = take n (s ++ t).
Proof.
  revert s. induction n as [|n IH]; intros [|c r]; simpl; auto.
  rewrite IH. reflexivity.
Qed.

(** The padded series, normalized again, stays as it is when its white
    space is made of ordinary spaces. *)
Lemma serie_padded_settled (text : string) :
  serie_plain_spaces text = true ->
  normalize_serie_nfts_padded (Some (normalize_serie_nfts_padded (Some text)))
  = normalize_serie_nfts_padded (Some text).
Proof.
  unfold serie_plain_spaces. intros Hok.
  unfold normalize_serie_nfts_padded. fold (clean text).
  set (r := take 5 (clean text ++ "     ")).
  fold (clean r).
  assert (Hr : all_chars (fun c => negb (odd_space c)) r = true).
  { unfold r. rewrite <- take_take_append. apply all_chars_take.
    rewrite all_chars_append, Hok. reflexivity. }
  assert (Hlen : String.length r = 5).
  { unfold r. rewrite length_take, length_append.
    change (String.length "     ") with 5. lia. }
  assert (Hclean : clean r = rstrip r).
  { unfold clean. rewrite replace_absent.
    - unfold strip. destruct (clean text) as [|c t] eqn:Ec; [reflexivity|].
      rewrite lstrip_fixed; [reflexivity|]. unfold r. apply take_head.
      pose proof (rstrip_head _ (lstrip_head (replace nbsp space text))) as H.
      fold (strip (replace nbsp space text)) in H. fold (clean text) in H.
      rewrite Ec in H. exact H.
    - revert Hr. apply all_chars_impl. intros c Hc.
      destruct (Ascii.eqb c nbsp) eqn:E; [|reflexivity].
      apply Ascii.eqb_eq in E. subst c. discriminate. }
  rewrite Hclean. destruct (rstrip_spaces r Hr) as [k Hk].
  assert (Hk' : String.length (rstrip r) + k = 5).
  { pose proof (f_equal String.length Hk) as HL.
    rewrite length_append, spaces_length, Hlen in HL. lia. }
  rewrite take_append_short by lia. rewrite take_spaces by lia.
  replace (5 - String.length (rstrip r)) with k by lia.
  symmetry. exact Hk.
Qed.

Lemma kind_at_leaf_kinds (order_map : OrderMap) :
  forall path kind,
    kind_at order_map path = Some kind -> In (path, kind) (leaf_kinds order_map).
Proof.
  apply (order_map_ind
           (fun d => forall path kind,
                match d, path with
                | DStr k, [] => Some k
                | DDict items, _ :: _ => kind_at items path
                | _, _ => None
                end = Some kind ->
                In (path, kind) (leaf_kinds_def d))
           (fun om => forall path kind,
                kind_at om path = Some kind -> In (path, kind) (leaf_kinds om))).
  - intros k [|p path] kind; [|discriminate]. intros [= ->]. left. reflexivity.
  - intros items IH [|p path] kind; [discriminate|]. intros H.
    assert (E : leaf_kinds_def (DDict items) = leaf_kinds items).
    { simpl. clear. induction items as [|[t d] r IHr]; simpl; [reflexivity|].
      rewrite IHr. reflexivity. }
    rewrite E. apply IH. exact H.
  - intros [|p path] kind; discriminate.
  - intros t d r Hd Hr [|p path] kind; [discriminate|]. simpl.
    destruct (String.eqb t p) eqn:E.
    + apply String.eqb_eq in E. subst p. intros H. apply in_app_iff. left.
      apply in_map_iff. exists (path, kind). split; [reflexivity|].
      apply Hd. destruct d as [k|items]; destruct path; auto; discriminate.
    + intros H. apply in_app_iff. right. apply Hr. simpl. exact H.
Qed.

(** ** Rounding to the nearest double *)

Module FloatFacts.

Import PyFloat.
Local Open Scope Z_scope.

Lemma rne_div_bound (p q : Z) :
  0 < q -> 2 * Z.abs (q * rne_div p q - p) <= q.
Proof.
  intros Hq. unfold rne_div.
  pose proof (Z.div_mod p q ltac:(lia)) as E.
  pose proof (Z.mod_pos_bound p q Hq) as B.
  destruct (Z.compare_spec (2 * (p mod q)) q) as [C|C|C];
    [destruct (Z.even (p / q))| |]; nia.
Qed.

Lemma rne_div_tie_even (p q : Z) :
  0 < q -> 2 * Z.abs (q * rne_div p q - p) = q -> Z.even (rne_div p q) = true.
Proof.
  intros Hq. unfold rne_div.
  pose proof (Z.div_mod p q ltac:(lia)) as E.
  pose proof (Z.mod_pos_bound p q Hq) as B.
  destruct (Z.compare_spec (2 * (p mod q)) q) as [C|C|C].
  - destruct (Z.even (p / q)) eqn:Ev; intros _; [exact Ev|].
    rewrite Z.even_add, Ev. reflexivity.
  - intros H. nia.
  - intros H. nia.
Qed.

Lemma rne_div_unique (p q n : Z) :
  0 < q -> 2 * Z.abs (q * n - p) < q -> rne_div p q = n.
Proof.
  intros Hq Hn. pose proof (rne_div_bound p q Hq). nia.
Qed.

Lemma rne_div_tie (p q n : Z) :
  0 < q -> 2 * Z.abs (q * n - p) = q -> Z.even n = true -> rne_div p q = n.
Proof.
  intros Hq Hn Ev. pose proof (rne_div_bound p q Hq) as B.
  assert (Hc : rne_div p q = n \/ rne_div p q = n + 1 \/ rne_div p q = n - 1)
    by nia.
  destruct Hc as [Hc|[Hc|Hc]]; [exact Hc| |].
  - assert (T : 2 * Z.abs (q * rne_div p q - p) = q) by nia.
    apply rne_div_tie_even in T; [|exact Hq].
    rewrite Hc, Z.even_add, Ev in T. discriminate.
  - assert (T : 2 * Z.abs (q * rne_div p q - p) = q) by nia.
    apply rne_div_tie_even in T; [|exact Hq].
    rewrite Hc, Z.even_sub, Ev in T. discriminate.
Qed.

Lemma rne_div_nearest (p q k : Z) :
  0 < q -> Z.abs (q * rne_div p q - p) <= Z.abs (q * k - p).
Proof.
  intros Hq. pose proof (rne_div_bound p q Hq).
  destruct (Z.eq_dec k (rne_div p q)) as [->|Hne]; [lia|].
  assert (q <= Z.abs (q * k - q * rne_div p q)) by nia. lia.
Qed.

Lemma rne_div_scale (c p q : Z) :
  0 < c -> 0 < q -> rne_div (c * p) (c * q) = rne_div p q.
Proof.
  intros Hc Hq. unfold rne_div.
  rewrite Z.div_mul_cancel_l by lia. rewrite Z.mul_mod_distr_l by lia.
  replace (2 * (c * (p mod q))) with (c * (2 * (p mod q))) by ring.
  rewrite <- Zmult_compare_compat_l by lia. reflexivity.
Qed.

Lemma rne_div_one (p : Z) : rne_div p 1 = p.
Proof. apply rne_div_unique; lia. Qed.

Lemma pow2_pos (a : Z) : 0 <= a -> 0 < 2 ^ a.
Proof. intros H. apply Z.pow_pos_nonneg; lia. Qed.

Lemma pow2_add (a b : Z) : 0 <= a -> 0 <= b -> 2 ^ (a + b) = 2 ^ a * 2 ^ b.
Proof. intros. apply Z.pow_add_r; lia. Qed.

Lemma pow2_succ (a : Z) : 0 <= a -> 2 ^ (a + 1) = 2 * 2 ^ a.
Proof. intros. rewrite pow2_add by lia. change (2 ^ 1) with 2. ring. Qed.

(** [2^il <= p / q < 2^(il + 1)], cleared of its denominators. *)
Lemma ilog2_ratio_spec (p q a b : Z) :
  0 < p -> 0 < q -> 0 <= a -> 0 <= b -> a - b = ilog2_ratio p q ->
  2 ^ a * q <= 2 ^ b * p < 2 ^ (a + 1) * q.
Proof.
  intros Hp Hq Ha Hb. unfold ilog2_ratio, scale.
  pose proof (Z.log2_spec p Hp) as [Lp1 Lp2].
  pose proof (Z.log2_spec q Hq) as [Lq1 Lq2].
  pose proof (Z.log2_nonneg p) as Np. pose proof (Z.log2_nonneg q) as Nq.
  rewrite <- Z.add_1_r in Lp2, Lq2. rewrite pow2_succ in Lp2, Lq2 by lia.
  rewrite (pow2_succ a) by lia.
  set (lp := Z.log2 p) in *. set (lq := Z.log2 q) in *.
  pose proof (pow2_pos a Ha) as PA. pose proof (pow2_pos b Hb) as PB.
  pose proof (pow2_pos lp Np) as PLp. pose proof (pow2_pos lq Nq) as PLq.
  destruct (Z.leb_spec 0 (lp - lq)) as [Hk|Hk].
  - pose proof (pow2_pos _ Hk) as PK.
    assert (ELp : 2 ^ lp = 2 ^ lq * 2 ^ (lp - lq))
      by (rewrite <- pow2_add by lia; f_equal; lia).
    destruct (Z.leb_spec (q * 2 ^ (lp - lq)) p) as [Ht|Ht]; intros Hab.
    + assert (EA : 2 ^ a = 2 ^ b * 2 ^ (lp - lq))
        by (rewrite <- pow2_add by lia; f_equal; lia).
      rewrite EA. split; nia.
    + assert (EA : 2 * 2 ^ a = 2 ^ b * 2 ^ (lp - lq)).
      { rewrite <- pow2_succ, <- pow2_add by lia. f_equal. lia. }
      split; nia.
  - assert (Hk' : 0 <= - (lp - lq)) by lia.
    pose proof (pow2_pos _ Hk') as PK.
    assert (ELq : 2 ^ lq = 2 ^ lp * 2 ^ (- (lp - lq)))
      by (rewrite <- pow2_add by lia; f_equal; lia).
    destruct (Z.leb_spec q (p * 2 ^ (- (lp - lq)))) as [Ht|Ht]; intros Hab.
    + assert (EB : 2 ^ b = 2 ^ a * 2 ^ (- (lp - lq)))
        by (rewrite <- pow2_add by lia; f_equal; lia).
      rewrite EB. split; nia.
    + assert (EB : 2 ^ b = 2 * 2 ^ a * 2 ^ (- (lp - lq))).
      { rewrite <- pow2_succ, <- pow2_add by lia. f_equal. lia. }
      rewrite EB. split; nia.
Qed.

(** Doubles as integers: every double is a multiple of [2^-1074]. *)
Definition K : Z := 2 ^ 1074.
Definition sv (m e : Z) : Z := m * 2 ^ (e + 1074).
Definition valid (m e : Z) : Prop :=
  0 <= m < 2 ^ 53 /\ -1074 <= e <= 971.

(** The exponent and the mantissa [of_ratio] rounds at. *)
Definition rexp (p q : Z) : Z := Z.max (ilog2_ratio p q - 52) (-1074).
Definition rman (p q : Z) : Z :=
  rne_div (p * K) (q * 2 ^ (rexp p q + 1074)).

Lemma K_pos : 0 < K.
Proof. reflexivity. Qed.

Lemma scale_rne (p q e : Z) :
  0 < q -> -1074 <= e ->
  rne_div (fst (scale p q e)) (snd (scale p q e))
  = rne_div (p * K) (q * 2 ^ (e + 1074)).
Proof.
  intros Hq He. unfold scale. destruct (Z.leb_spec 0 e) as [H|H]; simpl.
  - rewrite <- (rne_div_scale K p (q * 2 ^ e)).
    + f_equal; [ring|]. rewrite pow2_add by lia. unfold K. ring.
    + exact K_pos.
    + pose proof (pow2_pos e H). nia.
  - assert (He' : 0 <= e + 1074) by lia.
    pose proof (pow2_pos _ He') as PE.
    rewrite <- (rne_div_scale (2 ^ (e + 1074)) (p * 2 ^ (- e)) q) by lia.
    f_equal; [|ring].
    replace (2 ^ (e + 1074) * (p * 2 ^ (- e)))
      with (p * (2 ^ (e + 1074) * 2 ^ (- e))) by ring.
    rewrite <- pow2_add by lia. unfold K. do 2 f_equal. lia.
Qed.

Lemma of_ratio_eq (p q : Z) :
  0 < q ->
  of_ratio p q
  = if rman p q =? 2 ^ 53
    then (if 971 <? rexp p q + 1 then None else Some (2 ^ 52, rexp p q + 1))
    else (if 971 <? rexp p q then None else Some (rman p q, rexp p q)).
Proof.
  intros Hq. unfold of_ratio, rman.
  change (Z.max (ilog2_ratio p q - (prec - 1)) emin) with (rexp p q).
  pose proof (scale_rne p q (rexp p q) Hq) as E.
  destruct (scale p q (rexp p q)) as [p' q']. simpl in E.
  rewrite E by (unfold rexp; lia).
  change (2 ^ prec) with (2 ^ 53). change (2 ^ (prec - 1)) with (2 ^ 52).
  change emax with 971.
  destruct (_ =? 2 ^ 53); reflexivity.
Qed.

Lemma rexp_min (p q : Z) : -1074 <= rexp p q.
Proof. unfold rexp. lia. Qed.

Lemma ratio_below (p q : Z) :
  0 < p -> 0 < q -> p * K < 2 ^ 53 * (q * 2 ^ (rexp p q + 1074)).
Proof.
  intros Hp Hq. set (il := ilog2_ratio p q).
  set (t := Z.max 0 (- (il + 1074))).
  assert (Ht : 0 <= t) by lia.
  pose proof (ilog2_ratio_spec p q (il + 1074 + t) (1074 + t) Hp Hq
                ltac:(lia) ltac:(lia) ltac:(unfold il; lia)) as [_ U].
  pose proof (rexp_min p q) as Hmin.
  assert (Hs : il + 1074 + t + 1 <= 53 + (rexp p q + 1074) + t)
    by (unfold rexp; fold il; lia).
  apply (Z.pow_le_mono_r 2) in Hs; [|lia].
  rewrite (pow2_add (53 + (rexp p q + 1074)) t) in Hs by lia.
  rewrite (pow2_add 53 (rexp p q + 1074)) in Hs by lia.
  rewrite (pow2_add 1074 t) in U by lia. fold K in U.
  pose proof (pow2_pos t Ht). pose proof K_pos.
  pose proof (pow2_pos (rexp p q + 1074) ltac:(lia)).
  nia.
Qed.

Lemma ratio_above (p q : Z) :
  0 < p -> 0 < q -> -1074 < rexp p q ->
  2 ^ 52 * (q * 2 ^ (rexp p q + 1074)) <= p * K.
Proof.
  intros Hp Hq He. set (il := ilog2_ratio p q).
  assert (E : rexp p q = il - 52) by (unfold rexp in *; fold il in He |- *; lia).
  pose proof (ilog2_ratio_spec p q (il + 1074) 1074 Hp Hq
                ltac:(lia) ltac:(lia) ltac:(unfold il; lia)) as [L _].
  fold K in L. rewrite E.
  replace (il - 52 + 1074) with (il + 1022) by lia.
  replace (il + 1074) with (52 + (il + 1022)) in L by lia.
  rewrite pow2_add in L by lia. nia.
Qed.

Lemma rman_bounds (p q : Z) :
  0 < p -> 0 < q ->
  0 <= rman p q <= 2 ^ 53
  /\ (-1074 < rexp p q -> 2 ^ 52 <= rman p q).
Proof.
  intros Hp Hq. pose proof (rexp_min p q) as Hmin.
  pose proof (pow2_pos (rexp p q + 1074) ltac:(lia)) as PS.
  set (D := q * 2 ^ (rexp p q + 1074)).
  assert (HD : 0 < D) by (unfold D; nia).
  pose proof (rne_div_bound (p * K) D HD) as B. fold D in B.
  pose proof (ratio_below p q Hp Hq) as U. fold D in U.
  pose proof K_pos.
  unfold rman. fold D. set (m := rne_div (p * K) D) in *.
  split; [split|].
  - nia.
  - assert (m < 2 ^ 53 + 1) by nia. lia.
  - intros He. pose proof (ratio_above p q Hp Hq He) as L. fold D in L.
    assert (2 ^ 52 - 1 < m) by nia. lia.
Qed.

Lemma of_ratio_valid (p q m e : Z) :
  0 < p -> 0 < q -> of_ratio p q = Some (m, e) ->
  valid m e /\ sv m e = rman p q * 2 ^ (rexp p q + 1074).
Proof.
  intros Hp Hq. rewrite of_ratio_eq by exact Hq.
  pose proof (rman_bounds p q Hp Hq) as [[B1 B2] _].
  pose proof (rexp_min p q) as Hmin. unfold valid, sv.
  destruct (Z.eqb_spec (rman p q) (2 ^ 53)) as [E|E].
  - destruct (Z.ltb_spec 971 (rexp p q + 1)); [discriminate|].
    intros [= <- <-]. split; [split; [split; [lia|reflexivity]|lia]|].
    rewrite E. replace (rexp p q + 1 + 1074) with (1 + (rexp p q + 1074)) by lia.
    rewrite pow2_add by lia. change (2 ^ 1) with 2.
    generalize (2 ^ (rexp p q + 1074)). intros X. lia.
  - destruct (Z.ltb_spec 971 (rexp p q)); [discriminate|].
    intros [= <- <-]. split; [split; lia|reflexivity].
Qed.

(** No double is nearer to [p / q] than the one [of_ratio] rounds to. *)
Lemma of_ratio_nearest (p q m e : Z) :
  0 < p -> 0 < q -> valid m e ->
  Z.abs (rman p q * 2 ^ (rexp p q + 1074) * q - p * K)
  <= Z.abs (sv m e * q - p * K).
Proof.
  intros Hp Hq [[Hm1 Hm2] [He1 He2]].
  pose proof (rexp_min p q) as Hmin.
  set (s := rexp p q + 1074). assert (Hs : 0 <= s) by (unfold s; lia).
  pose proof (pow2_pos s Hs) as PS.
  set (D := q * 2 ^ s). assert (HD : 0 < D) by (unfold D; nia).
  unfold rman. fold s. fold D. unfold sv.
  destruct (Z_le_gt_dec s (e + 1074)) as [Hc|Hc].
  - pose proof (rne_div_nearest (p * K) D (m * 2 ^ (e + 1074 - s)) HD) as N.
    replace (e + 1074) with ((e + 1074 - s) + s) at 1 by lia.
    rewrite pow2_add by lia.
    replace (rne_div (p * K) D * 2 ^ s * q) with (D * rne_div (p * K) D)
      by (unfold D; ring).
    replace (m * (2 ^ (e + 1074 - s) * 2 ^ s) * q)
      with (D * (m * 2 ^ (e + 1074 - s))) by (unfold D; ring).
    exact N.
  - assert (He : -1074 < rexp p q) by (unfold s in Hc; lia).
    pose proof (ratio_above p q Hp Hq He) as L. fold s in L. fold D in L.
    pose proof (rne_div_bound (p * K) D HD) as B.
    assert (Hpow : 2 ^ (e + 1074) <= 2 ^ (s - 1))
      by (apply Z.pow_le_mono_r; lia).
    assert (ED : D = 2 * (q * 2 ^ (s - 1))).
    { unfold D. replace s with ((s - 1) + 1) at 1 by lia.
      rewrite pow2_succ by lia. ring. }
    pose proof (pow2_pos (s - 1) ltac:(lia)) as PS1.
    pose proof (pow2_pos (e + 1074) ltac:(lia)) as PE.
    set (H := q * 2 ^ (s - 1)) in *.
    assert (HX : m * 2 ^ (e + 1074) * q <= (2 ^ 53 - 1) * H).
    { unfold H.
      assert (M : m * 2 ^ (e + 1074) <= (2 ^ 53 - 1) * 2 ^ (s - 1))
        by (apply Z.mul_le_mono_nonneg; lia).
      apply (Z.mul_le_mono_nonneg_r _ _ q) in M; [|lia].
      replace ((2 ^ 53 - 1) * (q * 2 ^ (s - 1)))
        with ((2 ^ 53 - 1) * 2 ^ (s - 1) * q) by ring.
      exact M. }
    replace (rne_div (p * K) D * 2 ^ s * q) with (D * rne_div (p * K) D)
      by (unfold D; ring).
    change (2 ^ 53) with (2 * 2 ^ 52) in HX. lia.
Qed.

Lemma hundredths_scaled (m e : Z) :
  -1074 <= e -> hundredths m e = rne_div (100 * sv m e) K.
Proof.
  intros He. unfold hundredths, sv.
  destruct (Z.leb_spec 0 e) as [H|H].
  - rewrite pow2_add by lia. fold K.
    replace (100 * (m * (2 ^ e * K))) with (K * (100 * m * 2 ^ e)) by ring.
    rewrite <- (Z.mul_1_r K) at 2.
    rewrite rne_div_scale by (try exact K_pos; lia).
    symmetry. apply rne_div_one.
  - assert (He' : 0 <= e + 1074) by lia.
    pose proof (pow2_pos _ He') as PE.
    pose proof (pow2_pos (- e) ltac:(lia)) as PN.
    rewrite <- (rne_div_scale (2 ^ (e + 1074)) (100 * m) (2 ^ (- e))) by lia.
    f_equal; [ring|]. rewrite <- pow2_add by lia. unfold K. f_equal. lia.
Qed.

Definition big : Z := 2 ^ 2045.

Lemma K_small : K < 100 * big.
Proof. vm_compute. reflexivity. Qed.

Lemma big_pos : 0 < big.
Proof. vm_compute. reflexivity. Qed.

Lemma sv_max (m e : Z) : valid m e -> sv m e <= (2 ^ 53 - 1) * big.
Proof.
  intros [[Hm1 Hm2] [He1 He2]]. unfold sv, big.
  apply Z.mul_le_mono_nonneg; try lia.
  apply Z.pow_le_mono_r; lia.
Qed.

Lemma pow2_ge_big (s : Z) : 2045 <= s -> big <= 2 ^ s.
Proof. intros H. unfold big. apply Z.pow_le_mono_r; lia. Qed.

Lemma pow2_ge_big2 (s : Z) : 2046 <= s -> 2 * big <= 2 ^ s.
Proof.
  intros H. unfold big. rewrite <- pow2_succ by lia.
  apply Z.pow_le_mono_r; lia.
Qed.

(** The hundredths of a double, read as a decimal, round to a double
    that has the same hundredths. *)
Lemma hundredths_reread (m e : Z) :
  valid m e -> 0 < hundredths m e ->
  exists m' e',
    of_ratio (hundredths m e) 100 = Some (m', e')
    /\ valid m' e'
    /\ hundredths m' e' = hundredths m e.
Proof.
  intros Hv Hn. pose proof Hv as [[Hm1 Hm2] [He1 He2]].
  rewrite (hundredths_scaled m e) in * by lia.
  set (X := sv m e) in *. set (n := rne_div (100 * X) K) in *.
  pose proof K_pos as HK.
  pose proof (rne_div_bound (100 * X) K HK) as BX. fold n in BX.
  pose proof (of_ratio_nearest n 100 m e Hn ltac:(lia) Hv) as N. fold X in N.
  pose proof (rman_bounds n 100 Hn ltac:(lia)) as [[R1 R2] R3].
  pose proof (rexp_min n 100) as Hmin.
  pose proof (sv_max m e Hv) as HX. fold X in HX.
  set (s := rexp n 100 + 1074) in *.
  pose proof (pow2_pos s ltac:(unfold s; lia)) as PS.
  set (Y := rman n 100 * 2 ^ s) in *.
  pose proof K_small as KS. pose proof big_pos as BP.
  assert (Hno : exists m' e', of_ratio n 100 = Some (m', e')).
  { rewrite of_ratio_eq by lia.
    destruct (Z.eqb_spec (rman n 100) (2 ^ 53)) as [E|E].
    - destruct (Z.ltb_spec 971 (rexp n 100 + 1)) as [Ho|Ho]; [|eauto].
      exfalso. pose proof (pow2_ge_big s ltac:(unfold s; lia)) as G.
      assert (EY : Y = 2 ^ 53 * 2 ^ s) by (unfold Y; rewrite E; reflexivity).
      generalize dependent (2 ^ s). generalize dependent K.
      generalize dependent big. intros. lia.
    - destruct (Z.ltb_spec 971 (rexp n 100)) as [Ho|Ho]; [|eauto].
      exfalso. pose proof (pow2_ge_big2 s ltac:(unfold s; lia)) as G.
      specialize (R3 ltac:(lia)).
      assert (GY : 2 ^ 52 * (2 * big) <= Y).
      { unfold Y. apply Z.mul_le_mono_nonneg; lia. }
      generalize dependent (2 ^ s). generalize dependent K.
      generalize dependent big. intros. lia. }
  destruct Hno as (m' & e' & Ho). exists m', e'.
  destruct (of_ratio_valid n 100 m' e' Hn ltac:(lia) Ho) as [Hv' Hsv].
  fold s in Hsv. fold Y in Hsv.
  split; [exact Ho|]. split; [exact Hv'|].
  rewrite hundredths_scaled by (destruct Hv' as [_ ?]; lia). rewrite Hsv.
  assert (C : 2 * Z.abs (K * n - 100 * Y) <= K) by lia.
  destruct (Z.eq_dec (2 * Z.abs (K * n - 100 * Y)) K) as [T|T].
  - apply rne_div_tie; [exact HK|exact T|].
    apply (rne_div_tie_even (100 * X) K HK). fold n. lia.
  - apply rne_div_unique; [exact HK|lia].
Qed.

End FloatFacts.

Module ReadFacts.

Import PyFloat FloatFacts Text.
Local Open Scope Z_scope.
Local Open Scope string_scope.

Lemma digits_value_from_app (acc : Z) (s t : string) :
  digits_value_from acc (s ++ t) = digits_value_from (digits_value_from acc s) t.
Proof. revert acc. induction s as [|c r IH]; intros acc; simpl; auto. Qed.

Lemma of_uint_acc_value (l : uint) (acc : positive) :
  Z.pos (Pos.of_uint_acc l acc)
  = digits_value_from (Z.pos acc) (NilEmpty.string_of_uint l).
Proof.
  revert acc. induction l; intros acc;
    cbn [Pos.of_uint_acc NilEmpty.string_of_uint digits_value_from];
    [reflexivity|..];
    rewrite IHl; f_equal;
    match goal with
    | |- context [digit_of ?c] =>
        let v := eval vm_compute in (digit_of c) in change (digit_of c) with v
    end; lia.
Qed.

Lemma of_uint_value (d : uint) :
  Z.of_N (Pos.of_uint d) = digits_value_from 0 (NilEmpty.string_of_uint d).
Proof.
  induction d; cbn [Pos.of_uint NilEmpty.string_of_uint digits_value_from];
    [reflexivity|exact IHd|..];
    cbn [Z.of_N]; rewrite of_uint_acc_value; reflexivity.
Qed.

Lemma digits_value_str (n : N) : digits_value (PyInt.str n) = Z.of_N n.
Proof.
  unfold digits_value, PyInt.str, NilZero.string_of_uint.
  rewrite <- (DecimalN.Unsigned.of_to n) at 2.
  destruct (N.to_uint n) eqn:E; try apply (eq_sym (of_uint_value _)).
  exfalso. pose proof (DecimalN.Unsigned.to_of (N.to_uint n)) as H.
  rewrite DecimalN.Unsigned.of_to, E in H. discriminate.
Qed.

Lemma digit_of_char (a : Z) : 0 <= a <= 9 -> digit_of (digit_char a) = a.
Proof.
  intros H.
  assert (E : a = 0 \/ a = 1 \/ a = 2 \/ a = 3 \/ a = 4 \/ a = 5 \/ a = 6
              \/ a = 7 \/ a = 8 \/ a = 9) by lia.
  repeat (destruct E as [->|E]; [reflexivity|]). subst. reflexivity.
Qed.

(** The digits [format_2f] prints denote the hundredths again. *)
Lemma digits_value_hundredths (n : Z) :
  0 <= n ->
  digits_value (str_of_Z (n / 100)
                  ++ String (digit_char (n mod 100 / 10))
                       (String (digit_char (n mod 10)) EmptyString))
  = n.
Proof.
  intros Hn. unfold digits_value. rewrite digits_value_from_app.
  fold (digits_value (str_of_Z (n / 100))). unfold str_of_Z.
  rewrite digits_value_str. cbn [digits_value_from].
  pose proof (Z.mod_pos_bound n 100 eq_refl) as B.
  pose proof (Z.mod_pos_bound n 10 eq_refl) as B'.
  assert (0 <= n / 100) by (apply Z.div_pos; lia).
  assert (0 <= n mod 100 / 10 <= 9).
  { split; [apply Z.div_pos; lia|].
    assert (n mod 100 / 10 < 10) by (apply Z.div_lt_upper_bound; lia). lia. }
  rewrite !digit_of_char by lia. rewrite Z2N.id by lia.
  pose proof (Z.div_mod n 100 ltac:(lia)).
  pose proof (Z.div_mod (n mod 100) 10 ltac:(lia)).
  assert ((n mod 100) mod 10 = n mod 10).
  { apply (Z.mod_unique n 10 (10 * (n / 100) + n mod 100 / 10)); [|lia].
    left. apply Z.mod_pos_bound. lia. }
  lia.
Qed.

Definition plain_char (c : ascii) : bool := negb (Ascii.eqb c underscore).

Lemma drop_underscores_plain (s : string) :
  all_chars plain_char s = true ->
  forall prev,
    match prev with Some p => plain_char p = true | None => True end ->
    drop_underscores prev s = Some s.
Proof.
  induction s as [|c r IH]; intros H prev Hp.
  - destruct prev as [p|]; simpl; [|reflexivity].
    unfold plain_char in Hp. apply negb_true_iff in Hp. rewrite Hp. reflexivity.
  - simpl in H. apply andb_true_iff in H. destruct H as [Hc Hr].
    cbn [drop_underscores].
    assert (Ec : Ascii.eqb c underscore = false)
      by (apply negb_true_iff; exact Hc).
    rewrite Ec.
    assert (Ea : match prev with
                 | Some p => Ascii.eqb p underscore
                 | None => false
                 end = false).
    { destruct prev as [p|]; [|reflexivity]. apply negb_true_iff. exact Hp. }
    rewrite Ea. cbn [andb]. rewrite (IH Hr (Some c) Hc). reflexivity.
Qed.

Lemma digit_plain (c : ascii) : is_ascii_digit c = true -> plain_char c = true.
Proof.
  destruct c as [[] [] [] [] [] [] [] []]; try discriminate; reflexivity.
Qed.

Lemma split_sign_digit (c : ascii) (r : string) :
  is_ascii_digit c = true -> split_sign (String c r) = (false, String c r).
Proof.
  destruct c as [[] [] [] [] [] [] [] []]; try discriminate; reflexivity.
Qed.

Lemma not_special_digit (c : ascii) (r : string) :
  is_ascii_digit c = true ->
  String.eqb (lower (String c r)) "inf"
  || String.eqb (lower (String c r)) "infinity" = false
  /\ String.eqb (lower (String c r)) "nan" = false.
Proof.
  destruct c as [[] [] [] [] [] [] [] []]; try discriminate; split; reflexivity.
Qed.

Lemma span_digits_app (ds rest : string) :
  all_chars is_ascii_digit ds = true ->
  match rest with
  | EmptyString => True
  | String c _ => is_ascii_digit c = false
  end ->
  span_digits (ds ++ rest) = (ds, rest).
Proof.
  intros Hd Hr. induction ds as [|c r IH]; simpl in *.
  - destruct rest as [|c t]; [reflexivity|]. simpl. rewrite Hr. reflexivity.
  - apply andb_true_iff in Hd. destruct Hd as [Hc Hd].
    rewrite Hc, (IH Hd). reflexivity.
Qed.

Lemma append_nil_r (s : string) : s ++ "" = s.
Proof. induction s; simpl; congruence. Qed.

(** [float] on a number as [format_2f] prints it. *)
Lemma float_of_fixed (neg : bool) (ip : string) (d1 d2 : ascii) :
  ip <> "" -> all_chars is_ascii_digit ip = true ->
  is_ascii_digit d1 = true -> is_ascii_digit d2 = true ->
  float_of_string
    (sign_str neg ++ ip ++ "." ++ String d1 (String d2 EmptyString))
  = Ok (of_decimal neg
          (digits_value (ip ++ String d1 (String d2 EmptyString))) (0 - 2)).
Proof.
  intros Hne Hip H1 H2. destruct ip as [|c r]; [congruence|clear Hne].
  simpl in Hip. apply andb_true_iff in Hip. destruct Hip as [Hc Hr].
  set (fp := String d1 (String d2 EmptyString)).
  set (body := String c r ++ "." ++ fp).
  assert (Hbody : all_chars plain_char body = true).
  { unfold body, fp. change (String c r ++ "." ++ String d1 (String d2 ""))
      with (String c (r ++ "." ++ String d1 (String d2 ""))).
    cbn [all_chars]. rewrite (digit_plain c Hc), !all_chars_append.
    cbn [all_chars]. rewrite (digit_plain d1 H1), (digit_plain d2 H2).
    rewrite (all_chars_impl _ _ _ digit_plain Hr). reflexivity. }
  assert (Hsplit : split_sign (sign_str neg ++ body) = (neg, body)).
  { destruct neg; [reflexivity|]. apply split_sign_digit. exact Hc. }
  unfold float_of_string. rewrite drop_underscores_plain.
  - rewrite Hsplit.
    destruct (not_special_digit c (r ++ "." ++ fp) Hc) as [E1 E2].
    change (String c (r ++ "." ++ fp)) with body in E1, E2.
    rewrite E1, E2.
    assert (Es : span_digits body = (String c r, "." ++ fp)).
    { apply span_digits_app; [simpl; rewrite Hc, Hr|]; reflexivity. }
    rewrite Es. cbn [append].
    assert (Ef : span_digits fp = (fp, "")).
    { rewrite <- (append_nil_r fp) at 1.
      apply span_digits_app; [simpl; rewrite H1, H2; reflexivity|exact I]. }
    rewrite Ef. reflexivity.
  - destruct neg; [|exact Hbody]. exact Hbody.
  - exact I.
Qed.

Lemma span_digits_digits (s : string) :
  all_chars is_ascii_digit (fst (span_digits s)) = true.
Proof.
  induction s as [|c r IH]; simpl; [reflexivity|].
  destruct (is_ascii_digit c) eqn:E; [|reflexivity].
  destruct (span_digits r) as [d t]. simpl in *. rewrite E, IH. reflexivity.
Qed.

Lemma digit_of_nonneg (c : ascii) : is_ascii_digit c = true -> 0 <= digit_of c.
Proof.
  destruct c as [[] [] [] [] [] [] [] []]; try discriminate; intros _;
    vm_compute; discriminate.
Qed.

Lemma digits_value_from_nonneg (s : string) (acc : Z) :
  all_chars is_ascii_digit s = true -> 0 <= acc -> 0 <= digits_value_from acc s.
Proof.
  revert acc. induction s as [|c r IH]; intros acc H Ha;
    cbn [all_chars digits_value_from] in *; [exact Ha|].
  apply andb_true_iff in H. destruct H as [Hc Hr].
  apply IH; [exact Hr|]. pose proof (digit_of_nonneg c Hc). lia.
Qed.

Lemma zero_valid : valid 0 emin.
Proof. unfold valid, emin. split; [split; [lia|reflexivity]|lia]. Qed.

Lemma of_decimal_valid (neg neg' : bool) (d x m e : Z) :
  0 <= d -> of_decimal neg d x = Finite neg' m e -> neg' = neg /\ valid m e.
Proof.
  intros Hd. unfold of_decimal.
  destruct (Z.eqb_spec d 0) as [E|E].
  - intros [= <- <- <-]. split; [reflexivity|exact zero_valid].
  - assert (Hp : (0 < fst (if 0 <=? x then (d * 10 ^ x, 1) else (d, 10 ^ (- x)))
                  /\ 0 < snd (if 0 <=? x then (d * 10 ^ x, 1)
                              else (d, 10 ^ (- x))))%Z).
    { destruct (Z.leb_spec 0 x); simpl; split; try lia;
        try (apply Z.pow_pos_nonneg; lia). }
    destruct (if (0 <=? x)%Z then (d * 10 ^ x, 1) else (d, 10 ^ (- x)))
      as [p q].
    simpl in Hp. destruct Hp as [Hp Hq].
    destruct (of_ratio p q) as [[m' e']|] eqn:Er; [|discriminate].
    intros [= <- <- <-]. split; [reflexivity|].
    apply (of_ratio_valid p q m' e' Hp Hq Er).
Qed.

Lemma all_chars_app_intro (p : ascii -> bool) (s t : string) :
  all_chars p s = true -> all_chars p t = true -> all_chars p (s ++ t) = true.
Proof. intros Hs Ht. rewrite all_chars_append, Hs, Ht. reflexivity. Qed.

(** A finite value that [float] returns is a double. *)
Lemma float_of_string_valid (s : string) (neg : bool) (m e : Z) :
  float_of_string s = Ok (Finite neg m e) -> valid m e.
Proof.
  unfold float_of_string.
  destruct (drop_underscores None s) as [s'|]; [|discriminate].
  destruct (split_sign s') as [sg body].
  destruct (String.eqb (lower body) "inf" || String.eqb (lower body) "infinity");
    [discriminate|].
  destruct (String.eqb (lower body) "nan"); [discriminate|].
  pose proof (span_digits_digits body) as Hi.
  destruct (span_digits body) as [ip r1]. simpl in Hi.
  assert (Hf : all_chars is_ascii_digit
                 (fst match r1 with
                      | String "." t => span_digits t
                      | _ => (EmptyString, r1)
                      end) = true).
  { destruct r1 as [|c t]; [reflexivity|].
    destruct c as [[] [] [] [] [] [] [] []]; try reflexivity.
    apply span_digits_digits. }
  destruct (match r1 with
            | String "." t => span_digits t
            | _ => (EmptyString, r1)
            end) as [fp r2].
  simpl in Hf.
  pose proof (all_chars_app_intro _ _ _ Hi Hf) as Hd.
  destruct (ip ++ fp) as [|c ds] eqn:Eds; [discriminate|].
  destruct (parse_exponent r2) as [x|]; [|discriminate].
  intros [= H].
  apply of_decimal_valid in H; [tauto|].
  apply digits_value_from_nonneg; [exact Hd|lia].
Qed.

Definition fclean (s : string) : string :=
  strip (replace comma period (replace nbsp space s)).

Lemma all_chars_replace (p : ascii -> bool) (a b : ascii) (s : string) :
  p b = true -> all_chars p s = true -> all_chars p (replace a b s) = true.
Proof.
  intros Hb. induction s as [|c r IH]; simpl; [auto|]. intros H.
  apply andb_true_iff in H. destruct H as [Hc Hr]. rewrite (IH Hr).
  destruct (Ascii.eqb c a); [rewrite Hb|rewrite Hc]; reflexivity.
Qed.

Lemma fclean_idempotent (s : string) : fclean (fclean s) = fclean s.
Proof.
  unfold fclean at 1.
  assert (H1 : all_chars (fun c => negb (Ascii.eqb c nbsp)) (fclean s) = true).
  { apply all_chars_strip, all_chars_replace; [reflexivity|].
    apply replace_removes. discriminate. }
  assert (H2 : all_chars (fun c => negb (Ascii.eqb c comma)) (fclean s) = true).
  { apply all_chars_strip, replace_removes. discriminate. }
  rewrite (replace_absent nbsp space _ H1), (replace_absent comma period _ H2).
  apply strip_idempotent.
Qed.

Definition solid (c : ascii) : bool := not_space c && not_comma c.

Lemma fclean_solid (s : string) : all_chars solid s = true -> fclean s = s.
Proof.
  intros H. unfold fclean.
  assert (Hs : all_chars not_space s = true).
  { revert H. apply all_chars_impl. unfold solid. intros c Hc.
    apply andb_true_iff in Hc. tauto. }
  rewrite (replace_absent nbsp space s).
  - rewrite (replace_absent comma period s).
    + pose proof (clean_no_space s Hs) as E. unfold clean in E.
      rewrite (replace_absent nbsp space s) in E; [exact E|].
      revert Hs. apply all_chars_impl. intros c Hc.
      destruct (Ascii.eqb c nbsp) eqn:Ec; [|reflexivity].
      apply Ascii.eqb_eq in Ec. subst c. discriminate.
    + revert H. apply all_chars_impl. unfold solid, not_comma. intros c Hc.
      apply andb_true_iff in Hc. tauto.
  - revert Hs. apply all_chars_impl. intros c Hc.
    destruct (Ascii.eqb c nbsp) eqn:Ec; [|reflexivity].
    apply Ascii.eqb_eq in Ec. subst c. discriminate.
Qed.

Lemma digit_solid (c : ascii) : is_ascii_digit c = true -> solid c = true.
Proof.
  destruct c as [[] [] [] [] [] [] [] []]; try discriminate; reflexivity.
Qed.

Lemma hundredths_nonneg (m e : Z) : valid m e -> (0 <= hundredths m e)%Z.
Proof.
  intros [[Hm1 Hm2] [He1 He2]]. rewrite hundredths_scaled by lia.
  pose proof K_pos as HK.
  pose proof (rne_div_bound (100 * sv m e) K HK) as B.
  assert (0 <= sv m e)%Z.
  { unfold sv. apply Z.mul_nonneg_nonneg; [lia|].
    apply Z.lt_le_incl, pow2_pos. lia. }
  nia.
Qed.

Lemma hundredths_zero : hundredths 0 emin = 0%Z.
Proof. vm_compute. reflexivity. Qed.

Lemma format_2f_eq (neg : bool) (m e : Z) :
  format_2f (Finite neg m e)
  = sign_str neg ++ str_of_Z (hundredths m e / 100) ++ "."
      ++ String (digit_char (hundredths m e mod 100 / 10))
           (String (digit_char (hundredths m e mod 10)) EmptyString).
Proof. reflexivity. Qed.

Lemma format_2f_same (neg : bool) (m e m' e' : Z) :
  hundredths m' e' = hundredths m e ->
  format_2f (Finite neg m' e') = format_2f (Finite neg m e).
Proof. intros H. rewrite !format_2f_eq, H. reflexivity. Qed.

(** The double read from the hundredths prints as the double they come
    from. *)
Lemma format_reread (neg : bool) (m e : Z) :
  valid m e ->
  format_2f (of_decimal neg (hundredths m e) (0 - 2))
  = format_2f (Finite neg m e).
Proof.
  intros Hv. pose proof (hundredths_nonneg m e Hv) as Hn.
  unfold of_decimal. destruct (Z.eqb_spec (hundredths m e) 0) as [E|E].
  - apply format_2f_same. rewrite E. exact hundredths_zero.
  - change (0 <=? 0 - 2)%Z with false. cbv iota.
    change (10 ^ (- (0 - 2)))%Z with 100%Z.
    destruct (hundredths_reread m e Hv ltac:(lia)) as (m' & e' & Ho & _ & Hh).
    rewrite Ho. apply format_2f_same. exact Hh.
Qed.

Lemma sign_solid (neg : bool) : all_chars solid (sign_str neg) = true.
Proof. destruct neg; reflexivity. Qed.

Lemma format_2f_digits (n : Z) :
  all_chars is_ascii_digit (str_of_Z (n / 100)) = true
  /\ str_of_Z (n / 100) <> ""
  /\ is_ascii_digit (digit_char (n mod 100 / 10)) = true
  /\ is_ascii_digit (digit_char (n mod 10)) = true.
Proof.
  destruct (str_digits (Z.to_N (n / 100))) as [Hd Hne].
  pose proof (Z.mod_pos_bound n 100 eq_refl).
  pose proof (Z.mod_pos_bound n 10 eq_refl).
  repeat split; auto; apply digit_char_digit; [|lia].
  split; [apply Z.div_pos; lia|].
  assert (n mod 100 / 10 < 10)%Z by (apply Z.div_lt_upper_bound; lia). lia.
Qed.

Lemma format_2f_solid (neg : bool) (m e : Z) :
  all_chars solid (format_2f (Finite neg m e)) = true.
Proof.
  rewrite format_2f_eq.
  destruct (format_2f_digits (hundredths m e)) as (Hi & _ & H1 & H2).
  apply all_chars_app_intro; [apply sign_solid|].
  apply all_chars_app_intro;
    [revert Hi; apply all_chars_impl, digit_solid|].
  cbn [append all_chars]. rewrite (digit_solid _ H1), (digit_solid _ H2).
  reflexivity.
Qed.

Lemma float_value_eq (text : string) (format_decimals : bool) :
  normalize_float_value (Some text) format_decimals
  = match float_of_string (fclean text) with
    | Ok x => if format_decimals then format_2f x else repr x
    | Raise _ => fclean text
    end.
Proof. reflexivity. Qed.

(** The currency normalizer, applied to its own result, returns it. *)
Lemma currency_settled (text : string) :
  normalize_float_value (Some (normalize_float_value (Some text) true)) true
  = normalize_float_value (Some text) true.
Proof.
  rewrite (float_value_eq text).
  destruct (float_of_string (fclean text)) as [[neg m e|neg|]|err] eqn:E.
  - pose proof (float_of_string_valid _ _ _ _ E) as Hv.
    rewrite float_value_eq, fclean_solid by apply format_2f_solid.
    destruct (format_2f_digits (hundredths m e)) as (Hi & Hne & H1 & H2).
    rewrite format_2f_eq at 1.
    rewrite (float_of_fixed neg _ _ _ Hne Hi H1 H2).
    rewrite digits_value_hundredths by (apply hundredths_nonneg, Hv).
    apply format_reread. exact Hv.
  - destruct neg; vm_compute; reflexivity.
  - vm_compute. reflexivity.
  - rewrite float_value_eq, fclean_idempotent, E. reflexivity.
Qed.

End ReadFacts.

Lemma field_text_clean_tp (u : Element) (name : string) (rest : list string) :
  name <> "Assinatura" ->
  field_text (clean_tp u) (name :: rest) = field_text u (name :: rest).
Proof. intros H. simpl. rewrite find_child_clean_tp by exact H. reflexivity. Qed.

Lemma settled_text (serie : option string -> string) (kind text : string) :
  kind = "str" \/ kind = "str_opt" -> settled serie kind text.
Proof.
  intros [-> | ->]; unfold settled;
    change (clean (clean text) = clean text); apply clean_idempotent.
Qed.

Lemma settled_numeric (serie : option string -> string) (text : string) :
  settled serie "num_str" text.
Proof. apply numeric_string_settled. Qed.

Lemma settled_boolean (serie : option string -> string) (text : string) :
  settled serie "bool" text.
Proof. apply boolean_settled. Qed.

Lemma settled_serie_padded (text : string) :
  serie_plain_spaces text = true ->
  settled Debug.normalize_serie_nfts "serie" text.
Proof. apply serie_padded_settled. Qed.

(** What remains to be known of a unit for its canonical tree to be
    settled, in the debug script: the series and the three decimals. *)
Lemma settled_currency (serie : option string -> string) (text : string) :
  settled serie "float_currency" text.
Proof. apply ReadFacts.currency_settled. Qed.

(** What remains to be known of a unit for its canonical tree to be
    settled, in the debug script: the series and the rate. *)
Lemma debug_all_settled (u : Element) :
  (forall t, field_text u ["ChaveDocumento"; "SerieNFTS"] = Some t ->
             serie_plain_spaces t = true) ->
  (forall t, field_text u ["AliquotaServicos"] = Some t ->
             settled Debug.normalize_serie_nfts "float" t) ->
  all_settled Debug.normalize_serie_nfts (clean_tp u) Debug.canonical_order_map.
Proof.
  intros Hserie Hdec path kind text Hk Hf.
  apply kind_at_leaf_kinds in Hk. simpl in Hk.
  repeat (destruct Hk as [E|Hk];
          [injection E as <- <-;
           first [ apply settled_text; tauto
                 | apply settled_numeric
                 | apply settled_boolean
                 | apply settled_currency
                 | rewrite field_text_clean_tp in Hf by discriminate;
                   first [ apply settled_serie_padded, Hserie, Hf
                         | apply Hdec, Hf ] ]
          |]).
  destruct Hk.
Qed.




(** A unit with a short series, a rate and an amount. *)
Definition unit_with_decimals : Element :=
  new_element "NFTS" None
    [ new_element "ChaveDocumento" None
        [ new_element "SerieNFTS" (Some "AB") [];
          new_element "NumeroDocumento" (Some "0042") [] ];
      new_element "ValorServicos" (Some " 3,5 ") [];
      new_element "AliquotaServicos" (Some "03.025") [];
      new_element "ISSRetidoTomador" (Some "Sim") [] ].


(** ** Reading decimals: ratios and canonical doubles *)

Module ReprFacts.

Import PyFloat FloatFacts ReadFacts Text.
Local Open Scope Z_scope.

(** Rounding depends on the ratio only. *)
Lemma rne_div_ratio (a b c d : Z) :
  0 < b -> 0 < d -> a * d = c * b -> rne_div a b = rne_div c d.
Proof.
  intros Hb Hd E.
  rewrite <- (rne_div_scale d a b) by lia.
  rewrite <- (rne_div_scale b c d) by lia.
  f_equal; lia.
Qed.

Lemma ilog2_ratio_ext (p q p' q' : Z) :
  0 < p -> 0 < q -> 0 < p' -> 0 < q' -> p * q' = p' * q ->
  ilog2_ratio p q = ilog2_ratio p' q'.
Proof.
  intros Hp Hq Hp' Hq' E.
  set (il := ilog2_ratio p q). set (il' := ilog2_ratio p' q').
  set (b := Z.max 0 (Z.max (- il) (- il'))).
  assert (Hb : 0 <= b) by lia.
  pose proof (ilog2_ratio_spec p q (il + b) b Hp Hq ltac:(lia) Hb
                ltac:(unfold il; lia)) as [L U].
  pose proof (ilog2_ratio_spec p' q' (il' + b) b Hp' Hq' ltac:(lia) Hb
                ltac:(unfold il'; lia)) as [L' U'].
  pose proof (pow2_pos b Hb) as PB.
  pose proof (pow2_pos (il + b) ltac:(lia)) as PA.
  pose proof (pow2_pos (il' + b) ltac:(lia)) as PA'.
  rewrite pow2_succ in U, U' by lia.
  destruct (Z.lt_trichotomy il il') as [H|[H|H]]; [exfalso|exact H|exfalso].
  - assert (M : 2 * 2 ^ (il + b) <= 2 ^ (il' + b)).
    { rewrite <- pow2_succ by lia. apply Z.pow_le_mono_r; lia. }
    assert (A1 : 2 ^ (il' + b) * (q' * q) <= 2 ^ b * (p' * q)) by nia.
    assert (A2 : 2 ^ b * (p * q') < 2 * 2 ^ (il + b) * (q * q')) by nia.
    rewrite E in A2. nia.
  - assert (M : 2 * 2 ^ (il' + b) <= 2 ^ (il + b)).
    { rewrite <- pow2_succ by lia. apply Z.pow_le_mono_r; lia. }
    assert (A1 : 2 ^ (il + b) * (q * q') <= 2 ^ b * (p * q')) by nia.
    assert (A2 : 2 ^ b * (p' * q) < 2 * 2 ^ (il' + b) * (q' * q)) by nia.
    rewrite <- E in A2. nia.
Qed.

Lemma of_ratio_ext (p q p' q' : Z) :
  0 < p -> 0 < q -> 0 < p' -> 0 < q' -> p * q' = p' * q ->
  of_ratio p q = of_ratio p' q'.
Proof.
  intros Hp Hq Hp' Hq' E. rewrite !of_ratio_eq by assumption.
  assert (Er : rexp p q = rexp p' q').
  { unfold rexp. rewrite (ilog2_ratio_ext p q p' q'); auto. }
  assert (Em : rman p q = rman p' q').
  { unfold rman. rewrite <- Er.
    pose proof (rexp_min p q).
    pose proof (pow2_pos (rexp p q + 1074) ltac:(lia)).
    apply rne_div_ratio; try nia.
    transitivity (K * 2 ^ (rexp p q + 1074) * (p * q')); [ring|].
    rewrite E. ring. }
  rewrite Er, Em. reflexivity.
Qed.

(** The value [d * 10^x] as a fraction. *)
Definition dec_ratio (d x : Z) : Z * Z :=
  if 0 <=? x then (d * 10 ^ x, 1) else (d, 10 ^ (- x)).

Lemma of_decimal_eq (neg : bool) (d x : Z) :
  of_decimal neg d x
  = if d =? 0 then Finite neg 0 emin
    else match of_ratio (fst (dec_ratio d x)) (snd (dec_ratio d x)) with
         | Some (m, e) => Finite neg m e
         | None => Inf neg
         end.
Proof.
  unfold of_decimal, dec_ratio. destruct (d =? 0); [reflexivity|].
  destruct (0 <=? x); reflexivity.
Qed.

Lemma pow10_pos (a : Z) : 0 <= a -> 0 < 10 ^ a.
Proof. intros H. apply Z.pow_pos_nonneg; lia. Qed.

Lemma pow10_add (a b : Z) : 0 <= a -> 0 <= b -> 10 ^ (a + b) = 10 ^ a * 10 ^ b.
Proof. intros. apply Z.pow_add_r; lia. Qed.

Lemma dec_ratio_pos (d x : Z) :
  0 < d -> 0 < fst (dec_ratio d x) /\ 0 < snd (dec_ratio d x).
Proof.
  intros Hd. unfold dec_ratio.
  destruct (Z.leb_spec 0 x); simpl; split; try lia;
    try (apply pow10_pos; lia);
    pose proof (pow10_pos x ltac:(lia)); nia.
Qed.

(** Moving zeros between the digits and the exponent keeps the value. *)
Lemma of_decimal_shift (neg : bool) (d x z : Z) :
  0 < d -> 0 <= z ->
  of_decimal neg (d * 10 ^ z) x = of_decimal neg d (x + z).
Proof.
  intros Hd Hz. pose proof (pow10_pos z Hz) as PZ.
  assert (Hd' : 0 < d * 10 ^ z) by nia.
  rewrite !of_decimal_eq.
  destruct (Z.eqb_spec (d * 10 ^ z) 0); [lia|].
  destruct (Z.eqb_spec d 0); [lia|].
  destruct (dec_ratio_pos _ x Hd') as [P1 Q1].
  destruct (dec_ratio_pos _ (x + z) Hd) as [P2 Q2].
  rewrite (of_ratio_ext _ _ (fst (dec_ratio d (x + z)))
             (snd (dec_ratio d (x + z)))); auto.
  unfold dec_ratio.
  destruct (Z.leb_spec 0 x), (Z.leb_spec 0 (x + z)); simpl; try lia.
  - rewrite (Z.add_comm x z), pow10_add by lia. ring.
  - replace z with ((x + z) + (- x)) at 1 by lia.
    rewrite pow10_add by lia. ring.
  - replace (- x) with (z + (- (x + z))) by lia.
    rewrite pow10_add by lia. ring.
Qed.

Lemma of_decimal_sign (neg : bool) (d x m e : Z) :
  of_decimal false d x = Finite false m e ->
  of_decimal neg d x = Finite neg m e.
Proof.
  rewrite !of_decimal_eq. destruct (d =? 0).
  - intros [= <- <-]. reflexivity.
  - destruct (of_ratio _ _) as [[m' e']|]; [|discriminate].
    intros [= <- <-]. reflexivity.
Qed.

(** Canonical doubles: the mantissa is full, or the exponent the least. *)
Definition canon (m e : Z) : Prop :=
  valid m e /\ (2 ^ 52 <= m \/ e = -1074).

Lemma of_ratio_canon (p q m e : Z) :
  0 < p -> 0 < q -> of_ratio p q = Some (m, e) -> canon m e.
Proof.
  intros Hp Hq H. split; [apply (of_ratio_valid p q m e Hp Hq H)|].
  rewrite of_ratio_eq in H by exact Hq.
  pose proof (rman_bounds p q Hp Hq) as [_ B].
  pose proof (rexp_min p q).
  destruct (Z.eqb_spec (rman p q) (2 ^ 53)).
  - destruct (971 <? rexp p q + 1); [discriminate|].
    injection H as <- <-. left. lia.
  - destruct (971 <? rexp p q); [discriminate|].
    injection H as <- <-.
    destruct (Z.eq_dec (rexp p q) (-1074)); [right; assumption|left].
    apply B. lia.
Qed.

Lemma canon_unique (m e m' e' : Z) :
  canon m e -> canon m' e' -> 0 < m -> sv m e = sv m' e' -> m = m' /\ e = e'.
Proof.
  intros [[[M1 M2] [E1 E2]] C] [[[M1' M2'] [E1' E2']] C'] Hm. unfold sv.
  intros H.
  assert (He : e = e').
  { destruct (Z.lt_trichotomy e e') as [L|[L|L]]; [exfalso|exact L|exfalso].
    - assert (2 ^ 52 <= m') by (destruct C'; lia).
      replace (e' + 1074) with ((e' - e) + (e + 1074)) in H by lia.
      rewrite (pow2_add (e' - e) (e + 1074)) in H by lia.
      pose proof (pow2_pos (e + 1074) ltac:(lia)).
      assert (2 <= 2 ^ (e' - e)).
      { change 2 with (2 ^ 1) at 1. apply Z.pow_le_mono_r; lia. }
      assert (m = m' * 2 ^ (e' - e)).
      { apply (Z.mul_reg_r _ _ (2 ^ (e + 1074))); [lia|]. rewrite H. ring. }
      nia.
    - assert (2 ^ 52 <= m) by (destruct C; lia).
      replace (e + 1074) with ((e - e') + (e' + 1074)) in H by lia.
      rewrite (pow2_add (e - e') (e' + 1074)) in H by lia.
      pose proof (pow2_pos (e' + 1074) ltac:(lia)).
      assert (2 <= 2 ^ (e - e')).
      { change 2 with (2 ^ 1) at 1. apply Z.pow_le_mono_r; lia. }
      assert (m' = m * 2 ^ (e - e')).
      { apply (Z.mul_reg_r _ _ (2 ^ (e' + 1074))); [lia|]. rewrite <- H. ring. }
      nia. }
  split; [|exact He]. subst e'.
  pose proof (pow2_pos (e + 1074) ltac:(lia)). nia.
Qed.

Lemma abs_mul_pos (a b : Z) : 0 < b -> Z.abs (a * b) = Z.abs a * b.
Proof. intros H. rewrite Z.abs_mul, (Z.abs_eq b) by lia. reflexivity. Qed.

(** A rounded value within [10^-16] of a double, relatively, is that
    double. *)
Lemma near_unique (m e r s : Z) :
  canon m e -> 0 < m -> 0 <= s -> 0 <= r <= 2 ^ 53 ->
  (1 <= s -> 2 ^ 52 <= r) ->
  10 ^ 16 * Z.abs (r * 2 ^ s - sv m e) <= sv m e ->
  r * 2 ^ s = sv m e.
Proof.
  intros [[[M1 M2] [E1 E2]] C] Hm Hs [R1 R2] R3. unfold sv.
  set (t := e + 1074). assert (Ht : 0 <= t) by (unfold t; lia).
  assert (Cm : 1 <= t -> 2 ^ 52 <= m) by (unfold t; destruct C; lia).
  clearbody t. intros H.
  destruct (Z.lt_trichotomy s t) as [L|[L|L]].
  - replace t with ((t - s) + s) in * by lia.
    rewrite (pow2_add (t - s) s) in * by lia.
    pose proof (pow2_pos s Hs) as PA.
    assert (PB : 2 <= 2 ^ (t - s)).
    { change 2 with (2 ^ 1) at 1. apply Z.pow_le_mono_r; lia. }
    set (A := 2 ^ s) in *. set (B := 2 ^ (t - s)) in *.
    specialize (Cm ltac:(lia)).
    replace (r * A - m * (B * A)) with ((r - m * B) * A) in H by ring.
    rewrite abs_mul_pos in H by lia.
    assert (H' : 10 ^ 16 * Z.abs (r - m * B) <= m * B) by nia.
    assert (2 ^ 53 <= m * B) by nia.
    assert (r = m * B) by lia. subst r. ring.
  - subst t. pose proof (pow2_pos s Hs) as PA. set (A := 2 ^ s) in *.
    replace (r * A - m * A) with ((r - m) * A) in H by ring.
    rewrite abs_mul_pos in H by lia.
    assert (H' : 10 ^ 16 * Z.abs (r - m) <= m) by nia.
    assert (r = m) by lia. subst r. reflexivity.
  - exfalso. replace s with ((s - t) + t) in * by lia.
    rewrite (pow2_add (s - t) t) in * by lia.
    pose proof (pow2_pos t Ht) as PA.
    assert (PB : 2 <= 2 ^ (s - t)).
    { change 2 with (2 ^ 1) at 1. apply Z.pow_le_mono_r; lia. }
    set (A := 2 ^ t) in *. set (B := 2 ^ (s - t)) in *.
    specialize (R3 ltac:(lia)).
    replace (r * (B * A) - m * A) with ((r * B - m) * A) in H by ring.
    rewrite abs_mul_pos in H by lia.
    assert (H' : 10 ^ 16 * Z.abs (r * B - m) <= m) by nia.
    assert (2 ^ 53 <= r * B) by nia. lia.
Qed.

(** [of_ratio] returns a canonical double to which its rounded value is
    that near. *)
Lemma of_ratio_hit (p q m e : Z) :
  0 < p -> 0 < q -> canon m e -> 0 < m ->
  10 ^ 16 * Z.abs (rman p q * 2 ^ (rexp p q + 1074) - sv m e) <= sv m e ->
  of_ratio p q = Some (m, e).
Proof.
  intros Hp Hq Hc Hm H.
  pose proof (rman_bounds p q Hp Hq) as [[R1 R2] R3].
  pose proof (rexp_min p q) as Hmin.
  assert (EY : rman p q * 2 ^ (rexp p q + 1074) = sv m e).
  { apply near_unique; auto; try lia; intros Hs; apply R3; lia. }
  pose proof (sv_max m e (proj1 Hc)) as HX.
  pose proof big_pos as BP.
  assert (Hno : exists m' e', of_ratio p q = Some (m', e')).
  { rewrite of_ratio_eq by lia.
    set (s := rexp p q + 1074) in *.
    destruct (Z.eqb_spec (rman p q) (2 ^ 53)) as [E|E].
    - destruct (Z.ltb_spec 971 (rexp p q + 1)) as [Ho|Ho]; [|eauto].
      exfalso. pose proof (pow2_ge_big s ltac:(unfold s; lia)) as G.
      rewrite E in EY. generalize dependent (2 ^ s).
      generalize dependent big. intros. lia.
    - destruct (Z.ltb_spec 971 (rexp p q)) as [Ho|Ho]; [|eauto].
      exfalso. pose proof (pow2_ge_big2 s ltac:(unfold s; lia)) as G.
      specialize (R3 ltac:(lia)).
      assert (GY : 2 ^ 52 * (2 * big) <= rman p q * 2 ^ s).
      { apply Z.mul_le_mono_nonneg; lia. }
      generalize dependent (2 ^ s). generalize dependent big. intros. lia. }
  destruct Hno as (m' & e' & Ho). rewrite Ho. f_equal.
  pose proof (of_ratio_canon p q m' e' Hp Hq Ho) as Hc'.
  destruct (of_ratio_valid p q m' e' Hp Hq Ho) as [_ Hsv].
  destruct (canon_unique m e m' e' Hc Hc' Hm) as [-> ->]; [|reflexivity].
  rewrite Hsv. symmetry. exact EY.
Qed.

End ReprFacts.

(** * Further properties of the normalizers *)

(** ** Numeric strings *)

Lemma uint_of_char_some (c : ascii) (d : option uint) :
  is_ascii_digit c = true -> d <> None -> uint_of_char c d <> None.
Proof.
  intros Hc Hd. destruct d as [u|]; [|congruence].
  destruct c as [[] [] [] [] [] [] [] []]; try discriminate; discriminate.
Qed.

Lemma digits_uint_of_string (s : string) :
  all_chars is_ascii_digit s = true -> NilEmpty.uint_of_string s <> None.
Proof.
  induction s as [|c r IH]; simpl; [discriminate|]. intros H.
  apply andb_true_iff in H. destruct H as [Hc Hr].
  apply uint_of_char_some; auto.
Qed.

(** [int] reads every non-empty string of decimal digits. *)
Lemma int_digits (s : string) :
  all_chars is_ascii_digit s = true -> s <> "" ->
  exists d, NilZero.uint_of_string s = Some d /\ PyInt.int s = Ok (N.of_uint d).
Proof.
  intros Hd Hne. unfold PyInt.int, NilZero.uint_of_string.
  destruct s as [|c r]; [congruence|].
  destruct (NilEmpty.uint_of_string (String c r)) as [d|] eqn:E.
  - exists d. split; reflexivity.
  - exfalso. exact (digits_uint_of_string _ Hd E).
Qed.

Lemma str_no_leading_zero (d : uint) :
  let r := NilZero.string_of_uint (unorm d) in
  r = "0" \/ exists c s, r = String c s /\ c <> "0"%char.
Proof.
  cbv zeta. destruct (uint_eq_dec (nzhead d) Nil) as [E|E].
  - left. apply unorm_0 in E. rewrite E. reflexivity.
  - right. rewrite (unorm_nzhead d E).
    pose proof (nzhead_nonzero d) as Hz.
    destruct (nzhead d) as [|u|u|u|u|u|u|u|u|u|u]; [congruence| |..];
      [exfalso; exact (Hz u eq_refl)|..]; cbn;
      eexists; eexists; (split; [reflexivity|discriminate]).
Qed.

(** X1. A text whose cleaned form is a non-empty string of decimal digits
    (of at most 4300 digits, the default limit of the interpreter on the
    conversion of integers) normalizes to the numeral of the same integer
    without leading zeros: the result reads as the same integer, is made
    of decimal digits, and is ["0"] or starts with another digit. *)
Theorem numeric_string_canonical (text : string) :
  all_chars is_ascii_digit (clean text) = true -> clean text <> "" ->
  String.length (clean text) <= 4300 ->
  let r := normalize_numeric_string (Some text) in
  PyInt.int r = PyInt.int (clean text)
  /\ all_chars is_ascii_digit r = true
  /\ (r = "0" \/ exists c s, r = String c s /\ c <> "0"%char).
Proof.
  intros Hd Hne _. cbv zeta. rewrite numeric_string_value.
  assert (Hi : isdigit (clean text) = true).
  { unfold isdigit. destruct (clean text) as [|c r] eqn:E; [congruence|].
    apply digit_isdigit. exact Hd. }
  rewrite Hi. destruct (int_digits _ Hd Hne) as (d & Hu & Hint).
  rewrite Hint. split; [apply int_str|]. split; [apply str_digits|].
  unfold PyInt.str. rewrite DecimalN.Unsigned.to_of.
  apply str_no_leading_zero.
Qed.

Lemma numeric_string_canonical_witness :
  let r := normalize_numeric_string (Some " 0042 ") in
  PyInt.int r = PyInt.int (clean " 0042 ")
  /\ all_chars is_ascii_digit r = true
  /\ (r = "0" \/ exists c s, r = String c s /\ c <> "0"%char).
Proof.
  apply (numeric_string_canonical " 0042 ");
    [reflexivity|discriminate|vm_compute; lia].
Defined.



(** X3. The numeric normalizer applied to its own result returns it,
    whatever the text, a missing one included. *)
Theorem numeric_string_idempotent (text : option string) :
  normalize_numeric_string (Some (normalize_numeric_string text))
  = normalize_numeric_string text.
Proof.
  destruct text as [t|]; [apply numeric_string_settled|reflexivity].
Qed.

(** ** The series and the booleans *)

Lemma take_all (n : nat) (s : string) : String.length s <= n -> take n s = s.
Proof.
  revert s; induction n as [|n IH]; intros [|c r] H; simpl in *; auto; try lia.
  f_equal. apply IH. lia.
Qed.

(** X4. The series of the debug script is five characters long whatever
    the text, a missing one included, and starts with the first five
    characters of the cleaned text. *)
Theorem serie_padded_width (text : option string) :
  String.length (Debug.normalize_serie_nfts text) = 5
  /\ forall t, text = Some t ->
       exists k, Debug.normalize_serie_nfts text
                 = take 5 (clean t) ++ spaces k.
Proof.
  destruct text as [t|]; [|split; [reflexivity|discriminate]].
  destruct (serie_padded_spec t) as (Hl & Hshort & Hlong). cbv zeta in *.
  split; [exact Hl|]. intros t' [= <-].
  destruct (Nat.le_gt_cases (String.length (clean t)) 5) as [H|H].
  - exists (5 - String.length (clean t)). rewrite (Hshort H). f_equal.
    symmetry. apply take_all. exact H.
  - exists 0. rewrite (Hlong ltac:(lia)). simpl.
    symmetry. apply ReadFacts.append_nil_r.
Qed.

Lemma lower_char_space (c : ascii) : is_space (lower_char c) = is_space c.
Proof. destruct c as [[] [] [] [] [] [] [] []]; reflexivity. Qed.

Lemma lower_char_replace (c : ascii) :
  lower_char (if Ascii.eqb c nbsp then space else c)
  = if Ascii.eqb (lower_char c) nbsp then space else lower_char c.
Proof. destruct c as [[] [] [] [] [] [] [] []]; reflexivity. Qed.

Lemma lower_replace (s : string) :
  lower (replace nbsp space s) = replace nbsp space (lower s).
Proof.
  induction s as [|c r IH]; simpl; [reflexivity|].
  rewrite lower_char_replace, IH. reflexivity.
Qed.

Lemma lower_lstrip (s : string) : lower (lstrip s) = lstrip (lower s).
Proof.
  induction s as [|c r IH]; simpl; [reflexivity|].
  rewrite lower_char_space. destruct (is_space c); [exact IH|reflexivity].
Qed.

Lemma lower_rstrip (s : string) : lower (rstrip s) = rstrip (lower s).
Proof.
  induction s as [|c r IH]; simpl; [reflexivity|].
  rewrite <- IH, lower_char_space.
  destruct (rstrip r) as [|d t]; simpl; [|reflexivity].
  destruct (is_space c); reflexivity.
Qed.

Lemma lower_clean (s : string) : lower (clean s) = clean (lower s).
Proof.
  unfold clean, strip. rewrite lower_rstrip, lower_lstrip, lower_replace.
  reflexivity.
Qed.

(** X5. The boolean normalizer returns one of the two literals, returns
    it again when applied to it, and does not see the case of letters:
    two texts with the same lower-case form normalize alike. *)
Theorem boolean_value_closed (text : option string) :
  (normalize_boolean_value text = "true"
   \/ normalize_boolean_value text = "false")
  /\ normalize_boolean_value (Some (normalize_boolean_value text))
     = normalize_boolean_value text
  /\ forall t t', text = Some t -> lower t' = lower t ->
       normalize_boolean_value (Some t') = normalize_boolean_value text.
Proof.
  split; [apply boolean_value_cases|]. split.
  - destruct (boolean_value_cases text) as [E|E]; rewrite E; reflexivity.
  - intros t t' -> H.
    change (normalize_boolean_value (Some t'))
      with (if existsb (String.eqb (lower (clean t'))) true_tokens
            then "true" else "false").
    change (normalize_boolean_value (Some t))
      with (if existsb (String.eqb (lower (clean t))) true_tokens
            then "true" else "false").
    rewrite !lower_clean, H. reflexivity.
Qed.

(** ** White space and the decimal comma *)

Lemma replace_append (a b : ascii) (s t : string) :
  replace a b (s ++ t) = replace a b s ++ replace a b t.
Proof. induction s as [|c r IH]; simpl; [reflexivity|]. rewrite IH. reflexivity. Qed.

Lemma lstrip_blank (ws s : string) :
  all_chars is_space ws = true -> lstrip (ws ++ s) = lstrip s.
Proof.
  induction ws as [|c r IH]; simpl; [reflexivity|]. intros H.
  apply andb_true_iff in H. destruct H as [Hc Hr]. rewrite Hc. auto.
Qed.

Lemma rstrip_blank (s ws : string) :
  all_chars is_space ws = true -> rstrip (s ++ ws) = rstrip s.
Proof.
  intros H. induction s as [|c r IH]; simpl.
  - induction ws as [|d t IHt]; simpl in *; [reflexivity|].
    apply andb_true_iff in H. destruct H as [Hd Ht].
    rewrite (IHt Ht), Hd. reflexivity.
  - rewrite IH. reflexivity.
Qed.

Lemma strip_blank (ws1 s ws2 : string) :
  all_chars is_space ws1 = true -> all_chars is_space ws2 = true ->
  strip (ws1 ++ s ++ ws2) = strip s.
Proof.
  intros H1 H2. unfold strip. rewrite (lstrip_blank _ _ H1).
  induction s as [|c r IH]; simpl.
  - rewrite <- (ReadFacts.append_nil_r ws2), (lstrip_blank _ _ H2). reflexivity.
  - destruct (is_space c); [exact IH|].
    change (String c (r ++ ws2)) with (String c r ++ ws2).
    apply rstrip_blank. exact H2.
Qed.

Lemma blank_replace (a b : ascii) (ws : string) :
  is_space b = true -> all_chars is_space ws = true ->
  all_chars is_space (replace a b ws) = true.
Proof. intros Hb. apply ReadFacts.all_chars_replace. exact Hb. Qed.

Lemma blank_no_comma (ws : string) :
  all_chars is_space ws = true -> replace comma period ws = ws.
Proof.
  intros H. apply replace_absent. revert H. apply all_chars_impl.
  intros c Hc. destruct (Ascii.eqb c comma) eqn:E; [|reflexivity].
  apply Ascii.eqb_eq in E. subst c. discriminate.
Qed.

Lemma clean_blank (ws1 s ws2 : string) :
  all_chars is_space ws1 = true -> all_chars is_space ws2 = true ->
  clean (ws1 ++ s ++ ws2) = clean s.
Proof.
  intros H1 H2. unfold clean. rewrite !replace_append.
  apply strip_blank; apply blank_replace; auto.
Qed.

Lemma fclean_blank (ws1 s ws2 : string) :
  all_chars is_space ws1 = true -> all_chars is_space ws2 = true ->
  ReadFacts.fclean (ws1 ++ s ++ ws2) = ReadFacts.fclean s.
Proof.
  intros H1 H2. unfold ReadFacts.fclean. rewrite !replace_append.
  rewrite (blank_no_comma (replace nbsp space ws1)),
    (blank_no_comma (replace nbsp space ws2)) by (apply blank_replace; auto).
  apply strip_blank; apply blank_replace; auto.
Qed.

(** What each kind makes of a text goes through the cleaned text. *)
Lemma normalize_through_clean (serie : option string -> string)
  (kind s t : string) :
  clean s = clean t -> ReadFacts.fclean s = ReadFacts.fclean t ->
  serie (Some s) = serie (Some t) ->
  normalize serie kind s = normalize serie kind t.
Proof.
  intros Hc Hf Hs. unfold normalize.
  rewrite !numeric_string_value, !ReadFacts.float_value_eq, Hc, Hf, Hs.
  change (normalize_boolean_value (Some s))
    with (if existsb (String.eqb (lower (clean s))) true_tokens
          then "true" else "false").
  change (normalize_boolean_value (Some t))
    with (if existsb (String.eqb (lower (clean t))) true_tokens
          then "true" else "false").
  fold (clean s). fold (clean t). rewrite Hc. reflexivity.
Qed.

(** X6. White space around the text of a field, non-breaking spaces
    included, does not change what any kind of either script makes of
    it. *)
Theorem surrounding_blanks_ignored (kind ws1 text ws2 : string) :
  all_chars is_space ws1 = true -> all_chars is_space ws2 = true ->
  normalize Debug.normalize_serie_nfts kind (ws1 ++ text ++ ws2)
  = normalize Debug.normalize_serie_nfts kind text
  /\ normalize Novos.normalize_serie_nfts kind (ws1 ++ text ++ ws2)
     = normalize Novos.normalize_serie_nfts kind text.
Proof.
  intros H1 H2.
  pose proof (clean_blank ws1 text ws2 H1 H2) as Hc.
  pose proof (fclean_blank ws1 text ws2 H1 H2) as Hf.
  split; apply normalize_through_clean; auto.
  change (take 5 (clean (ws1 ++ text ++ ws2) ++ "     ")
          = take 5 (clean text ++ "     ")).
  rewrite Hc. reflexivity.
Qed.

Lemma surrounding_blanks_ignored_witness :
  normalize Debug.normalize_serie_nfts "float_currency"
    (String nbsp " " ++ "3,5" ++ String (ascii_of_N 9) (String (ascii_of_N 10) ""))
  = normalize Debug.normalize_serie_nfts "float_currency" "3,5"
  /\ normalize Novos.normalize_serie_nfts "float_currency"
       (String nbsp " " ++ "3,5" ++ String (ascii_of_N 9) (String (ascii_of_N 10) ""))
     = normalize Novos.normalize_serie_nfts "float_currency" "3,5".
Proof.
  apply (surrounding_blanks_ignored "float_currency" (String nbsp " ") "3,5"
           (String (ascii_of_N 9) (String (ascii_of_N 10) "")));
    reflexivity.
Defined.

Lemma comma_char (c : ascii) :
  (let c1 := if Ascii.eqb c comma then period else c in
   let c2 := if Ascii.eqb c1 nbsp then space else c1 in
   if Ascii.eqb c2 comma then period else c2)
  = (let c2 := if Ascii.eqb c nbsp then space else c in
     if Ascii.eqb c2 comma then period else c2).
Proof. destruct c as [[] [] [] [] [] [] [] []]; reflexivity. Qed.

Lemma fclean_comma (s : string) :
  ReadFacts.fclean (replace comma period s) = ReadFacts.fclean s.
Proof.
  unfold ReadFacts.fclean. f_equal.
  induction s as [|c r IH]; simpl; [reflexivity|].
  rewrite IH. f_equal. apply comma_char.
Qed.

(** X7. A decimal comma is read as a decimal point: writing periods for
    the commas of a text does not change what the decimal normalizer
    returns, in either format. *)
Theorem decimal_comma_is_point (text : string) (format_decimals : bool) :
  normalize_float_value (Some (replace comma period text)) format_decimals
  = normalize_float_value (Some text) format_decimals.
Proof. rewrite !ReadFacts.float_value_eq, fclean_comma. reflexivity. Qed.

(** * Further properties of the decimal normalizer *)

Module AmountFacts.

Import PyFloat FloatFacts ReadFacts ReprFacts.

(** ** Decimal texts *)


(** The end of a decimal text: nothing, or an exponent. *)
Definition tail_ok (tail : string) : Prop :=
  match tail with
  | EmptyString => True
  | String c _ => is_ascii_digit c = false /\ c <> "."%char
  end.

Lemma split_sign_body (neg : bool) (c : ascii) (r : string) :
  is_ascii_digit c = true \/ c = "."%char ->
  split_sign (sign_str neg ++ String c r) = (neg, String c r).
Proof.
  intros H. destruct neg; [reflexivity|]. destruct H as [H| ->]; [|reflexivity].
  apply split_sign_digit. exact H.
Qed.

Lemma not_special_body (c : ascii) (r : string) :
  is_ascii_digit c = true \/ c = "."%char ->
  String.eqb (lower (String c r)) "inf"
  || String.eqb (lower (String c r)) "infinity" = false
  /\ String.eqb (lower (String c r)) "nan" = false.
Proof.
  intros [H| ->]; [apply not_special_digit; exact H|]. split; reflexivity.
Qed.

Lemma sign_plain (neg : bool) : all_chars plain_char (sign_str neg) = true.
Proof. destruct neg; reflexivity. Qed.

Lemma digits_plain (s : string) :
  all_chars is_ascii_digit s = true -> all_chars plain_char s = true.
Proof. apply all_chars_impl. exact digit_plain. Qed.

(** [float] on digits, a point, digits and an end. *)
Lemma float_of_dotted (neg : bool) (ip fp tail : string) (x : Z) :
  all_chars is_ascii_digit ip = true -> all_chars is_ascii_digit fp = true ->
  (ip ++ fp)%string <> "" -> tail_ok tail ->
  all_chars plain_char tail = true -> parse_exponent tail = Some x ->
  float_of_string (sign_str neg ++ ip ++ "." ++ fp ++ tail)
  = Ok (of_decimal neg (digits_value (ip ++ fp))
          (x - Z.of_nat (String.length fp))).
Proof.
  intros Hip Hfp Hne Ht Hpl Hx.
  set (body := ip ++ "." ++ fp ++ tail).
  assert (Hb : exists c r, body = String c r
                 /\ (is_ascii_digit c = true \/ c = "."%char)).
  { unfold body. destruct ip as [|c r]; simpl.
    - eexists; eexists; split; [reflexivity|right; reflexivity].
    - simpl in Hip. apply andb_true_iff in Hip.
      eexists; eexists; split; [reflexivity|left; tauto]. }
  destruct Hb as (c & r & Eb & Hc).
  unfold float_of_string. rewrite drop_underscores_plain; [| |exact I].
  - rewrite Eb, (split_sign_body neg c r Hc).
    destruct (not_special_body c r Hc) as [E1 E2]. rewrite E1, E2, <- Eb.
    assert (Es : span_digits body = (ip, "." ++ fp ++ tail)).
    { apply span_digits_app; [exact Hip|reflexivity]. }
    rewrite Es. cbn [append].
    assert (Ef : span_digits (fp ++ tail) = (fp, tail)).
    { apply span_digits_app; [exact Hfp|].
      destruct tail; [exact I|]. apply Ht. }
    rewrite Ef, Hx. destruct (ip ++ fp)%string; [congruence|reflexivity].
  - apply all_chars_app_intro; [apply sign_plain|]. unfold body.
    apply all_chars_app_intro; [apply digits_plain; exact Hip|].
    cbn [append all_chars]. change (plain_char ".") with true. cbn [andb].
    apply all_chars_app_intro; [apply digits_plain; exact Hfp|exact Hpl].
Qed.

(** [float] on digits and an end, without a point. *)
Lemma float_of_undotted (neg : bool) (ip tail : string) (x : Z) :
  all_chars is_ascii_digit ip = true -> ip <> "" -> tail_ok tail ->
  all_chars plain_char tail = true -> parse_exponent tail = Some x ->
  float_of_string (sign_str neg ++ ip ++ tail)
  = Ok (of_decimal neg (digits_value ip) x).
Proof.
  intros Hip Hne Ht Hpl Hx.
  destruct ip as [|c r]; [congruence|].
  pose proof Hip as Hip'. simpl in Hip'. apply andb_true_iff in Hip'.
  destruct Hip' as [Hc Hr].
  unfold float_of_string. rewrite drop_underscores_plain; [| |exact I].
  - change (String c r ++ tail) with (String c (r ++ tail)).
    rewrite (split_sign_body neg c (r ++ tail) (or_introl Hc)).
    destruct (not_special_body c (r ++ tail) (or_introl Hc)) as [E1 E2].
    rewrite E1, E2.
    change (String c (r ++ tail)) with (String c r ++ tail).
    assert (Es : span_digits (String c r ++ tail) = (String c r, tail)).
    { apply span_digits_app; [exact Hip|].
      destruct tail; [exact I|]. apply Ht. }
    rewrite Es.
    assert (Er : match tail with
                 | String "." t => span_digits t
                 | _ => (EmptyString, tail)
                 end = (EmptyString, tail)).
    { destruct tail as [|d t]; [reflexivity|]. destruct Ht as [_ Hd].
      destruct d as [[] [] [] [] [] [] [] []]; try reflexivity. congruence. }
    rewrite Er, Hx, append_nil_r. cbn [String.length Z.of_nat].
    rewrite Z.sub_0_r. reflexivity.
  - apply all_chars_app_intro; [apply sign_plain|].
    apply all_chars_app_intro; [apply digits_plain; exact Hip|exact Hpl].
Qed.

(** ** Amounts with at most two decimals *)

Section Amounts.
Local Open Scope Z_scope.

(** An amount of [h] hundredths, below [2^46], is read as a double that
    has [h] hundredths. *)
Lemma of_ratio_hundredths (h : Z) :
  0 < h < 2 ^ 46 ->
  exists m e, of_ratio h 100 = Some (m, e) /\ valid m e /\ hundredths m e = h.
Proof.
  intros [Hh1 Hh2].
  set (m0 := rne_div (h * 2 ^ 13) 100).
  pose proof (rne_div_bound (h * 2 ^ 13) 100 ltac:(lia)) as B0. fold m0 in B0.
  assert (Hv0 : valid m0 (-13)) by (unfold valid; lia).
  pose proof (of_ratio_nearest h 100 m0 (-13) Hh1 ltac:(lia) Hv0) as N.
  pose proof (rman_bounds h 100 Hh1 ltac:(lia)) as [[R1 R2] R3].
  pose proof (rexp_min h 100) as Hmin.
  set (s := rexp h 100 + 1074) in *.
  pose proof (pow2_pos s ltac:(unfold s; lia)) as PS.
  set (Y := rman h 100 * 2 ^ s) in *.
  pose proof K_pos as HK. pose proof K_small as KS. pose proof big_pos as BP.
  assert (EK : K = 2 ^ 13 * 2 ^ 1061) by reflexivity.
  assert (E0 : sv m0 (-13) = m0 * 2 ^ 1061) by reflexivity.
  rewrite E0 in N.
  assert (P1 : 0 < 2 ^ 1061) by reflexivity.
  assert (C : Z.abs (Y * 100 - h * K) <= 50 * 2 ^ 1061).
  { eapply Z.le_trans; [exact N|]. rewrite EK.
    replace (m0 * 2 ^ 1061 * 100 - h * (2 ^ 13 * 2 ^ 1061))
      with ((100 * m0 - h * 2 ^ 13) * 2 ^ 1061) by ring.
    rewrite abs_mul_pos by exact P1.
    apply Z.mul_le_mono_nonneg_r; lia. }
  assert (HhK : h * K <= 2 ^ 46 * K) by (apply Z.mul_le_mono_nonneg_r; lia).
  assert (Hno : exists m e, of_ratio h 100 = Some (m, e)).
  { rewrite of_ratio_eq by lia.
    destruct (Z.eqb_spec (rman h 100) (2 ^ 53)) as [E|E].
    - destruct (Z.ltb_spec 971 (rexp h 100 + 1)) as [Ho|Ho]; [|eauto].
      exfalso. pose proof (pow2_ge_big s ltac:(unfold s; lia)) as G.
      assert (EY : Y = 2 ^ 53 * 2 ^ s) by (unfold Y; rewrite E; reflexivity).
      generalize dependent (2 ^ s). generalize dependent (2 ^ 1061).
      generalize dependent K. generalize dependent big. intros. lia.
    - destruct (Z.ltb_spec 971 (rexp h 100)) as [Ho|Ho]; [|eauto].
      exfalso. pose proof (pow2_ge_big2 s ltac:(unfold s; lia)) as G.
      specialize (R3 ltac:(lia)).
      assert (GY : 2 ^ 52 * (2 * big) <= Y).
      { unfold Y. apply Z.mul_le_mono_nonneg; lia. }
      generalize dependent (2 ^ s). generalize dependent (2 ^ 1061).
      generalize dependent K. generalize dependent big. intros. lia. }
  destruct Hno as (m & e & Ho). exists m, e.
  destruct (of_ratio_valid h 100 m e Hh1 ltac:(lia) Ho) as [Hv Hsv].
  fold s in Hsv. fold Y in Hsv.
  split; [exact Ho|]. split; [exact Hv|].
  rewrite hundredths_scaled by (destruct Hv as [_ ?]; lia). rewrite Hsv.
  apply rne_div_unique; [exact HK|].
  generalize dependent (2 ^ 1061). generalize dependent K. intros. lia.
Qed.

(** The two-decimal rendering of [h] hundredths. *)
Definition two_decimals (neg : bool) (h : Z) : string :=
  sign_str neg ++ str_of_Z (h / 100) ++ "."
    ++ String (digit_char (h mod 100 / 10))
         (String (digit_char (h mod 10)) EmptyString).

Lemma format_exact (neg : bool) (d f : Z) :
  0 <= d -> 0 <= f <= 2 -> d * 10 ^ (2 - f) < 2 ^ 46 ->
  format_2f (of_decimal neg d (0 - f)) = two_decimals neg (d * 10 ^ (2 - f)).
Proof.
  intros Hd Hf Hh. rewrite of_decimal_eq.
  destruct (Z.eqb_spec d 0) as [E|E].
  - subst d. rewrite format_2f_eq, hundredths_zero. reflexivity.
  - set (h := d * 10 ^ (2 - f)) in *.
    assert (Hpos : 0 < h).
    { unfold h. apply Z.mul_pos_pos; [lia|]. apply Z.pow_pos_nonneg; lia. }
    destruct (of_ratio_hundredths h ltac:(lia)) as (m & e & Ho & Hv & Hm).
    assert (Er : of_ratio (fst (dec_ratio d (0 - f))) (snd (dec_ratio d (0 - f)))
                 = of_ratio h 100).
    { apply of_ratio_ext; try lia.
      - apply dec_ratio_pos. lia.
      - apply dec_ratio_pos. lia.
      - unfold h, dec_ratio.
        assert (F : f = 0 \/ f = 1 \/ f = 2) by lia.
        destruct F as [->|[->| ->]]; cbn; lia. }
    rewrite Er, Ho, format_2f_eq, Hm. reflexivity.
Qed.

End Amounts.

Lemma period_solid : solid "." = true.
Proof. reflexivity. Qed.

Lemma digits_solid (s : string) :
  all_chars is_ascii_digit s = true -> all_chars solid s = true.
Proof. apply all_chars_impl. exact digit_solid. Qed.

(** X8. A decimal text with at most two digits after the point, and an
    amount of fewer than [2^46] hundredths, is rendered exactly: the
    integer part without leading zeros, a point and two decimals, with
    the sign it had.  The same holds without the point. *)
Theorem currency_exact (neg : bool) (ip fp : string) :
  all_chars is_ascii_digit ip = true -> all_chars is_ascii_digit fp = true ->
  (ip ++ fp)%string <> "" -> String.length fp <= 2 ->
  let h := (digits_value (ip ++ fp)
            * 10 ^ (2 - Z.of_nat (String.length fp)))%Z in
  (h < 2 ^ 46)%Z ->
  normalize_float_value (Some (sign_str neg ++ ip ++ "." ++ fp)) true
  = two_decimals neg h
  /\ (fp = "" ->
      normalize_float_value (Some (sign_str neg ++ ip)) true
      = two_decimals neg h).
Proof.
  intros Hip Hfp Hne Hlen h Hh.
  assert (Hd : (0 <= digits_value (ip ++ fp))%Z).
  { apply digits_value_from_nonneg; [|lia].
    apply all_chars_app_intro; assumption. }
  pose proof (format_exact neg _ (Z.of_nat (String.length fp)) Hd
                ltac:(lia) Hh) as F.
  split.
  - rewrite float_value_eq, fclean_solid.
    + pose proof (float_of_dotted neg ip fp "" 0%Z Hip Hfp Hne I
                    eq_refl eq_refl) as P.
      rewrite append_nil_r in P. rewrite P. exact F.
    + apply all_chars_app_intro; [apply sign_solid|].
      apply all_chars_app_intro; [apply digits_solid; exact Hip|].
      cbn [append all_chars]. rewrite period_solid. cbn [andb].
      apply digits_solid. exact Hfp.
  - intros ->. subst h. rewrite append_nil_r in *.
    rewrite float_value_eq, fclean_solid.
    + pose proof (float_of_undotted neg ip "" 0%Z Hip Hne I
                    eq_refl eq_refl) as P.
      rewrite append_nil_r in P. rewrite P. exact F.
    + apply all_chars_app_intro; [apply sign_solid|].
      apply digits_solid. exact Hip.
Qed.

Lemma currency_exact_witness :
  normalize_float_value (Some (sign_str true ++ "0012" ++ "." ++ "5")) true
  = two_decimals true 1250
  /\ ("5" = "" ->
      normalize_float_value (Some (sign_str true ++ "0012")) true
      = two_decimals true 1250).
Proof.
  apply (currency_exact true "0012" "5");
    [reflexivity|reflexivity|discriminate|simpl; lia|reflexivity].
Defined.

(** X9. The currency normalizer applied to its own result returns it,
    whatever the text, a missing one included. *)
Theorem currency_idempotent (text : option string) :
  normalize_float_value (Some (normalize_float_value text true)) true
  = normalize_float_value text true.
Proof.
  destruct text as [t|]; [apply currency_settled|reflexivity].
Qed.

End AmountFacts.

(** * Further properties of the canonical form *)

(** ** The canonical form follows the schema map *)

(** [l] is [keys] with some of the names left out, the order kept. *)
Fixpoint subseq (l keys : list string) : bool :=
  match keys with
  | [] => match l with [] => true | _ :: _ => false end
  | k :: ks =>
      match l with
      | [] => true
      | x :: l' => if String.eqb x k then subseq l' ks else subseq l ks
      end
  end.

(** An element is what a schema map describes under its name: a plain
    element, without attributes; for a field a text that is not empty
    and no child; for a group no text and, in the order of the keys of
    the group, at least one child, each described by the group. *)
Fixpoint conforms (order_map : OrderMap) (e : Element) {struct e} : bool :=
  let 'Elem t a x tl cs := e in
  match ns t, a, tl with
  | None, [], None =>
      match lookup (local t) order_map with
      | Some (DStr _) =>
          match x, cs with
          | Some s, [] => negb (String.eqb s "")
          | _, _ => false
          end
      | Some (DDict items) =>
          match x, cs with
          | None, _ :: _ =>
              subseq (map local_name cs) (keys items)
              && forallb (conforms items) cs
          | _, _ => false
          end
      | None => false
      end
  | _, _, _ => false
  end.

(** The children of a root follow a schema map. *)
Definition follows (order_map : OrderMap) (root : Element) : bool :=
  subseq (map local_name (children_of root)) (keys order_map)
  && forallb (conforms order_map) (children_of root).

Lemma subseq_nil (ks : list string) : subseq [] ks = true.
Proof. destruct ks; reflexivity. Qed.

Lemma subseq_tail (x : string) (l ks : list string) :
  subseq (x :: l) ks = true -> subseq l ks = true.
Proof.
  revert x l. induction ks as [|k ks IH]; intros x l; simpl; [discriminate|].
  destruct (String.eqb x k).
  - intros H. destruct l as [|y l']; [reflexivity|].
    destruct (String.eqb y k); [eapply IH; exact H|exact H].
  - intros H. destruct l as [|y l']; [reflexivity|].
    destruct (String.eqb y k); [|eapply IH; exact H].
    eapply IH, IH. exact H.
Qed.

Lemma subseq_skip (k : string) (l ks : list string) :
  subseq l ks = true -> subseq l (k :: ks) = true.
Proof.
  intros H. destruct l as [|x l']; [reflexivity|]. simpl.
  destruct (String.eqb x k); [eapply subseq_tail; exact H|exact H].
Qed.

Lemma conforms_lookup (om om' : OrderMap) (e : Element) :
  lookup (local_name e) om = lookup (local_name e) om' ->
  conforms om e = conforms om' e.
Proof.
  destruct e as [t a x tl cs]. unfold local_name. cbn [tag_of conforms].
  intros ->. reflexivity.
Qed.

Section Follows.

Variable normalize_serie_nfts : option string -> string.

Lemma build_follows (order_map : OrderMap) :
  distinct_keys (DDict order_map) ->
  forall node,
    subseq (map local_name (build_fragment normalize_serie_nfts node order_map))
      (keys order_map) = true
    /\ forallb (conforms order_map)
         (build_fragment normalize_serie_nfts node order_map) = true.
Proof.
  apply (order_map_ind
    (fun d => distinct_keys d -> forall node t e,
       In e (build_item normalize_serie_nfts node t d) ->
       conforms [(t, d)] e = true)
    (fun om => distinct_keys (DDict om) -> forall node,
       subseq (map local_name (build_fragment normalize_serie_nfts node om))
         (keys om) = true
       /\ forallb (conforms om)
            (build_fragment normalize_serie_nfts node om) = true)).
  - intros kind _ node t e. rewrite build_item_str.
    destruct (find_child node t) as [c|]; [|intros []]. cbv zeta.
    destruct (String.eqb _ "") eqn:E; [intros []|]. intros [<-|[]].
    cbn. rewrite String.eqb_refl, E. reflexivity.
  - intros items IH Hd node t e. rewrite build_item_dict.
    destruct (find_child node t) as [c|]; [|intros []].
    destruct (IH Hd c) as [Hs Hc].
    destruct (build_fragment normalize_serie_nfts c items) as [|y l] eqn:E;
      [intros []|]. intros [<-|[]].
    cbn [conforms new_element ns local lookup]. rewrite String.eqb_refl.
    rewrite Hs, Hc. reflexivity.
  - intros _ node. split; reflexivity.
  - intros t d r IHd IHr Hd node.
    destruct (distinct_keys_dict _ Hd) as [ND Hall].
    assert (Hd' : distinct_keys d) by (apply (Hall t); left; reflexivity).
    assert (Hr : distinct_keys (DDict r)).
    { simpl in Hd |- *. destruct Hd as [N [_ A]]. split; [|exact A].
      inversion N; assumption. }
    destruct (IHr Hr node) as [Hs Hc].
    assert (Hnotin : ~ In t (keys r)) by (inversion ND; assumption).
    cbn [build_fragment keys map fst].
    assert (Hrest : forallb (conforms ((t, d) :: r))
                      (build_fragment normalize_serie_nfts node r) = true).
    { apply forallb_forall. intros e He.
      rewrite forallb_forall in Hc. rewrite <- (Hc e He).
      apply conforms_lookup. cbn [lookup].
      destruct (String.eqb t (local_name e)) eqn:E; [|reflexivity].
      apply String.eqb_eq in E. subst t. exfalso. apply Hnotin.
      eapply build_fragment_name. exact He. }
    destruct (build_item_shape normalize_serie_nfts node t d)
      as [E|(e & E & Hname)]; rewrite E; cbn [List.app List.map].
    + split; [apply subseq_skip; exact Hs|exact Hrest].
    + split.
      * cbn [subseq]. rewrite Hname, String.eqb_refl. exact Hs.
      * cbn [forallb]. rewrite Hrest, andb_true_r.
        rewrite (conforms_lookup _ [(t, d)]).
        -- apply (IHd Hd' node t). rewrite E. left. reflexivity.
        -- rewrite Hname. cbn [lookup]. rewrite String.eqb_refl. reflexivity.
Qed.

End Follows.

Lemma novos_distinct_keys : distinct_keys (DDict Novos.canonical_order_map).
Proof.
  simpl. repeat split;
    repeat (constructor; [simpl; intuition discriminate|]); constructor.
Qed.

(** X10. The canonical form follows the schema map of its script at
    every depth: its elements are plain elements without attributes,
    named by keys of the map and in the order of the keys, a field with
    a text that is not empty and a group with at least one child,
    whatever the unit and the order of its children. *)
Theorem canonical_form_follows_schema (u : Element) :
  follows Debug.canonical_order_map (Debug.canonical_root u) = true
  /\ follows Novos.canonical_order_map (Novos.canonical_root u) = true.
Proof.
  split; unfold follows; apply andb_true_iff.
  - exact (build_follows _ _ debug_distinct_keys _).
  - exact (build_follows _ _ novos_distinct_keys _).
Qed.

(** ** What the builder does not read *)

(** An element without its namespaces, attributes and tails, at every
    depth. *)
Fixpoint bare (e : Element) : Element :=
  let 'Elem t _ x _ cs := e in
  Elem (mkQName None (local t)) [] x None (map bare cs).

Lemma has_local_bare (k : string) (c : Element) :
  has_local k (bare c) = has_local k c.
Proof. destruct c. reflexivity. Qed.

Lemma text_bare (c : Element) : text_or_empty (bare c) = text_or_empty c.
Proof. destruct c. reflexivity. Qed.

Lemma find_map_bare (k : string) (cs : list Element) :
  find (has_local k) (map bare cs) = option_map bare (find (has_local k) cs).
Proof.
  induction cs as [|c r IH]; simpl; [reflexivity|].
  rewrite has_local_bare. destruct (has_local k c); [reflexivity|exact IH].
Qed.

Lemma find_child_bare (node : Element) (k : string) :
  find_child (bare node) k = option_map bare (find_child node k).
Proof. destruct node. apply find_map_bare. Qed.

Lemma remove_first_bare (k : string) (cs : list Element) :
  remove_first k (map bare cs) = map bare (remove_first k cs).
Proof.
  induction cs as [|c r IH]; simpl; [reflexivity|].
  rewrite has_local_bare. destruct (has_local k c); [reflexivity|].
  simpl. rewrite IH. reflexivity.
Qed.

Lemma clean_tp_bare (u : Element) : clean_tp (bare u) = bare (clean_tp u).
Proof. destruct u. simpl. rewrite remove_first_bare. reflexivity. Qed.

Lemma build_fragment_bare (serie : option string -> string)
  (order_map : OrderMap) :
  forall node,
    build_fragment serie (bare node) order_map
    = build_fragment serie node order_map.
Proof.
  apply (order_map_ind
    (fun d => forall node t,
       build_item serie (bare node) t d = build_item serie node t d)
    (fun om => forall node,
       build_fragment serie (bare node) om = build_fragment serie node om)).
  - intros kind node t. rewrite !build_item_str, find_child_bare.
    destruct (find_child node t) as [c|]; [|reflexivity].
    cbn [option_map]. rewrite text_bare. reflexivity.
  - intros items IH node t. rewrite !build_item_dict, find_child_bare.
    destruct (find_child node t) as [c|]; [|reflexivity].
    cbn [option_map]. rewrite IH. reflexivity.
  - reflexivity.
  - intros t d r IHd IHr node. cbn [build_fragment].
    rewrite IHd, IHr. reflexivity.
Qed.

Lemma bytes_bare (serie : option string -> string) (order_map : OrderMap)
  (u : Element) :
  build_tpNFTS_bytes serie order_map (bare u)
  = build_tpNFTS_bytes serie order_map u.
Proof.
  unfold build_tpNFTS_bytes, canonical_root.
  rewrite clean_tp_bare, build_fragment_bare. reflexivity.
Qed.

(** X11. The canonical bytes do not depend on namespaces, attributes or
    tails: two units that are the same once these are taken away, at
    every depth, have the same canonical bytes in either script. *)
Theorem markup_ignored (u v : Element) :
  bare u = bare v ->
  Debug.build_tpNFTS_bytes u = Debug.build_tpNFTS_bytes v
  /\ Novos.build_tpNFTS_bytes u = Novos.build_tpNFTS_bytes v.
Proof.
  intros H. unfold Debug.build_tpNFTS_bytes, Novos.build_tpNFTS_bytes.
  split.
  - rewrite <- (bytes_bare _ _ u), <- (bytes_bare _ _ v), H. reflexivity.
  - rewrite <- (bytes_bare _ _ u), <- (bytes_bare _ _ v), H. reflexivity.
Qed.

(** A unit in the namespace of the city, with an attribute and
    indentation, and the same unit written plainly. *)
Definition unit_decorated : Element :=
  Elem (mkQName (Some "http://www.prefeitura.sp.gov.br/nfts") "NFTS")
    [("id", "n1")] None (Some " ")
    [ Elem (mkQName (Some "http://www.prefeitura.sp.gov.br/nfts") "TipoDocumento")
        [] (Some "01") (Some " ") [];
      Elem (mkQName None "ValorServicos") [("moeda", "BRL")]
        (Some "3,5") None [] ].

Definition unit_undecorated : Element :=
  new_element "NFTS" None
    [ new_element "TipoDocumento" (Some "01") [];
      new_element "ValorServicos" (Some "3,5") [] ].

Lemma markup_ignored_witness :
  Debug.build_tpNFTS_bytes unit_decorated
  = Debug.build_tpNFTS_bytes unit_undecorated
  /\ Novos.build_tpNFTS_bytes unit_decorated
     = Novos.build_tpNFTS_bytes unit_undecorated.
Proof. apply (markup_ignored unit_decorated unit_undecorated). reflexivity. Defined.

(** ** A unit without any field of the map *)

Lemma build_item_none (serie : option string -> string) (node : Element)
  (t : string) (d : Def) :
  find_child node t = None -> build_item serie node t d = [].
Proof.
  intros H. destruct d; [rewrite build_item_str|rewrite build_item_dict];
    rewrite H; reflexivity.
Qed.

Lemma build_fragment_none (serie : option string -> string) (node : Element)
  (order_map : OrderMap) :
  (forall k, In k (keys order_map) -> find_child node k = None) ->
  build_fragment serie node order_map = [].
Proof.
  induction order_map as [|[t d] r IH]; intros H; [reflexivity|].
  cbn [build_fragment]. rewrite build_item_none, IH; [reflexivity| |].
  - intros k Hk. apply H. right. exact Hk.
  - apply H. left. reflexivity.
Qed.

(** X12. A unit none of whose children bears a top-level name of the
    map, a unit without children among them, has the canonical bytes
    [<tpNFTS/>] in either script: this is what gets signed. *)
Theorem empty_unit_bytes (u : Element) :
  (forall k, In k (keys Debug.canonical_order_map) -> find_child u k = None) ->
  Debug.build_tpNFTS_bytes u = "<tpNFTS/>"
  /\ Novos.build_tpNFTS_bytes u = "<tpNFTS/>".
Proof.
  intros H.
  unfold Debug.build_tpNFTS_bytes, Novos.build_tpNFTS_bytes,
    build_tpNFTS_bytes, canonical_root.
  rewrite (build_fragment_clean_tp _ u _ debug_no_assinatura_key),
    (build_fragment_clean_tp _ u _ novos_no_assinatura_key).
  rewrite !build_fragment_none; [split; reflexivity|exact H|exact H].
Qed.

Lemma empty_unit_bytes_witness :
  Debug.build_tpNFTS_bytes
    (new_element "NFTS" None [new_element "Observacao" (Some "x") []])
  = "<tpNFTS/>"
  /\ Novos.build_tpNFTS_bytes
       (new_element "NFTS" None [new_element "Observacao" (Some "x") []])
     = "<tpNFTS/>".
Proof.
  apply (empty_unit_bytes
           (new_element "NFTS" None [new_element "Observacao" (Some "x") []])).
  intros k Hk. simpl in Hk.
  repeat (destruct Hk as [<-|Hk]; [reflexivity|]). destruct Hk.
Defined.

(** ** The series in the canonical form *)

(** The text the canonical form has at a path of two names, a group and
    a field of it. *)
Lemma field_of_group (serie : option string -> string) (order_map : OrderMap)
  (items : list (string * Def)) (G F kind : string) (u g s : Element) :
  ~ In "Assinatura" (keys order_map) ->
  NoDup (keys order_map) -> NoDup (keys items) ->
  In (G, DDict items) order_map -> In (F, DStr kind) items ->
  find_child u G = Some g -> find_child g F = Some s ->
  field_text (canonical_root serie order_map u) [G; F]
  = let final := normalize serie kind (text_or_empty s) in
    if String.eqb final "" then None else Some final.
Proof.
  intros HA ND NDi HG HF Hg Hs. cbv zeta.
  unfold canonical_root. rewrite (build_fragment_clean_tp _ u _ HA).
  cbn [field_text]. unfold find_child at 1. cbn [children_of new_element].
  rewrite (find_in_fragment serie u order_map G (DDict items) ND HG).
  rewrite build_item_dict, Hg.
  pose proof (find_in_fragment serie g items F (DStr kind) NDi HF) as Hleaf.
  rewrite build_item_str, Hs in Hleaf. cbv zeta in Hleaf.
  destruct (build_fragment serie g items) as [|x l] eqn:E.
  - cbn [hd_error].
    destruct (String.eqb (normalize serie kind (text_or_empty s)) "");
      [reflexivity|discriminate].
  - cbn [hd_error]. unfold find_child. cbn [children_of new_element].
    rewrite Hleaf.
    destruct (String.eqb (normalize serie kind (text_or_empty s)) "");
      reflexivity.
Qed.

(** X13. The series of a unit that has the field, empty or not, is in
    the canonical form of the debug script, five characters long; the
    script with the new fields has the cleaned text there and leaves
    the field out when that is empty. *)
Theorem serie_field_kept (u g s : Element) :
  find_child u "ChaveDocumento" = Some g ->
  find_child g "SerieNFTS" = Some s ->
  let path := ["ChaveDocumento"; "SerieNFTS"] in
  (exists v, field_text (Debug.canonical_root u) path = Some v
             /\ v = Debug.normalize_serie_nfts (Some (text_or_empty s))
             /\ String.length v = 5)
  /\ field_text (Novos.canonical_root u) path
     = if String.eqb (clean (text_or_empty s)) "" then None
       else Some (clean (text_or_empty s)).
Proof.
  intros Hg Hs path. split.
  - exists (Debug.normalize_serie_nfts (Some (text_or_empty s))).
    destruct (serie_padded_width (Some (text_or_empty s))) as [Hl _].
    split; [|split; [reflexivity|exact Hl]].
    unfold path, Debug.canonical_root.
    rewrite (field_of_group _ Debug.canonical_order_map
               [("InscricaoMunicipal", DStr "str"); ("SerieNFTS", DStr "serie");
                ("NumeroDocumento", DStr "num_str")]
               "ChaveDocumento" "SerieNFTS" "serie" u g s
               debug_no_assinatura_key debug_keys_distinct).
    + cbv zeta.
      change (normalize Debug.normalize_serie_nfts "serie" (text_or_empty s))
        with (Debug.normalize_serie_nfts (Some (text_or_empty s))).
      destruct (Debug.normalize_serie_nfts (Some (text_or_empty s)));
        [discriminate|reflexivity].
    + repeat (constructor; [simpl; intuition discriminate|]). constructor.
    + simpl. tauto.
    + simpl. tauto.
    + exact Hg.
    + exact Hs.
  - unfold path, Novos.canonical_root.
    rewrite (field_of_group _ Novos.canonical_order_map
               [("InscricaoMunicipal", DStr "str"); ("SerieNFTS", DStr "serie");
                ("NumeroDocumento", DStr "str")]
               "ChaveDocumento" "SerieNFTS" "serie" u g s
               novos_no_assinatura_key novos_keys_distinct).
    + reflexivity.
    + repeat (constructor; [simpl; intuition discriminate|]). constructor.
    + simpl. tauto.
    + simpl. tauto.
    + exact Hg.
    + exact Hs.
Qed.

Definition unit_with_empty_series : Element :=
  new_element "NFTS" None
    [ new_element "ChaveDocumento" None [ new_element "SerieNFTS" None [] ] ].

Lemma serie_field_kept_witness :
  let path := ["ChaveDocumento"; "SerieNFTS"] in
  (exists v, field_text (Debug.canonical_root unit_with_empty_series) path
             = Some v
             /\ v = Debug.normalize_serie_nfts
                      (Some (text_or_empty (new_element "SerieNFTS" None [])))
             /\ String.length v = 5)
  /\ field_text (Novos.canonical_root unit_with_empty_series) path
     = if String.eqb (clean (text_or_empty (new_element "SerieNFTS" None []))) ""
       then None
       else Some (clean (text_or_empty (new_element "SerieNFTS" None []))).
Proof.
  apply (serie_field_kept unit_with_empty_series
           (new_element "ChaveDocumento" None [new_element "SerieNFTS" None []])
           (new_element "SerieNFTS" None []));
    reflexivity.
Defined.

(** * Further properties of signing and verifying *)

(** ** Signing again *)

Lemma has_local_text (name : string) t a x x' tl cs :
  has_local name (Elem t a x tl cs) = has_local name (Elem t a x' tl cs).
Proof. reflexivity. Qed.

Lemma set_first_text_twice (name s s' : string) (l : list Element) :
  set_first_text name s' (set_first_text name s l) = set_first_text name s' l.
Proof.
  induction l as [|c r IH]; simpl; [reflexivity|].
  destruct (has_local name c) eqn:E; simpl.
  - destruct c as [t a x tl cs].
    rewrite (has_local_text name t a (Some s) x tl cs), E. reflexivity.
  - rewrite E, IH. reflexivity.
Qed.

Lemma find_set_first_text (name s : string) (l : list Element) :
  find (has_local name) l <> None ->
  find (has_local name) (set_first_text name s l) <> None.
Proof.
  induction l as [|c r IH]; simpl; [auto|].
  destruct (has_local name c) eqn:E; simpl.
  - destruct c as [t a x tl cs].
    rewrite (has_local_text name t a (Some s) x tl cs), E. discriminate.
  - rewrite E. exact IH.
Qed.

Lemma set_first_text_new (name s' : string) (l : list Element) (e : Element) :
  find (has_local name) l = None ->
  set_first_text name s' (l ++ [e])
  = (l ++ set_first_text name s' [e])%list.
Proof.
  induction l as [|c r IH]; [reflexivity|]. cbn [find].
  destruct (has_local name c) eqn:E; [discriminate|]. intros H.
  cbn [List.app set_first_text]. rewrite E, (IH H). reflexivity.
Qed.

(** Writing a signature and then another leaves the second. *)
Lemma insert_assinatura_twice (u : Element) (s s' : string) :
  insert_assinatura (insert_assinatura u s) s' = insert_assinatura u s'.
Proof.
  destruct u as [t a x tl cs]. unfold insert_assinatura at 2 3.
  destruct (find_child (Elem t a x tl cs) "Assinatura") as [c|] eqn:E.
  - unfold insert_assinatura, find_child. cbn [children_of].
    unfold find_child in E. cbn [children_of] in E.
    destruct (find (has_local "Assinatura")
                (set_first_text "Assinatura" s cs)) eqn:E'.
    + rewrite set_first_text_twice. reflexivity.
    + exfalso. apply (find_set_first_text "Assinatura" s cs); [congruence|].
      exact E'.
  - unfold insert_assinatura, find_child. cbn [children_of].
    unfold find_child in E. cbn [children_of] in E.
    rewrite find_app, E. cbn [find new_element].
    change (has_local "Assinatura"
              (Elem {| ns := None; local := "Assinatura" |} [] (Some s) None []))
      with true. cbv iota.
    rewrite (set_first_text_new _ _ _ _ E). reflexivity.
Qed.

Lemma debug_bytes_insert (u : Element) (s : string) :
  Debug.build_tpNFTS_bytes (insert_assinatura u s) = Debug.build_tpNFTS_bytes u.
Proof.
  unfold Debug.build_tpNFTS_bytes, build_tpNFTS_bytes, canonical_root.
  rewrite clean_tp_insert. reflexivity.
Qed.

(** X14. In the debug script, signing a unit that the same key has
    signed gives the signed unit again: the signature is over the same
    bytes and takes the place of the one that is there. *)
Theorem signing_again
  (PrivateKey : Type) (rsa_sign : PrivateKey -> string -> result string)
  (private_key : PrivateKey) (nfts signed : Element) :
  sign_unit PrivateKey rsa_sign Debug.build_tpNFTS_bytes private_key nfts
  = Ok signed ->
  sign_unit PrivateKey rsa_sign Debug.build_tpNFTS_bytes private_key signed
  = Ok signed.
Proof.
  unfold sign_unit, sign_bytes_sha1_pkcs1.
  destruct (rsa_sign private_key (Debug.build_tpNFTS_bytes nfts))
    as [sig|e] eqn:E; [|discriminate].
  cbn [Raising.bind]. intros [= <-].
  rewrite debug_bytes_insert, E. cbn [Raising.bind].
  rewrite insert_assinatura_twice. reflexivity.
Qed.

Lemma signing_again_witness :
  sign_unit N ToyRSA.sign Debug.build_tpNFTS_bytes ToyRSA.private_exponent
    (insert_assinatura unit_undecorated "CdI=")
  = Ok (insert_assinatura unit_undecorated "CdI=").
Proof.
  apply (signing_again N ToyRSA.sign ToyRSA.private_exponent unit_undecorated).
  vm_compute. reflexivity.
Defined.

(** ** Verifying *)

(** X15. The verdict does not depend on white space in the text of the
    signature: two signature texts that are the same once blanks and
    line breaks are taken out give the same result on the same unit. *)
Theorem signature_blanks_ignored
  (PublicKey : Type) (rsa_verify : PublicKey -> string -> string -> bool)
  (sha1 : string -> string) (pubkey : PublicKey)
  (nfts : Element) (text text' : string) :
  remove_spaces text = remove_spaces text' ->
  verify_unit PublicKey rsa_verify sha1 Debug.build_tpNFTS_bytes pubkey
    (insert_assinatura nfts text)
  = verify_unit PublicKey rsa_verify sha1 Debug.build_tpNFTS_bytes pubkey
      (insert_assinatura nfts text').
Proof.
  intros H. unfold verify_unit.
  destruct (first_assinatura_after_insert nfts text) as (e & rest & -> & ->).
  destruct (first_assinatura_after_insert nfts text') as (e' & rest' & -> & ->).
  rewrite !debug_bytes_insert, H. reflexivity.
Qed.

Lemma signature_blanks_ignored_witness :
  verify_unit N ToyRSA.verify ToyRSA.digest Debug.build_tpNFTS_bytes
    ToyRSA.public_exponent
    (insert_assinatura unit_undecorated
       (String "C" (String (ascii_of_N 10) "dI= ")))
  = verify_unit N ToyRSA.verify ToyRSA.digest Debug.build_tpNFTS_bytes
      ToyRSA.public_exponent (insert_assinatura unit_undecorated "CdI=").
Proof.
  apply (signature_blanks_ignored N ToyRSA.verify ToyRSA.digest
           ToyRSA.public_exponent unit_undecorated). reflexivity.
Defined.

(** X16. Verifying a unit raises in one case only, a first signature
    element without text, where taking the text apart fails with an
    [AttributeError] that nothing catches; a unit without a signature
    element, or with a text that is not Base64, is reported and not
    raised on, and a unit the debug script has signed never raises. *)
Theorem verify_raises_on_empty_signature
  (PublicKey : Type) (rsa_verify : PublicKey -> string -> string -> bool)
  (sha1 : string -> string) (pubkey : PublicKey) (nfts : Element) :
  (forall e,
     verify_unit PublicKey rsa_verify sha1 Debug.build_tpNFTS_bytes pubkey nfts
     = Raise e
     <-> e = AttributeError
         /\ exists assin rest,
              filter (has_local "Assinatura") (children_of nfts) = assin :: rest
              /\ text_of assin = None)
  /\ (forall text e,
        verify_unit PublicKey rsa_verify sha1 Debug.build_tpNFTS_bytes pubkey
          (insert_assinatura nfts text) <> Raise e).
Proof.
  split.
  - intros e. unfold verify_unit.
    destruct (filter (has_local "Assinatura") (children_of nfts))
      as [|assin rest].
    + split; [discriminate|]. intros (_ & a & r & H & _). discriminate.
    + destruct (text_of assin) as [t|] eqn:Et.
      * split.
        -- destruct (Base64.b64decode (remove_spaces t)); [|discriminate].
           destruct (rsa_verify pubkey _ _); discriminate.
        -- intros (_ & a & r & [= <- <-] & H). congruence.
      * split.
        -- intros [= <-]. split; [reflexivity|]. exists assin, rest. auto.
        -- intros (-> & _). reflexivity.
  - intros text e. unfold verify_unit.
    destruct (first_assinatura_after_insert nfts text) as (a & rest & -> & ->).
    destruct (Base64.b64decode (remove_spaces text)); [|discriminate].
    destruct (rsa_verify pubkey _ _); discriminate.
Qed.

(** X17. The text [sign_file] writes into the signature element, the
    Base64 of the signature with white space taken out, is read back by
    [verify_signed_nfts] as the bytes of the signature, whatever they
    are. *)
Theorem signature_text_read_back (sig_bytes : string) :
  let assin_text := remove_spaces (Base64.b64encode sig_bytes) in
  Base64.b64decode (remove_spaces assin_text) = Some sig_bytes.
Proof.
  cbv zeta.
  rewrite Base64Facts.remove_spaces_idempotent, Base64Facts.encode_no_space.
  apply Base64Facts.decode_encode.
Qed.

(** * Further properties of the reassembled unit *)

Module ReassembleMore.

Import Reassemble ReassembleFacts.

(** The body of the loop of [sign_file] in the script with the new
    fields: the unit is signed and its children are put in order. *)
Definition sign_unit (PrivateKey : Type)
  (rsa_sign : PrivateKey -> string -> result string)
  (private_key : PrivateKey) (nfts : Element) : result Element :=
  let canonical_bytes := Novos.build_tpNFTS_bytes nfts in
  Raising.bind (rsa_sign private_key canonical_bytes)
    (fun sig_bytes =>
       let sig_b64 := Base64.b64encode sig_bytes in
       Ok (reassemble nfts (remove_spaces sig_b64))).

Definition picks (cs : list Element) (assin_text : string)
  (order : list string) : list Element :=
  flat_map (fun tag => option_list (pick cs assin_text tag)) order.

Lemma last_with_app (k : QName) (l r : list Element) :
  last_with k (l ++ r)
  = match last_with k r with Some x => Some x | None => last_with k l end.
Proof.
  induction l as [|c l IH]; simpl.
  - destruct (last_with k r); reflexivity.
  - rewrite IH. destruct (last_with k r); reflexivity.
Qed.

Lemma last_with_option (k : QName) (o : option Element) :
  (forall x, o = Some x -> tag_of x = k) ->
  last_with k (option_list o) = o.
Proof.
  destruct o as [x|]; simpl; [|reflexivity]. intros H.
  rewrite (H x eq_refl), qname_eqb_refl. reflexivity.
Qed.

Lemma last_with_option_other (k : QName) (o : option Element) :
  (forall x, o = Some x -> tag_of x <> k) ->
  last_with k (option_list o) = None.
Proof.
  destruct o as [x|]; simpl; [|reflexivity]. intros H.
  destruct (qname_eqb (tag_of x) k) eqn:E; [|reflexivity].
  apply qname_eqb_eq in E. exfalso. exact (H x eq_refl E).
Qed.

Lemma last_with_picks_none (cs : list Element) (s tag : string)
  (order : list string) :
  ~ In tag order -> last_with (plain tag) (picks cs s order) = None.
Proof.
  intros H. apply last_with_none. intros c Hc.
  apply in_flat_map in Hc. destruct Hc as (t & Ht & Hc).
  destruct (pick cs s t) as [x|] eqn:E; [|destruct Hc].
  destruct Hc as [<-|[]]. rewrite (pick_tag _ _ _ _ E).
  intros Heq. apply plain_inj in Heq. congruence.
Qed.

(** Among the picked elements, the one of a listed name is the pick of
    that name. *)
Lemma last_with_picks (cs : list Element) (s tag : string)
  (order : list string) :
  NoDup order -> In tag order ->
  last_with (plain tag) (picks cs s order) = pick cs s tag.
Proof.
  induction order as [|t r IH]; [intros _ []|].
  intros ND Hin. inversion ND as [|? ? Hn ND']; subst.
  unfold picks. cbn [flat_map]. fold (picks cs s r). rewrite last_with_app.
  destruct (String.eqb_spec t tag) as [->|Hne].
  - rewrite (last_with_picks_none _ _ _ _ Hn).
    apply last_with_option. intros x. apply pick_tag.
  - destruct Hin as [E|Hin]; [congruence|].
    rewrite (IH ND' Hin).
    destruct (pick cs s tag) as [x|] eqn:E; [reflexivity|].
    apply last_with_option_other. intros x Hx Heq.
    rewrite (pick_tag _ _ _ _ Hx) in Heq. apply plain_inj in Heq. congruence.
Qed.

Lemma pick_ext (cs cs' : list Element) (s tag : string) :
  (tag <> "Assinatura" -> last_with (plain tag) cs' = last_with (plain tag) cs) ->
  pick cs' s tag = pick cs s tag.
Proof.
  intros H. unfold pick. destruct (String.eqb_spec tag "Assinatura");
    [reflexivity|auto].
Qed.

Lemma flat_map_ext_in {A B} (f g : A -> list B) (l : list A) :
  (forall x, In x l -> f x = g x) -> flat_map f l = flat_map g l.
Proof.
  induction l as [|x r IH]; intros H; [reflexivity|]. cbn [flat_map].
  rewrite (H x (or_introl eq_refl)), IH; [reflexivity|].
  intros y Hy. apply H. right. exact Hy.
Qed.

(** X18. Putting the children in order again, with another signature,
    gives what putting them in order once with that signature gives:
    only the signature element differs between the two units. *)
Theorem reassemble_twice (nfts : Element) (s s' : string) :
  reassemble (reassemble nfts s) s' = reassemble nfts s'.
Proof.
  destruct nfts as [t a x tl cs]. unfold reassemble.
  rewrite !append_in_order_pick. f_equal.
  fold (picks cs s NFTS_ELEMENT_ORDER).
  apply flat_map_ext_in. intros tag Hin. f_equal.
  apply pick_ext. intros Hne.
  rewrite (last_with_picks cs s tag _ order_distinct Hin).
  unfold pick. destruct (String.eqb_spec tag "Assinatura"); [congruence|].
  reflexivity.
Qed.

(** Among children without namespace and with distinct names, the first
    of a local name is the last of that tag. *)
Lemma find_last_with (k : string) (l : list Element) :
  (forall c, In c l -> ns (tag_of c) = None) ->
  NoDup (map local_name l) ->
  find (has_local k) l = last_with (plain k) l.
Proof.
  induction l as [|c r IH]; [reflexivity|]. intros Hp ND.
  inversion ND as [|? ? Hn ND']; subst. cbn [find last_with].
  assert (Hc : tag_of c = plain (local_name c)).
  { pose proof (Hp c (or_introl eq_refl)) as H. unfold local_name, plain.
    destruct (tag_of c) as [n l0]. simpl in *. subst n. reflexivity. }
  unfold has_local at 1. destruct (String.eqb_spec (local_name c) k) as [E|E].
  - assert (Hnone : last_with (plain k) r = None).
    { apply last_with_none. intros c' Hc' Ht. apply Hn. subst k.
      apply in_map_iff. exists c'. split; [|exact Hc'].
      unfold local_name. rewrite Ht. reflexivity. }
    rewrite Hnone, Hc, E, qname_eqb_refl. reflexivity.
  - rewrite IH; [|intros c' Hc'; apply Hp; right; exact Hc'|exact ND'].
    destruct (last_with (plain k) r); [reflexivity|].
    destruct (qname_eqb (tag_of c) (plain k)) eqn:Eq; [|reflexivity].
    apply qname_eqb_eq in Eq. rewrite Hc in Eq. apply plain_inj in Eq.
    congruence.
Qed.

Lemma picks_plain (cs : list Element) (s : string) (order : list string) :
  NoDup order ->
  (forall c, In c (picks cs s order) -> ns (tag_of c) = None)
  /\ NoDup (map local_name (picks cs s order)).
Proof.
  intros ND. pose proof (tags_in_order cs s order) as Ht.
  fold (picks cs s order) in Ht. split.
  - intros c Hc. apply (in_map tag_of) in Hc. rewrite Ht in Hc.
    apply in_map_iff in Hc. destruct Hc as (k & <- & _). reflexivity.
  - assert (E : map local_name (picks cs s order) = filter (kept cs) order).
    { change local_name with (fun e => local (tag_of e)).
      rewrite <- (map_map tag_of local), Ht, map_map. cbn [plain local].
      apply map_id. }
    rewrite E. apply NoDup_filter. exact ND.
Qed.

(** In the reassembled unit, the first child of a listed name. *)
Lemma find_reassembled (cs : list Element) (s k : string) :
  In k NFTS_ELEMENT_ORDER ->
  find (has_local k) (picks cs s NFTS_ELEMENT_ORDER) = pick cs s k.
Proof.
  intros Hin. destruct (picks_plain cs s _ order_distinct) as [Hp ND].
  rewrite (find_last_with k _ Hp ND).
  apply last_with_picks; [exact order_distinct|exact Hin].
Qed.

Lemma build_fragment_find (serie : option string -> string)
  (n n' : Element) (order_map : OrderMap) :
  (forall k, In k (keys order_map) -> find_child n k = find_child n' k) ->
  build_fragment serie n order_map = build_fragment serie n' order_map.
Proof.
  induction order_map as [|[t d] r IH]; intros H; [reflexivity|].
  cbn [build_fragment]. rewrite (build_item_find serie n n' t d), IH.
  - reflexivity.
  - intros k Hk. apply H. right. exact Hk.
  - apply H. left. reflexivity.
Qed.

Lemma novos_keys_listed (k : string) :
  In k (keys Novos.canonical_order_map) ->
  In k NFTS_ELEMENT_ORDER /\ k <> "Assinatura".
Proof.
  intros H. simpl in H.
  repeat (destruct H as [<-|H]; [split; [simpl; tauto|discriminate]|]).
  destruct H.
Qed.

(** X19. When the children of a unit have no namespace and distinct
    names, the unit the script with the new fields writes carries a
    signature over its own canonical bytes: putting the children in
    order leaves the canonical bytes as they were signed, and the
    signature element is the first of its name. *)
Theorem reassembled_unit_signed
  (PrivateKey : Type) (rsa_sign : PrivateKey -> string -> result string)
  (private_key : PrivateKey) (nfts signed : Element) :
  (forall c, In c (children_of nfts) -> ns (tag_of c) = None) ->
  NoDup (map local_name (children_of nfts)) ->
  sign_unit PrivateKey rsa_sign private_key nfts = Ok signed ->
  Novos.build_tpNFTS_bytes signed = Novos.build_tpNFTS_bytes nfts
  /\ exists sig_bytes,
       rsa_sign private_key (Novos.build_tpNFTS_bytes signed) = Ok sig_bytes
       /\ find_child signed "Assinatura"
          = Some (new_element "Assinatura"
                    (Some (remove_spaces (Base64.b64encode sig_bytes))) []).
Proof.
  intros Hp ND. unfold sign_unit.
  destruct (rsa_sign private_key (Novos.build_tpNFTS_bytes nfts))
    as [sig|e] eqn:E; [|discriminate].
  cbn [Raising.bind]. intros [= <-].
  set (s := remove_spaces (Base64.b64encode sig)).
  assert (Hb : Novos.build_tpNFTS_bytes (reassemble nfts s)
               = Novos.build_tpNFTS_bytes nfts).
  { unfold Novos.build_tpNFTS_bytes, build_tpNFTS_bytes, canonical_root.
    rewrite !(build_fragment_clean_tp _ _ _ novos_no_assinatura_key).
    do 3 f_equal. apply build_fragment_find. intros k Hk.
    destruct (novos_keys_listed k Hk) as [Hin Hne].
    destruct nfts as [t a x tl cs]. unfold reassemble, find_child.
    cbn [children_of] in *. rewrite append_in_order_pick.
    fold (picks cs s NFTS_ELEMENT_ORDER).
    rewrite (find_reassembled cs s k Hin), (find_last_with k cs Hp ND).
    unfold pick. destruct (String.eqb_spec k "Assinatura"); [congruence|].
    reflexivity. }
  split; [exact Hb|]. exists sig. rewrite Hb. split; [exact E|].
  destruct nfts as [t a x tl cs]. unfold reassemble, find_child.
  cbn [children_of]. rewrite append_in_order_pick.
  fold (picks cs s NFTS_ELEMENT_ORDER).
  rewrite find_reassembled; [reflexivity|]. simpl. tauto.
Qed.

Lemma reassembled_unit_signed_witness :
  Novos.build_tpNFTS_bytes (reassemble unit_out_of_order "Blc=")
  = Novos.build_tpNFTS_bytes unit_out_of_order
  /\ exists sig_bytes,
       ToyRSA.sign ToyRSA.private_exponent
         (Novos.build_tpNFTS_bytes (reassemble unit_out_of_order "Blc="))
       = Ok sig_bytes
       /\ find_child (reassemble unit_out_of_order "Blc=") "Assinatura"
          = Some (new_element "Assinatura"
                    (Some (remove_spaces (Base64.b64encode sig_bytes))) []).
Proof.
  apply (reassembled_unit_signed N ToyRSA.sign ToyRSA.private_exponent
           unit_out_of_order).
  - intros c Hc. simpl in Hc.
    repeat (destruct Hc as [<-|Hc]; [reflexivity|]). destruct Hc.
  - simpl. repeat (constructor; [simpl; intuition discriminate|]). constructor.
  - vm_compute. reflexivity.
Defined.

End ReassembleMore.

(** * The two scripts on the same unit *)

Section TwoScripts.

Variable serie1 serie2 : option string -> string.

(** Two schema maps with the same names, whose fields make the same of
    the texts a node has for them. *)
Fixpoint same_values (d1 d2 : Def) (c : Element) {struct d1} : Prop :=
  match d1, d2 with
  | DStr k1, DStr k2 =>
      normalize serie1 k1 (text_or_empty c) = normalize serie2 k2 (text_or_empty c)
  | DDict items1, DDict items2 =>
      (fix all (l1 l2 : list (string * Def)) : Prop :=
         match l1, l2 with
         | [], [] => True
         | (t1, e1) :: r1, (t2, e2) :: r2 =>
             t1 = t2
             /\ (forall c', find_child c t1 = Some c' -> same_values e1 e2 c')
             /\ all r1 r2
         | _, _ => False
         end) items1 items2
  | _, _ => False
  end.

Fixpoint same_items (l1 l2 : OrderMap) (node : Element) : Prop :=
  match l1, l2 with
  | [], [] => True
  | (t1, e1) :: r1, (t2, e2) :: r2 =>
      t1 = t2
      /\ (forall c', find_child node t1 = Some c' -> same_values e1 e2 c')
      /\ same_items r1 r2 node
  | _, _ => False
  end.

Lemma same_values_dict (items1 items2 : OrderMap) (c : Element) :
  same_values (DDict items1) (DDict items2) c = same_items items1 items2 c.
Proof.
  cbn [same_values]. revert items2.
  induction items1 as [|[t1 e1] r1 IH]; intros [|[t2 e2] r2]; try reflexivity.
  cbn [same_items]. rewrite IH. reflexivity.
Qed.

Lemma build_same (om1 : OrderMap) :
  forall om2 node,
    same_items om1 om2 node ->
    build_fragment serie1 node om1 = build_fragment serie2 node om2.
Proof.
  apply (order_map_ind
    (fun d1 => forall d2 node t,
       (forall c, find_child node t = Some c -> same_values d1 d2 c) ->
       build_item serie1 node t d1 = build_item serie2 node t d2)
    (fun om1 => forall om2 node,
       same_items om1 om2 node ->
       build_fragment serie1 node om1 = build_fragment serie2 node om2)).
  - intros k1 d2 node t H. rewrite build_item_str.
    destruct (find_child node t) as [c|] eqn:E.
    + specialize (H c eq_refl). destruct d2 as [k2|items2]; [|destruct H].
      rewrite build_item_str, E. cbv zeta. cbn [same_values] in H.
      rewrite H. reflexivity.
    + destruct d2; [rewrite build_item_str|rewrite build_item_dict];
        rewrite E; reflexivity.
  - intros items1 IH d2 node t H. rewrite build_item_dict.
    destruct (find_child node t) as [c|] eqn:E.
    + specialize (H c eq_refl). destruct d2 as [k2|items2]; [destruct H|].
      rewrite build_item_dict, E. rewrite same_values_dict in H.
      rewrite (IH items2 c H). reflexivity.
    + destruct d2; [rewrite build_item_str|rewrite build_item_dict];
        rewrite E; reflexivity.
  - intros [|[t2 e2] r2] node H; [reflexivity|destruct H].
  - intros t d r IHd IHr [|[t2 e2] r2] node H; [destruct H|].
    destruct H as (<- & Hd & Hr). cbn [build_fragment].
    rewrite (IHd e2 node t Hd), (IHr r2 node Hr). reflexivity.
Qed.

(** A kind other than the series does not see the series function. *)
Lemma normalize_same_kind (k text : string) :
  k <> "serie" -> normalize serie1 k text = normalize serie2 k text.
Proof.
  intros H. unfold normalize.
  destruct (String.eqb k "num_str"); [reflexivity|].
  destruct (String.eqb k "float_currency"); [reflexivity|].
  destruct (String.eqb k "float"); [reflexivity|].
  destruct (String.eqb k "bool"); [reflexivity|].
  destruct (String.eqb_spec k "serie"); [congruence|reflexivity].
Qed.

End TwoScripts.

Ltac same_leaf :=
  first [ reflexivity | apply normalize_same_kind; discriminate ].

Ltac same_step :=
  match goal with
  | |- _ /\ _ => split
  | |- True => exact I
  | |- forall c, find_child _ _ = Some c -> _ =>
      let c := fresh "c" in let H := fresh "Hc" in
      intros c H; cbn [same_values]
  | |- @eq string _ _ => same_leaf
  end.

(** X20. The two scripts build the same canonical bytes for a unit
    whose series, cleaned, is five characters long, and whose document
    number and postal code are left as they are by the numeric
    normalizer (no leading zero to take away): these three fields are
    the only ones the scripts treat differently. *)
Theorem scripts_agree (u : Element) :
  (forall t, field_text u ["ChaveDocumento"; "SerieNFTS"] = Some t ->
             String.length (clean t) = 5) ->
  (forall t, field_text u ["ChaveDocumento"; "NumeroDocumento"] = Some t ->
             normalize_numeric_string (Some t) = clean t) ->
  (forall t, field_text u ["Prestador"; "Endereco"; "CEP"] = Some t ->
             normalize_numeric_string (Some t) = clean t) ->
  Debug.build_tpNFTS_bytes u = Novos.build_tpNFTS_bytes u.
Proof.
  intros Hserie Hnum Hcep.
  unfold Debug.build_tpNFTS_bytes, Novos.build_tpNFTS_bytes,
    build_tpNFTS_bytes, canonical_root.
  rewrite (build_fragment_clean_tp _ u _ debug_no_assinatura_key),
    (build_fragment_clean_tp _ u _ novos_no_assinatura_key).
  do 3 f_equal. apply build_same.
  unfold Debug.canonical_order_map, Novos.canonical_order_map.
  cbn [same_items same_values].
  repeat same_step.
  - change (take 5 (clean (text_or_empty c0) ++ "     ")
            = clean (text_or_empty c0)).
    assert (H : String.length (clean (text_or_empty c0)) = 5).
    { apply Hserie. cbn [field_text]. rewrite Hc, Hc0. reflexivity. }
    rewrite take_append_long, take_all by lia. reflexivity.
  - change (normalize_numeric_string (Some (text_or_empty c0))
            = clean (text_or_empty c0)).
    apply Hnum. cbn [field_text]. rewrite Hc, Hc0. reflexivity.
  - change (clean (text_or_empty c1)
            = normalize_numeric_string (Some (text_or_empty c1))).
    symmetry. apply Hcep. cbn [field_text]. rewrite Hc, Hc0, Hc1. reflexivity.
Qed.

(** A unit with each of the three fields, in the form both scripts
    keep. *)
Definition unit_both : Element :=
  new_element "NFTS" None
    [ new_element "ChaveDocumento" None
        [ new_element "SerieNFTS" (Some "ABCDE") [];
          new_element "NumeroDocumento" (Some "42") [] ];
      new_element "ValorServicos" (Some "3,5") [];
      new_element "Prestador" None
        [ new_element "Endereco" None
            [ new_element "CEP" (Some "1310100") [] ] ] ].

Lemma scripts_agree_witness :
  Debug.build_tpNFTS_bytes unit_both = Novos.build_tpNFTS_bytes unit_both.
Proof.
  apply (scripts_agree unit_both);
    intros t H; injection H as <-; reflexivity.
Defined.

(** * The loops over the units of a document *)

(** The place of an element in a document: the indices of the children
    to go through, from the root.  The loop of [sign_file] changes the
    units where they are; as it only sets a text or appends a child, an
    element stays at its place. *)
Definition Path : Set := list nat.

Fixpoint subtree (e : Element) (p : Path) : option Element :=
  match p with
  | [] => Some e
  | i :: r =>
      match nth_error (children_of e) i with
      | Some c => subtree c r
      | None => None
      end
  end.

Fixpoint update_nth (i : nat) (f : Element -> Element) (l : list Element)
  : list Element :=
  match l, i with
  | [], _ => []
  | x :: r, O => f x :: r
  | x :: r, S k => x :: update_nth k f r
  end.

(** The document with the element at [p] replaced by [new]. *)
Fixpoint replace_at (p : Path) (new : Element) (e : Element) : Element :=
  match p with
  | [] => new
  | i :: r =>
      let 'Elem t a x tl cs := e in
      Elem t a x tl (update_nth i (replace_at r new) cs)
  end.

(** [root.xpath('//*[local-name()="NFTS"]')]: the places of the elements
    of local name [NFTS], the root included, in document order. *)
Fixpoint nfts_paths (e : Element) : list Path :=
  let 'Elem _ _ _ _ cs := e in
  ((if has_local "NFTS" e then [[]] else [])
   ++ (fix from (i : nat) (l : list Element) : list Path :=
         match l with
         | [] => []
         | c :: r => map (cons i) (nfts_paths c) ++ from (S i) r
         end) 0 cs)%list.

Definition found {A} (o : option A) : list A :=
  match o with Some x => [x] | None => [] end.

Definition nfts_nodes (root : Element) : list Element :=
  flat_map (fun p => found (subtree root p)) (nfts_paths root).

Section Document.

Variable PrivateKey PublicKey : Type.
Variable rsa_sign : PrivateKey -> string -> result string.
Variable rsa_verify : PublicKey -> string -> string -> bool.
Variable sha1 : string -> string.

(** The loop of [sign_file] in the debug script over the units found
    before it starts; a failure of the signature ends it. *)
Fixpoint sign_nodes (private_key : PrivateKey) (nodes : list Path)
  (root : Element) : result Element :=
  match nodes with
  | [] => Ok root
  | p :: rest =>
      match subtree root p with
      | None => sign_nodes private_key rest root
      | Some nfts =>
          Raising.bind
            (sign_unit PrivateKey rsa_sign Debug.build_tpNFTS_bytes
               private_key nfts)
            (fun signed =>
               sign_nodes private_key rest (replace_at p signed root))
      end
  end.

(** The loop of [verify_signed_nfts]: the verdicts it reports, one for
    each unit; an exception ends it. *)
Fixpoint verify_nodes (pubkey : PublicKey) (nodes : list Element)
  : result (list Verdict) :=
  match nodes with
  | [] => Ok []
  | nfts :: rest =>
      Raising.bind
        (verify_unit PublicKey rsa_verify sha1 Debug.build_tpNFTS_bytes
           pubkey nfts)
        (fun verdict =>
           Raising.bind (verify_nodes pubkey rest)
             (fun verdicts => Ok (verdict :: verdicts)))
  end.

End Document.

(** ** Places *)

Lemma nth_update_same (i : nat) (f : Element -> Element) (l : list Element) :
  nth_error (update_nth i f l) i = option_map f (nth_error l i).
Proof.
  revert i. induction l as [|x r IH]; intros [|k]; simpl; auto.
Qed.

Lemma nth_update_other (i j : nat) (f : Element -> Element) (l : list Element) :
  i <> j -> nth_error (update_nth i f l) j = nth_error l j.
Proof.
  revert i j. induction l as [|x r IH]; intros [|i] [|j] H; simpl; auto.
  congruence.
Qed.

Lemma local_replace_at (p : Path) (d d' e : Element) :
  subtree e p = Some d -> local_name d' = local_name d ->
  local_name (replace_at p d' e) = local_name e.
Proof.
  destruct p as [|i r]; simpl.
  - intros [= ->] H. exact H.
  - intros _ _. destruct e. reflexivity.
Qed.

Lemma text_replace_at (i : nat) (r : Path) (d' e : Element) :
  text_of (replace_at (i :: r) d' e) = text_of e.
Proof. destruct e. reflexivity. Qed.

Lemma children_replace_at (i : nat) (r : Path) (d' e : Element) :
  children_of (replace_at (i :: r) d' e)
  = update_nth i (replace_at r d') (children_of e).
Proof. destruct e. reflexivity. Qed.

(** The first child of a name, after one child is changed into one of
    the same name: the same one, or the changed one at its place. *)
Lemma find_update_nth (t : string) (i : nat) (f : Element -> Element)
  (cs : list Element) (ci : Element) :
  nth_error cs i = Some ci -> has_local t (f ci) = has_local t ci ->
  find (has_local t) (update_nth i f cs) = find (has_local t) cs
  \/ (has_local t ci = true
      /\ find (has_local t) cs = Some ci
      /\ find (has_local t) (update_nth i f cs) = Some (f ci)).
Proof.
  revert i. induction cs as [|x r IH]; intros [|k]; simpl; try discriminate.
  - intros [= ->] H. rewrite H. destruct (has_local t ci); [right|left]; auto.
  - intros Hn H. destruct (has_local t x); [left; reflexivity|].
    apply IH; assumption.
Qed.

(** ** What a signature inside a unit leaves as it is *)

(** A schema map without a name among its keys, at every depth. *)
Fixpoint avoids (name : string) (d : Def) : Prop :=
  match d with
  | DStr _ => True
  | DDict items =>
      (fix all (l : list (string * Def)) : Prop :=
         match l with
         | [] => True
         | (t, d') :: r => t <> name /\ avoids name d' /\ all r
         end) items
  end.

Lemma avoids_cons (name t : string) (d : Def) (r : list (string * Def)) :
  avoids name (DDict ((t, d) :: r))
  <-> t <> name /\ avoids name d /\ avoids name (DDict r).
Proof. reflexivity. Qed.

(** A unit at a place below an element is not read by the builder on
    that element: another unit in its place changes nothing. *)
Lemma build_frame (serie : option string -> string) (order_map : OrderMap) :
  avoids "NFTS" (DDict order_map) ->
  forall e i r d d',
    subtree e (i :: r) = Some d ->
    local_name d = "NFTS" -> local_name d' = "NFTS" ->
    build_fragment serie (replace_at (i :: r) d' e) order_map
    = build_fragment serie e order_map.
Proof.
  apply (order_map_ind
    (fun dd => avoids "NFTS" dd -> forall t e i r d d',
       t <> "NFTS" -> subtree e (i :: r) = Some d ->
       local_name d = "NFTS" -> local_name d' = "NFTS" ->
       build_item serie (replace_at (i :: r) d' e) t dd
       = build_item serie e t dd)
    (fun om => avoids "NFTS" (DDict om) -> forall e i r d d',
       subtree e (i :: r) = Some d ->
       local_name d = "NFTS" -> local_name d' = "NFTS" ->
       build_fragment serie (replace_at (i :: r) d' e) om
       = build_fragment serie e om)).
  - intros kind _ t e i r d d' Ht Hs Hd Hd'.
    rewrite !build_item_str. unfold find_child. rewrite children_replace_at.
    cbn [subtree] in Hs.
    destruct (nth_error (children_of e) i) as [ci|] eqn:Ei; [|discriminate].
    assert (Hl : has_local t (replace_at r d' ci) = has_local t ci).
    { unfold has_local. rewrite (local_replace_at r d d' ci Hs); [reflexivity|].
      congruence. }
    destruct (find_update_nth t i _ _ ci Ei Hl) as [->|(Hc & -> & ->)];
      [reflexivity|].
    destruct r as [|j r'].
    + injection Hs as ->. exfalso. apply Ht. unfold has_local in Hc.
      apply String.eqb_eq in Hc. congruence.
    + unfold text_or_empty. rewrite text_replace_at. reflexivity.
  - intros items IH Ha t e i r d d' Ht Hs Hd Hd'.
    rewrite !build_item_dict. unfold find_child. rewrite children_replace_at.
    cbn [subtree] in Hs.
    destruct (nth_error (children_of e) i) as [ci|] eqn:Ei; [|discriminate].
    assert (Hl : has_local t (replace_at r d' ci) = has_local t ci).
    { unfold has_local. rewrite (local_replace_at r d d' ci Hs); [reflexivity|].
      congruence. }
    destruct (find_update_nth t i _ _ ci Ei Hl) as [->|(Hc & -> & ->)];
      [reflexivity|].
    destruct r as [|j r'].
    + injection Hs as ->. exfalso. apply Ht. unfold has_local in Hc.
      apply String.eqb_eq in Hc. congruence.
    + rewrite (IH Ha ci j r' d d' Hs Hd Hd'). reflexivity.
  - reflexivity.
  - intros t dd rest IHd IHr Ha e i r d d' Hs Hd Hd'.
    apply avoids_cons in Ha. destruct Ha as (Ht & Hdd & Hrest).
    cbn [build_fragment].
    rewrite (IHd Hdd t e i r d d' Ht Hs Hd Hd'),
      (IHr Hrest e i r d d' Hs Hd Hd'). reflexivity.
Qed.

Lemma debug_avoids_nfts : avoids "NFTS" (DDict Debug.canonical_order_map).
Proof. simpl. repeat split; discriminate. Qed.

Lemma debug_bytes_fragment (u : Element) :
  Debug.build_tpNFTS_bytes u
  = Xml.strip_bom
      (Xml.tostring
         (new_element "tpNFTS" None
            (build_fragment Debug.normalize_serie_nfts u
               Debug.canonical_order_map))).
Proof.
  unfold Debug.build_tpNFTS_bytes, build_tpNFTS_bytes, canonical_root.
  rewrite (build_fragment_clean_tp _ u _ debug_no_assinatura_key).
  reflexivity.
Qed.

Lemma debug_bytes_frame (e : Element) (i : nat) (r : Path) (d d' : Element) :
  subtree e (i :: r) = Some d ->
  local_name d = "NFTS" -> local_name d' = "NFTS" ->
  Debug.build_tpNFTS_bytes (replace_at (i :: r) d' e)
  = Debug.build_tpNFTS_bytes e.
Proof.
  intros Hs Hd Hd'. rewrite !debug_bytes_fragment.
  rewrite (build_frame _ _ debug_avoids_nfts e i r d d' Hs Hd Hd').
  reflexivity.
Qed.

Lemma filter_find {A B} (p : A -> bool) (l : list A) (none : B) (some : A -> B) :
  match filter p l with [] => none | a :: _ => some a end
  = match find p l with None => none | Some a => some a end.
Proof.
  induction l as [|x r IH]; simpl; [reflexivity|].
  destruct (p x); [reflexivity|exact IH].
Qed.

Section DocumentFacts.

Variable PrivateKey PublicKey : Type.
Variable rsa_sign : PrivateKey -> string -> result string.
Variable rsa_verify : PublicKey -> string -> string -> bool.
Variable sha1 : string -> string.
Variable private_key : PrivateKey.
Variable pubkey : PublicKey.

Local Abbreviation verify :=
  (verify_unit PublicKey rsa_verify sha1 Debug.build_tpNFTS_bytes pubkey).
Local Abbreviation sign :=
  (sign_unit PrivateKey rsa_sign Debug.build_tpNFTS_bytes private_key).

Lemma verify_unit_find (nfts : Element) :
  verify nfts
  = match find (has_local "Assinatura") (children_of nfts) with
    | None => Ok MissingSignature
    | Some assin =>
        match text_of assin with
        | None => Raise AttributeError
        | Some text =>
            match Base64.b64decode (remove_spaces text) with
            | None => Ok MalformedSignature
            | Some sig_bytes =>
                if rsa_verify pubkey sig_bytes (Debug.build_tpNFTS_bytes nfts)
                then Ok Valid
                else Ok (Invalid (sha1 (Debug.build_tpNFTS_bytes nfts))
                           (String.length sig_bytes))
            end
        end
    end.
Proof. unfold verify_unit. apply filter_find. Qed.

(** A unit put in the place of a unit below an element leaves the
    verdict on that element as it is. *)
Lemma verify_frame (e : Element) (i : nat) (r : Path) (d d' : Element) :
  subtree e (i :: r) = Some d ->
  local_name d = "NFTS" -> local_name d' = "NFTS" ->
  verify (replace_at (i :: r) d' e) = verify e.
Proof.
  intros Hs Hd Hd'. rewrite !verify_unit_find.
  rewrite (debug_bytes_frame e i r d d' Hs Hd Hd'), children_replace_at.
  cbn [subtree] in Hs.
  destruct (nth_error (children_of e) i) as [ci|] eqn:Ei; [|discriminate].
  assert (Hl : has_local "Assinatura" (replace_at r d' ci)
               = has_local "Assinatura" ci).
  { unfold has_local. rewrite (local_replace_at r d d' ci Hs); [reflexivity|].
    congruence. }
  destruct (find_update_nth "Assinatura" i _ _ ci Ei Hl)
    as [->|(Hc & -> & ->)]; [reflexivity|].
  destruct r as [|j r'].
  - injection Hs as ->. unfold has_local in Hc.
    apply String.eqb_eq in Hc. congruence.
  - rewrite text_replace_at. reflexivity.
Qed.


(** ** Where the units are, after a signature *)

Lemma subtree_text (t : QName) a x x' tl cs (i : nat) (r : Path) :
  subtree (Elem t a x' tl cs) (i :: r) = subtree (Elem t a x tl cs) (i :: r).
Proof. reflexivity. Qed.

Lemma nth_set_first_text (name s : string) (l : list Element) (j : nat)
  (c : Element) :
  nth_error l j = Some c ->
  nth_error (set_first_text name s l) j = Some c
  \/ (has_local name c = true
      /\ exists t a x tl cs,
           c = Elem t a x tl cs
           /\ nth_error (set_first_text name s l) j
              = Some (Elem t a (Some s) tl cs)).
Proof.
  revert j. induction l as [|y r IH]; intros [|j]; simpl; try discriminate.
  - intros [= ->]. destruct (has_local name c) eqn:E; [|left; reflexivity].
    right. split; [reflexivity|]. destruct c as [t a x tl cs].
    exists t, a, x, tl, cs. split; reflexivity.
  - intros H. destruct (has_local name y); [left; exact H|].
    simpl. apply IH. exact H.
Qed.

Lemma nth_insert_assinatura (d : Element) (s : string) (j : nat) (c : Element) :
  nth_error (children_of d) j = Some c ->
  nth_error (children_of (insert_assinatura d s)) j = Some c
  \/ (has_local "Assinatura" c = true
      /\ exists t a x tl cs,
           c = Elem t a x tl cs
           /\ nth_error (children_of (insert_assinatura d s)) j
              = Some (Elem t a (Some s) tl cs)).
Proof.
  destruct d as [t a x tl cs]. unfold insert_assinatura. cbn [children_of].
  intros H. destruct (find_child _ _); cbn [children_of].
  - apply nth_set_first_text. exact H.
  - left. rewrite nth_error_app1; [exact H|].
    apply nth_error_Some. congruence.
Qed.

(** A unit inside a unit is where it was after the outer one is signed. *)
Lemma subtree_insert (d : Element) (s : string) (j : nat) (r : Path)
  (x : Element) :
  subtree d (j :: r) = Some x -> local_name x = "NFTS" ->
  subtree (insert_assinatura d s) (j :: r) = Some x.
Proof.
  cbn [subtree]. intros H Hx.
  destruct (nth_error (children_of d) j) as [c|] eqn:E; [|discriminate].
  destruct (nth_insert_assinatura d s j c E)
    as [->|(Hc & t & a & x0 & tl & cs & -> & ->)]; [exact H|].
  destruct r as [|k r'].
  - injection H as <-. unfold has_local in Hc. apply String.eqb_eq in Hc.
    congruence.
  - rewrite (subtree_text t a x0 (Some s) tl cs k r'). exact H.
Qed.

Lemma local_insert_assinatura (d : Element) (s : string) :
  local_name (insert_assinatura d s) = local_name d.
Proof.
  destruct d as [t a x tl cs]. unfold insert_assinatura.
  destruct (find_child _ _); reflexivity.
Qed.

(** The units of a document after one of them is signed: each is where
    it was and stays valid if it was, and the one that is signed is
    valid. *)
Lemma units_after_signature (p : Path) :
  forall root d s q x,
    subtree root p = Some d -> local_name d = "NFTS" ->
    verify (insert_assinatura d s) = Ok Valid ->
    subtree root q = Some x -> local_name x = "NFTS" ->
    exists x',
      subtree (replace_at p (insert_assinatura d s) root) q = Some x'
      /\ local_name x' = "NFTS"
      /\ (verify x = Ok Valid -> verify x' = Ok Valid)
      /\ (q = p -> verify x' = Ok Valid).
Proof.
  induction p as [|i p1 IH]; intros root d s q x Hd Hn Hv Hq Hx.
  - injection Hd as ->. cbn [replace_at]. destruct q as [|j r].
    + injection Hq as <-. exists (insert_assinatura d s).
      rewrite local_insert_assinatura. auto.
    + exists x. rewrite (subtree_insert d s j r x Hq Hx).
      repeat split; auto. discriminate.
  - assert (Hn' : local_name (insert_assinatura d s) = "NFTS")
      by (rewrite local_insert_assinatura; exact Hn).
    destruct q as [|j r].
    + injection Hq as <-.
      exists (replace_at (i :: p1) (insert_assinatura d s) root).
      split; [reflexivity|]. split.
      * rewrite (local_replace_at (i :: p1) d _ root Hd); [exact Hx|].
        apply local_insert_assinatura.
      * split; [|discriminate].
        rewrite (verify_frame root i p1 d _ Hd Hn Hn'). auto.
    + cbn [subtree] in Hd, Hq |- *. rewrite children_replace_at.
      destruct (Nat.eq_dec i j) as [<-|Hij].
      * rewrite nth_update_same.
        destruct (nth_error (children_of root) i) as [ci|]; [|discriminate].
        cbn [option_map].
        destruct (IH ci d s r x Hd Hn Hv Hq Hx) as (x' & H1 & H2 & H3 & H4).
        exists x'. repeat split; auto. intros [= ->]. auto.
      * rewrite (nth_update_other i j _ _ Hij). exists x.
        repeat split; auto. intros [= E]. congruence.
Qed.

Hypothesis Hkeys :
  compatible PrivateKey PublicKey rsa_sign rsa_verify private_key pubkey.

(** With a compatible key pair a unit gets signed, and the signed unit
    is valid. *)
Lemma sign_unit_valid (d : Element) :
  exists s, sign d = Ok (insert_assinatura d s)
            /\ verify (insert_assinatura d s) = Ok Valid.
Proof.
  destruct (Hkeys (Debug.build_tpNFTS_bytes d)) as (sig & Hs & Hv).
  exists (remove_spaces (Base64.b64encode sig)). split.
  - unfold sign_unit, sign_bytes_sha1_pkcs1. rewrite Hs. reflexivity.
  - unfold verify_unit.
    destruct (first_assinatura_after_insert d
                (remove_spaces (Base64.b64encode sig)))
      as (e & rest & -> & ->).
    rewrite debug_bytes_insert, Base64Facts.remove_spaces_idempotent,
      Base64Facts.encode_no_space, Base64Facts.decode_encode, Hv.
    reflexivity.
Qed.

(** ** The places of the units *)

Fixpoint paths_from (i : nat) (l : list Element) : list Path :=
  match l with
  | [] => []
  | c :: r => (map (cons i) (nfts_paths c) ++ paths_from (S i) r)%list
  end.

Lemma nfts_paths_eq (e : Element) :
  nfts_paths e
  = ((if has_local "NFTS" e then [[]] else [])
     ++ paths_from 0 (children_of e))%list.
Proof.
  destruct e as [t a x tl cs]. reflexivity.
Qed.

Lemma element_induction (P : Element -> Prop) :
  (forall t a x tl cs, Forall P cs -> P (Elem t a x tl cs)) ->
  forall e, P e.
Proof.
  intros H. fix rec 1. intros [t a x tl cs]. apply H.
  induction cs as [|c r IH]; constructor; [apply rec|exact IH].
Qed.

Lemma paths_from_in (q : Path) (cs : list Element) (k : nat) :
  In q (paths_from k cs) ->
  exists j c r, q = (k + j) :: r /\ nth_error cs j = Some c
                /\ In r (nfts_paths c).
Proof.
  revert k. induction cs as [|c0 rest IH]; intros k; [intros []|].
  cbn [paths_from]. rewrite in_app_iff. intros [H|H].
  - apply in_map_iff in H. destruct H as (r & <- & Hr).
    exists 0, c0, r. rewrite Nat.add_0_r. auto.
  - destruct (IH (S k) H) as (j & c & r & -> & Hn & Hr).
    exists (S j), c, r. split; [f_equal; lia|]. auto.
Qed.

(** Every listed place holds an element of local name [NFTS]. *)
Lemma nfts_paths_sound (e : Element) :
  forall q, In q (nfts_paths e) ->
            exists x, subtree e q = Some x /\ local_name x = "NFTS".
Proof.
  induction e as [t a x tl cs IH] using element_induction. intros q.
  rewrite nfts_paths_eq, in_app_iff. cbn [children_of]. intros [H|H].
  - destruct (has_local "NFTS" (Elem t a x tl cs)) eqn:E; [|destruct H].
    destruct H as [<-|[]]. eexists. split; [reflexivity|].
    apply String.eqb_eq. exact E.
  - destruct (paths_from_in q cs 0 H) as (j & c & r & -> & Hn & Hr).
    cbn [subtree children_of Nat.add]. rewrite Hn.
    rewrite Forall_forall in IH. apply (IH c); [|exact Hr].
    eapply nth_error_In. exact Hn.
Qed.

Lemma paths_from_app (i : nat) (l r : list Element) :
  paths_from i (l ++ r)
  = (paths_from i l ++ paths_from (i + List.length l) r)%list.
Proof.
  revert i. induction l as [|c l IH]; intros i; cbn [List.app paths_from].
  - rewrite Nat.add_0_r. reflexivity.
  - rewrite IH, <- List.app_assoc. do 3 f_equal. simpl. lia.
Qed.

Lemma nfts_paths_text (t : QName) a x x' tl cs :
  nfts_paths (Elem t a x' tl cs) = nfts_paths (Elem t a x tl cs).
Proof. rewrite !nfts_paths_eq. reflexivity. Qed.

Lemma paths_from_set_first_text (name s : string) (l : list Element) (i : nat) :
  paths_from i (set_first_text name s l) = paths_from i l.
Proof.
  revert i. induction l as [|c r IH]; intros i; [reflexivity|].
  cbn [set_first_text]. destruct (has_local name c).
  - cbn [paths_from]. destruct c as [t a x tl cs].
    rewrite (nfts_paths_text t a x (Some s) tl cs). reflexivity.
  - cbn [paths_from]. rewrite IH. reflexivity.
Qed.

Lemma nfts_paths_insert (d : Element) (s : string) :
  nfts_paths (insert_assinatura d s) = nfts_paths d.
Proof.
  rewrite !nfts_paths_eq. unfold has_local.
  rewrite local_insert_assinatura. f_equal.
  destruct d as [t a x tl cs]. unfold insert_assinatura.
  destruct (find_child _ _); cbn [children_of].
  - apply paths_from_set_first_text.
  - rewrite paths_from_app. cbn. apply List.app_nil_r.
Qed.

Lemma paths_from_update (f : Element -> Element) (cs : list Element)
  (i k : nat) (c : Element) :
  nth_error cs i = Some c -> nfts_paths (f c) = nfts_paths c ->
  paths_from k (update_nth i f cs) = paths_from k cs.
Proof.
  revert i k. induction cs as [|y r IH]; intros [|i] k; simpl; try discriminate.
  - intros [= ->] H. rewrite H. reflexivity.
  - intros Hn H. rewrite (IH i (S k) Hn H). reflexivity.
Qed.

(** A unit changed into one with the same units inside leaves the
    places of the units of the document as they are. *)
Lemma nfts_paths_replace (p : Path) :
  forall root d d',
    subtree root p = Some d ->
    nfts_paths d' = nfts_paths d -> local_name d' = local_name d ->
    nfts_paths (replace_at p d' root) = nfts_paths root.
Proof.
  induction p as [|i r IH]; intros root d d' Hs Hp Hl.
  - injection Hs as ->. exact Hp.
  - rewrite !nfts_paths_eq. unfold has_local.
    rewrite (local_replace_at (i :: r) d d' root Hs Hl). f_equal.
    rewrite children_replace_at. cbn [subtree] in Hs.
    destruct (nth_error (children_of root) i) as [ci|] eqn:Ei; [|discriminate].
    apply (paths_from_update _ _ i 0 ci Ei). apply (IH ci d d' Hs Hp Hl).
Qed.

(** ** The loop *)

Lemma sign_nodes_units (pending : list Path) :
  forall root,
    (forall q, In q pending ->
               exists x, subtree root q = Some x /\ local_name x = "NFTS") ->
    exists final,
      sign_nodes PrivateKey rsa_sign private_key pending root = Ok final
      /\ nfts_paths final = nfts_paths root
      /\ forall q x,
           subtree root q = Some x -> local_name x = "NFTS" ->
           exists x',
             subtree final q = Some x'
             /\ local_name x' = "NFTS"
             /\ (verify x = Ok Valid -> verify x' = Ok Valid)
             /\ (In q pending -> verify x' = Ok Valid).
Proof.
  induction pending as [|p rest IH]; intros root Hall.
  - exists root. split; [reflexivity|]. split; [reflexivity|].
    intros q x Hq Hx. exists x. repeat split; auto. intros [].
  - destruct (Hall p (or_introl eq_refl)) as (d & Hd & Hn).
    destruct (sign_unit_valid d) as (s & Hs & Hv).
    set (root1 := replace_at p (insert_assinatura d s) root).
    assert (Hall1 : forall q, In q rest ->
              exists x, subtree root1 q = Some x /\ local_name x = "NFTS").
    { intros q Hq. destruct (Hall q (or_intror Hq)) as (x & Hx & Hxn).
      destruct (units_after_signature p root d s q x Hd Hn Hv Hx Hxn)
        as (x' & H1 & H2 & _). exists x'. auto. }
    destruct (IH root1 Hall1) as (final & Hf & Hp & Hu).
    exists final. split; [|split].
    + cbn [sign_nodes]. rewrite Hd, Hs. cbn [Raising.bind]. exact Hf.
    + rewrite Hp. unfold root1.
      apply (nfts_paths_replace p root d _ Hd).
      * apply nfts_paths_insert.
      * apply local_insert_assinatura.
    + intros q x Hq Hx.
      destruct (units_after_signature p root d s q x Hd Hn Hv Hq Hx)
        as (x1 & A1 & A2 & A3 & A4).
      destruct (Hu q x1 A1 A2) as (x' & B1 & B2 & B3 & B4).
      exists x'. repeat split; auto.
      intros [<-|Hin]; auto.
Qed.

Lemma verify_nodes_valid (root : Element) (l : list Path) :
  (forall q, In q l ->
             exists x, subtree root q = Some x /\ verify x = Ok Valid) ->
  verify_nodes PublicKey rsa_verify sha1 pubkey
    (flat_map (fun p => found (subtree root p)) l)
  = Ok (map (fun _ => Valid) l).
Proof.
  induction l as [|p r IH]; intros H; [reflexivity|].
  destruct (H p (or_introl eq_refl)) as (x & Hx & Hv).
  cbn [flat_map map]. rewrite Hx. cbn [found List.app verify_nodes].
  rewrite Hv. cbn [Raising.bind].
  rewrite IH by (intros q Hq; apply H; right; exact Hq). reflexivity.
Qed.

Lemma document_signed_valid (root : Element) :
  exists signed,
    sign_nodes PrivateKey rsa_sign private_key (nfts_paths root) root
    = Ok signed
    /\ nfts_paths signed = nfts_paths root
    /\ verify_nodes PublicKey rsa_verify sha1 pubkey (nfts_nodes signed)
       = Ok (map (fun _ => Valid) (nfts_paths root)).
Proof.
  destruct (sign_nodes_units (nfts_paths root) root (nfts_paths_sound root))
    as (final & Hf & Hp & Hu).
  exists final. split; [exact Hf|]. split; [exact Hp|].
  unfold nfts_nodes. rewrite Hp. apply verify_nodes_valid.
  intros q Hq. destruct (nfts_paths_sound root q Hq) as (x & Hx & Hn).
  destruct (Hu q x Hx Hn) as (x' & B1 & _ & _ & B4). exists x'. auto.
Qed.

End DocumentFacts.

(** X21. With a compatible key pair, the loop of [sign_file] of the
    debug script over the units of a document signs every one of them
    without failing, leaves each unit at its place, and the loop of
    [verify_signed_nfts] over the signed document then reports every
    unit valid, in document order; this holds for units inside units
    too, the signature put into the inner one not being read by the
    canonical form of the outer one. *)
Theorem document_round_trip
  (PrivateKey PublicKey : Type)
  (rsa_sign : PrivateKey -> string -> result string)
  (rsa_verify : PublicKey -> string -> string -> bool)
  (sha1 : string -> string)
  (private_key : PrivateKey) (pubkey : PublicKey) (root : Element)
  (Hkeys : compatible PrivateKey PublicKey rsa_sign rsa_verify
             private_key pubkey) :
  exists signed,
    sign_nodes PrivateKey rsa_sign private_key (nfts_paths root) root
    = Ok signed
    /\ nfts_paths signed = nfts_paths root
    /\ verify_nodes PublicKey rsa_verify sha1 pubkey (nfts_nodes signed)
       = Ok (map (fun _ => Valid) (nfts_paths root)).
Proof.
  exact (document_signed_valid PrivateKey PublicKey rsa_sign rsa_verify sha1
           private_key pubkey Hkeys root).
Qed.

(** A batch with two units, one of them holding a unit of its own. *)
Definition batch : Element :=
  new_element "PedidoEnvioLoteNFTS" None
    [ new_element "Cabecalho" None [];
      new_element "NFTS" None
        [ new_element "TipoDocumento" (Some "01") [];
          new_element "Anexo" None
            [ new_element "NFTS" None
                [ new_element "TipoDocumento" (Some "02") [] ] ] ];
      new_element "NFTS" None
        [ new_element "Assinatura" (Some "AAAA") [];
          new_element "ValorServicos" (Some "3,5") [] ] ].

Lemma document_round_trip_witness :
  exists signed,
    sign_nodes N ToyRSA.sign ToyRSA.private_exponent (nfts_paths batch) batch
    = Ok signed
    /\ nfts_paths signed = nfts_paths batch
    /\ verify_nodes N ToyRSA.verify ToyRSA.digest ToyRSA.public_exponent
         (nfts_nodes signed)
       = Ok (map (fun _ => Valid) (nfts_paths batch)).
Proof.
  exact (document_round_trip N N ToyRSA.sign ToyRSA.verify ToyRSA.digest
           ToyRSA.private_exponent ToyRSA.public_exponent batch
           toy_keys_compatible).
Defined.

(** * The shortest decimal of a double reads back *)

Module ShortestFacts.

Import PyFloat FloatFacts ReadFacts ReprFacts AmountFacts Text.
Local Open Scope Z_scope.

(** Powers of ten above and below the point. *)
Definition U (j : Z) : Z := 10 ^ Z.max j 0.
Definition V (j : Z) : Z := 10 ^ Z.max (- j) 0.

Lemma U_pos (j : Z) : 0 < U j.
Proof. apply pow10_pos. lia. Qed.

Lemma V_pos (j : Z) : 0 < V j.
Proof. apply pow10_pos. lia. Qed.

Lemma scale10_eq (p q j : Z) : scale10 p q j = (p * V j, q * U j).
Proof.
  unfold scale10, U, V. destruct (Z.leb_spec 0 j).
  - rewrite Z.max_r, Z.max_l by lia. change (10 ^ 0) with 1. f_equal; ring.
  - rewrite Z.max_l, Z.max_r by lia. change (10 ^ 0) with 1. f_equal; ring.
Qed.

Lemma dec_ratio_eq (c j : Z) : dec_ratio c j = (c * U j, V j).
Proof.
  unfold dec_ratio, U, V. destruct (Z.leb_spec 0 j).
  - rewrite Z.max_l, Z.max_r by lia. reflexivity.
  - rewrite Z.max_r, Z.max_l by lia. change (10 ^ 0) with 1. f_equal; ring.
Qed.

Lemma UV_shift (j : Z) : U (j + 16) * V j = 10 ^ 16 * (U j * V (j + 16)).
Proof.
  unfold U, V.
  destruct (Z.le_gt_cases 0 j) as [H|H].
  - replace (Z.max (j + 16) 0) with (16 + j) by lia.
    replace (Z.max (- j) 0) with 0 by lia.
    replace (Z.max j 0) with j by lia.
    replace (Z.max (- (j + 16)) 0) with 0 by lia.
    rewrite pow10_add by lia. change (10 ^ 0) with 1. ring.
  - destruct (Z.le_gt_cases 0 (j + 16)) as [H'|H'].
    + replace (Z.max (j + 16) 0) with (j + 16) by lia.
      replace (Z.max (- j) 0) with (- j) by lia.
      replace (Z.max j 0) with 0 by lia.
      replace (Z.max (- (j + 16)) 0) with 0 by lia.
      rewrite <- pow10_add by lia. change (10 ^ 0) with 1.
      replace (j + 16 + - j) with 16 by lia. ring.
    + replace (Z.max (j + 16) 0) with 0 by lia.
      replace (Z.max (- j) 0) with (16 + - (j + 16)) by lia.
      replace (Z.max j 0) with 0 by lia.
      replace (Z.max (- (j + 16)) 0) with (- (j + 16)) by lia.
      change (10 ^ 0) with 1. rewrite pow10_add by lia. ring.
Qed.

(** The fraction of a double. *)
Lemma ratio_of_cross (m e : Z) :
  0 < m -> -1074 <= e ->
  0 < fst (ratio_of m e) /\ 0 < snd (ratio_of m e)
  /\ fst (ratio_of m e) * K = sv m e * snd (ratio_of m e).
Proof.
  intros Hm He. unfold ratio_of, sv, K. destruct (Z.leb_spec 0 e); cbn [fst snd].
  - pose proof (pow2_pos e ltac:(lia)).
    split; [nia|]. split; [lia|]. rewrite (Z.add_comm e 1074).
    rewrite (pow2_add 1074 e) by lia. ring.
  - pose proof (pow2_pos (- e) ltac:(lia)).
    split; [lia|]. split; [lia|].
    rewrite <- Z.mul_assoc, <- pow2_add by lia. do 2 f_equal. lia.
Qed.

(** The nearest integer to a value of at least [10^16] units is within
    one part in [2 * 10^16] of it. *)
Lemma nearest_close (p q X u v : Z) :
  0 < p -> 0 < q -> 0 < u -> 0 < v ->
  p * K = X * q -> 10 ^ 16 * (q * u) <= p * v ->
  let c := rne_div (p * v) (q * u) in
  0 < c
  /\ 2 * Z.abs (X * v - c * u * K) <= K * u
  /\ 10 ^ 16 * (K * u) <= X * v.
Proof.
  intros Hp Hq Hu Hv E Hbig c.
  pose proof K_pos as HK.
  assert (Hqu : 0 < q * u) by nia.
  pose proof (rne_div_bound (p * v) (q * u) Hqu) as B. fold c in B.
  split; [|split].
  - assert (10 ^ 16 * (q * u) <= p * v) by exact Hbig.
    assert (0 < 10 ^ 16) by reflexivity.
    destruct (Z.le_gt_cases c 0) as [Hc|Hc]; [|exact Hc]. exfalso.
    assert (q * u * c <= 0) by nia.
    assert (2 * (p * v - q * u * c) <= q * u) by lia.
    change (10 ^ 16) with 10000000000000000 in *. nia.
  - assert (Eq : (X * v - c * u * K) * q = (p * v - q * u * c) * K).
    { replace ((X * v - c * u * K) * q) with (X * q * v - q * u * c * K) by ring.
      rewrite <- E. ring. }
    assert (Ha : Z.abs (X * v - c * u * K) * q
                 = Z.abs (p * v - q * u * c) * K).
    { rewrite <- !abs_mul_pos by lia. f_equal. exact Eq. }
    assert (Hb : 2 * Z.abs (p * v - q * u * c) <= q * u) by lia.
    assert (Hc : 2 * (Z.abs (X * v - c * u * K) * q) <= K * u * q).
    { rewrite Ha. replace (K * u * q) with (q * u * K) by ring.
      replace (2 * (Z.abs (p * v - q * u * c) * K))
        with (2 * Z.abs (p * v - q * u * c) * K) by ring.
      apply Z.mul_le_mono_nonneg_r; lia. }
    apply (Z.mul_le_mono_pos_r _ _ q Hq).
    replace (2 * Z.abs (X * v - c * u * K) * q)
      with (2 * (Z.abs (X * v - c * u * K) * q)) by ring. exact Hc.
  - apply (Z.mul_le_mono_pos_r _ _ q Hq).
    replace (X * v * q) with (X * q * v) by ring. rewrite <- E.
    replace (10 ^ 16 * (K * u) * q) with (10 ^ 16 * (q * u) * K) by ring.
    replace (p * K * v) with (p * v * K) by ring.
    apply Z.mul_le_mono_nonneg_r; lia.
Qed.

(** [p / q] is at least [10^(k-1)]. *)
Definition at_least (p q k : Z) : Prop := q * U (k - 1) <= p * V (k - 1).

(** The nearest decimal of 17 digits to a double reads back as the
    double. *)
Lemma nearest17_reads_back (m e k : Z) :
  canon m e -> 0 < m ->
  at_least (fst (ratio_of m e)) (snd (ratio_of m e)) k ->
  let c := rne_div (fst (ratio_of m e) * V (k - 17))
             (snd (ratio_of m e) * U (k - 17)) in
  0 < c /\ of_decimal false c (k - 17) = Finite false m e.
Proof.
  intros Hc Hm Hk. pose proof Hc as [Hv _]. pose proof Hv as [_ [He _]].
  destruct (ratio_of_cross m e Hm He) as (Hp & Hq & E).
  set (p := fst (ratio_of m e)) in *. set (q := snd (ratio_of m e)) in *.
  set (j := k - 17). unfold at_least in Hk.
  replace (k - 1) with (j + 16) in Hk by (unfold j; lia).
  pose proof (U_pos j) as PU. pose proof (V_pos j) as PV.
  pose proof (U_pos (j + 16)) as PU'. pose proof (V_pos (j + 16)) as PV'.
  assert (Hbig : 10 ^ 16 * (q * U j) <= p * V j).
  { apply (Z.mul_le_mono_pos_r _ _ (V (j + 16)) PV').
    replace (10 ^ 16 * (q * U j) * V (j + 16))
      with (q * (10 ^ 16 * (U j * V (j + 16)))) by ring.
    rewrite <- UV_shift.
    replace (q * (U (j + 16) * V j)) with (q * U (j + 16) * V j) by ring.
    replace (p * V j * V (j + 16)) with (p * V (j + 16) * V j) by ring.
    apply Z.mul_le_mono_nonneg_r; lia. }
  destruct (nearest_close p q (sv m e) (U j) (V j) Hp Hq PU PV E Hbig)
    as (C0 & C1 & C2).
  cbv zeta. set (c := rne_div (p * V j) (q * U j)) in *.
  split; [exact C0|].
  rewrite of_decimal_eq. destruct (Z.eqb_spec c 0) as [Z0|_]; [lia|].
  rewrite dec_ratio_eq. cbn [fst snd].
  assert (HP : 0 < c * U j) by nia.
  rewrite (of_ratio_hit (c * U j) (V j) m e HP PV Hc Hm); [reflexivity|].
  pose proof (of_ratio_nearest (c * U j) (V j) m e HP PV Hv) as N.
  set (Y := rman (c * U j) (V j) * 2 ^ (rexp (c * U j) (V j) + 1074)) in *.
  apply (Z.mul_le_mono_pos_r _ _ (V j) PV).
  replace (10 ^ 16 * Z.abs (Y - sv m e) * V j)
    with (10 ^ 16 * (Z.abs (Y - sv m e) * V j)) by ring.
  rewrite <- abs_mul_pos by exact PV.
  replace ((Y - sv m e) * V j) with (Y * V j - sv m e * V j) by ring.
  generalize dependent (Y * V j). generalize dependent (sv m e * V j).
  generalize dependent (c * U j * K). generalize dependent (K * U j).
  intros. change (10 ^ 16) with 10000000000000000 in *. lia.
Qed.

(** ** The position of the decimal point *)

Lemma dec_point_from_at_least (fuel : nat) (p q : Z) :
  forall k, at_least p q k -> at_least p q (dec_point_from fuel k p q).
Proof.
  induction fuel as [|f IH]; intros k Hk; [exact Hk|].
  cbn [dec_point_from]. rewrite scale10_eq.
  destruct (Z.ltb_spec (p * V k) (q * U k)) as [H|H]; [exact Hk|].
  apply IH. unfold at_least. replace (k + 1 - 1) with k by lia. exact H.
Qed.

Lemma pow2_1074_small : 2 ^ 1074 <= 10 ^ 325.
Proof. apply Z.leb_le. vm_compute. reflexivity. Qed.

Lemma dec_point_at_least (m e : Z) :
  0 < m -> -1074 <= e ->
  at_least (fst (ratio_of m e)) (snd (ratio_of m e))
    (dec_point (fst (ratio_of m e)) (snd (ratio_of m e))).
Proof.
  intros Hm He. unfold dec_point. apply dec_point_from_at_least.
  unfold at_least. change (U (-324 - 1)) with 1.
  change (V (-324 - 1)) with (10 ^ 325).
  pose proof pow2_1074_small as S.
  assert (Hq : snd (ratio_of m e) <= 2 ^ 1074).
  { unfold ratio_of. destruct (Z.leb_spec 0 e); cbn [snd].
    - pose proof (pow2_pos 1074 ltac:(lia)). lia.
    - apply Z.pow_le_mono_r; lia. }
  destruct (ratio_of_cross m e Hm He) as (Hp & Hq0 & _).
  set (p := fst (ratio_of m e)) in *. set (q := snd (ratio_of m e)) in *.
  generalize dependent (2 ^ 1074). generalize dependent (10 ^ 325).
  intros B A S Hq.
  assert (1 * B <= p * B) by (apply Z.mul_le_mono_nonneg_r; lia). lia.
Qed.

(** ** The search for the shortest decimal *)

Lemma of_decimal_neg (neg neg' : bool) (d x m e : Z) :
  of_decimal neg d x = Finite neg' m e -> neg' = neg.
Proof.
  rewrite of_decimal_eq. destruct (d =? 0); [intros [= <- _ _]; reflexivity|].
  destruct (of_ratio _ _) as [[m' e']|]; [|discriminate].
  intros [= <- _ _]. reflexivity.
Qed.

Lemma reads_back_spec (m e c x : Z) :
  reads_back m e c x = true -> of_decimal false c x = Finite false m e.
Proof.
  unfold reads_back. destruct (of_decimal false c x) as [s m' e'| |] eqn:E;
    try discriminate.
  intros H. apply andb_true_iff in H. destruct H as [H1 H2].
  apply Z.eqb_eq in H1, H2. subst m' e'.
  rewrite (of_decimal_neg _ _ _ _ _ _ E). reflexivity.
Qed.

Lemma reads_back_nonzero (m e c x : Z) :
  0 < m -> reads_back m e c x = true -> c <> 0.
Proof.
  intros Hm H ->. apply reads_back_spec in H. rewrite of_decimal_eq in H.
  cbn in H. injection H as H _. lia.
Qed.

Lemma shortest_at_reads (m e k n c : Z) :
  0 < m -> -1074 <= e ->
  shortest_at m e k n = Some c ->
  0 < c /\ of_decimal false c (k - n) = Finite false m e.
Proof.
  intros Hm He. unfold shortest_at.
  destruct (ratio_of_cross m e Hm He) as (Hp & Hq & _).
  destruct (ratio_of m e) as [p q]. cbn [fst snd] in Hp, Hq.
  rewrite scale10_eq.
  pose proof (U_pos (k - n)) as PU. pose proof (V_pos (k - n)) as PV.
  assert (Hlo : 0 <= p * V (k - n) / (q * U (k - n))).
  { apply Z.div_pos; nia. }
  set (lo := p * V (k - n) / (q * U (k - n))) in *.
  assert (R : forall c', 0 <= c' -> reads_back m e c' (k - n) = true ->
                0 < c' /\ of_decimal false c' (k - n) = Finite false m e).
  { intros c' H0 H. split; [|apply reads_back_spec; exact H].
    pose proof (reads_back_nonzero m e c' (k - n) Hm H). lia. }
  destruct (_ =? 0).
  - destruct (reads_back m e lo (k - n)) eqn:E; [|discriminate].
    intros [= <-]. apply R; assumption.
  - destruct (reads_back m e lo (k - n)) eqn:E1;
      destruct (reads_back m e (lo + 1) (k - n)) eqn:E2; try discriminate.
    + intros [= <-].
      destruct (_ ?= _); [destruct (Z.even lo)| |];
        apply R; try assumption; lia.
    + intros [= <-]. apply R; assumption.
    + intros [= <-]. apply R; [lia|assumption].
Qed.

(** What the search returns reads back as the double. *)
Lemma shortest_from_reads (m e k : Z) (fuel : nat) :
  canon m e -> 0 < m ->
  at_least (fst (ratio_of m e)) (snd (ratio_of m e)) k ->
  forall n,
    0 < fst (shortest_from fuel m e k n)
    /\ of_decimal false (fst (shortest_from fuel m e k n))
         (snd (shortest_from fuel m e k n))
       = Finite false m e.
Proof.
  intros Hc Hm Hk. pose proof Hc as [[_ [He _]] _].
  induction fuel as [|f IH]; intros n.
  - cbn [shortest_from].
    pose proof (nearest17_reads_back m e k Hc Hm Hk) as H. cbv zeta in H.
    destruct (ratio_of m e) as [p q]. cbn [fst snd] in H.
    rewrite scale10_eq. cbn [fst snd]. exact H.
  - cbn [shortest_from]. destruct (shortest_at m e k n) as [c|] eqn:E.
    + cbn [fst snd]. apply shortest_at_reads; assumption.
    + apply IH.
Qed.

(** ** The digits *)

Local Open Scope string_scope.

Lemma rstrip_zeros_spec (s : string) :
  exists z, s = rstrip_zeros s ++ zeros z.
Proof.
  induction s as [|c r [z IH]]; [exists 0%nat; reflexivity|].
  cbn [rstrip_zeros]. destruct (rstrip_zeros r) as [|d t] eqn:E.
  - simpl in IH. destruct (Ascii.eqb_spec c "0") as [->|Hc].
    + exists (S z). rewrite IH. reflexivity.
    + exists z. rewrite IH. reflexivity.
  - exists z. rewrite IH at 1. reflexivity.
Qed.

Lemma zeros_digits (z : nat) : all_chars is_ascii_digit (zeros z) = true.
Proof. induction z; simpl; auto. Qed.

Lemma zeros_length (z : nat) : String.length (zeros z) = z.
Proof. induction z; simpl; auto. Qed.

Lemma zeros_value (z : nat) (acc : Z) :
  digits_value_from acc (zeros z) = (acc * 10 ^ Z.of_nat z)%Z.
Proof.
  revert acc. induction z as [|z IH]; intros acc.
  - cbn. lia.
  - cbn [zeros digits_value_from]. rewrite IH.
    change (digit_of "0") with 0%Z. rewrite Nat2Z.inj_succ, Z.pow_succ_r by lia.
    ring.
Qed.

Lemma all_chars_app_l (p : ascii -> bool) (s t : string) :
  all_chars p (s ++ t) = true -> all_chars p s = true.
Proof. rewrite all_chars_append. intros H. apply andb_true_iff in H. tauto. Qed.

Lemma all_chars_app_r (p : ascii -> bool) (s t : string) :
  all_chars p (s ++ t) = true -> all_chars p t = true.
Proof. rewrite all_chars_append. intros H. apply andb_true_iff in H. tauto. Qed.

(** The digits of a positive integer without the zeros at their end. *)
Lemma stripped_digits (c : Z) :
  (0 < c)%Z ->
  exists z : nat,
    let ds := rstrip_zeros (str_of_Z c) in
    str_of_Z c = ds ++ zeros z
    /\ all_chars is_ascii_digit ds = true
    /\ ds <> ""
    /\ (0 < digits_value ds)%Z
    /\ c = (digits_value ds * 10 ^ Z.of_nat z)%Z
    /\ String.length (str_of_Z c) = (String.length ds + z)%nat.
Proof.
  intros Hc. destruct (rstrip_zeros_spec (str_of_Z c)) as [z E].
  exists z. cbv zeta. set (ds := rstrip_zeros (str_of_Z c)) in *.
  destruct (str_digits (Z.to_N c)) as [Hd _]. fold (str_of_Z c) in Hd.
  assert (Hv : digits_value (str_of_Z c) = c).
  { unfold str_of_Z. rewrite digits_value_str. lia. }
  assert (Hds : all_chars is_ascii_digit ds = true).
  { rewrite E in Hd. apply all_chars_app_l in Hd. exact Hd. }
  assert (Ev : c = (digits_value ds * 10 ^ Z.of_nat z)%Z).
  { rewrite <- Hv at 1. rewrite E. unfold digits_value.
    rewrite digits_value_from_app, zeros_value. reflexivity. }
  assert (Hpos : (0 < digits_value ds)%Z).
  { pose proof (digits_value_from_nonneg ds 0 Hds ltac:(lia)) as H0.
    fold (digits_value ds) in H0.
    destruct (Z.eq_dec (digits_value ds) 0) as [Z0|]; [|lia].
    rewrite Z0 in Ev. lia. }
  split; [exact E|]. split; [exact Hds|]. split; [|split; [exact Hpos|]].
  - intros Z0. rewrite Z0 in Hpos. cbn in Hpos. lia.
  - split; [exact Ev|]. rewrite E at 1.
    rewrite length_append, zeros_length. reflexivity.
Qed.

(** The digits and the point of a double denote it. *)
Lemma shortest_digits_reads (m e : Z) :
  canon m e -> (0 < m)%Z ->
  let ds := fst (shortest_digits m e) in
  let decpt := snd (shortest_digits m e) in
  all_chars is_ascii_digit ds = true /\ ds <> ""
  /\ forall neg,
       of_decimal neg (digits_value ds) (decpt - Z.of_nat (String.length ds))
       = Finite neg m e.
Proof.
  intros Hc Hm. pose proof Hc as [[_ [He _]] _].
  pose proof (dec_point_at_least m e Hm He) as Hk.
  pose proof (shortest_from_reads m e _ 17 Hc Hm Hk 1%Z) as [Hpos Hread].
  unfold shortest_digits. destruct (ratio_of m e) as [p q]. cbn [fst snd] in *.
  destruct (shortest_from 17 m e (dec_point p q) 1) as [c x].
  cbn [fst snd] in *.
  destruct (stripped_digits c Hpos) as (z & E & Hd & Hne & Hv & Ev & El).
  cbv zeta in *. set (ds := rstrip_zeros (str_of_Z c)) in *.
  split; [exact Hd|]. split; [exact Hne|]. intros neg.
  apply of_decimal_sign. rewrite El, Nat2Z.inj_add.
  replace (x + (Z.of_nat (String.length ds) + Z.of_nat z)
           - Z.of_nat (String.length ds))%Z with (x + Z.of_nat z)%Z by lia.
  rewrite <- of_decimal_shift by lia. rewrite <- Ev. exact Hread.
Qed.

(** ** The exponent *)

Lemma digits_value_zero_head (s : string) :
  digits_value (String "0" s) = digits_value s.
Proof. reflexivity. Qed.

Lemma str_of_Z_value (n : Z) : (0 <= n)%Z -> digits_value (str_of_Z n) = n.
Proof. intros H. unfold str_of_Z. rewrite digits_value_str. lia. Qed.

Lemma str_of_Z_digits (n : Z) :
  all_chars is_ascii_digit (str_of_Z n) = true /\ str_of_Z n <> "".
Proof. apply str_digits. Qed.

Lemma span_digits_all (s : string) :
  all_chars is_ascii_digit s = true -> span_digits s = (s, "").
Proof.
  intros H. rewrite <- (append_nil_r s) at 1.
  apply span_digits_app; [exact H|exact I].
Qed.

Lemma parse_exponent_str (z : Z) :
  parse_exponent ("e" ++ exponent_str z) = Some z.
Proof.
  unfold exponent_str. cbn [append parse_exponent].
  change (Ascii.eqb "e" "e" || Ascii.eqb "e" "E") with true. cbv iota.
  destruct (str_of_Z_digits (Z.abs z)) as [Hd Hne].
  pose proof (str_of_Z_value (Z.abs z) (Z.abs_nonneg z)) as Hv.
  set (a := str_of_Z (Z.abs z)) in *.
  set (body := if (Z.abs z <? 10)%Z then String "0" a else a).
  assert (Hb : all_chars is_ascii_digit body = true /\ body <> ""
                /\ digits_value body = Z.abs z).
  { unfold body. destruct (Z.abs z <? 10)%Z.
    - split; [simpl; exact Hd|]. split; [discriminate|exact Hv].
    - auto. }
  destruct Hb as (Hbd & Hbn & Hbv).
  destruct (Z.ltb_spec z 0).
  - cbn [split_sign]. rewrite (span_digits_all body Hbd).
    destruct body; [congruence|]. rewrite Hbv. f_equal. lia.
  - cbn [split_sign]. rewrite (span_digits_all body Hbd).
    destruct body; [congruence|]. rewrite Hbv. f_equal. lia.
Qed.

Definition mark (c : ascii) : bool := plain_char c && solid c.

Lemma digit_mark (c : ascii) : is_ascii_digit c = true -> mark c = true.
Proof.
  intros H. unfold mark. rewrite (digit_plain c H), (digit_solid c H).
  reflexivity.
Qed.

Lemma exponent_tail (z : Z) :
  tail_ok ("e" ++ exponent_str z)
  /\ all_chars plain_char ("e" ++ exponent_str z) = true
  /\ all_chars solid ("e" ++ exponent_str z) = true.
Proof.
  unfold exponent_str. destruct (str_of_Z_digits (Z.abs z)) as [Hd _].
  set (a := str_of_Z (Z.abs z)) in *.
  assert (Hb : all_chars is_ascii_digit
                 (if (Z.abs z <? 10)%Z then String "0" a else a) = true).
  { destruct (Z.abs z <? 10)%Z; [simpl|]; exact Hd. }
  set (body := if (Z.abs z <? 10)%Z then String "0" a else a) in *.
  split; [split; [reflexivity|discriminate]|].
  cbn [append all_chars].
  rewrite (digits_plain body Hb), (digits_solid body Hb).
  destruct (z <? 0)%Z; split; reflexivity.
Qed.

Lemma zeros_app (a b : nat) : zeros a ++ zeros b = zeros (a + b).
Proof. induction a as [|a IH]; simpl; [reflexivity|]. rewrite IH. reflexivity. Qed.

(** ** Taking a string apart *)

Lemma take_drop (k : nat) (s : string) : take k s ++ drop k s = s.
Proof.
  revert s. induction k as [|k IH]; intros [|c r]; simpl; auto.
  rewrite IH. reflexivity.
Qed.

Lemma all_chars_drop (p : ascii -> bool) (k : nat) (s : string) :
  all_chars p s = true -> all_chars p (drop k s) = true.
Proof.
  revert s. induction k as [|k IH]; intros [|c r]; simpl; auto.
  intros H. apply andb_true_iff in H. apply IH. tauto.
Qed.

Lemma length_drop (k : nat) (s : string) :
  String.length (drop k s) = (String.length s - k)%nat.
Proof.
  revert s. induction k as [|k IH]; intros [|c r]; simpl; auto.
Qed.

(** ** Reading the four forms [str] writes *)

Lemma read_exp_one (neg : bool) (d : ascii) (z : Z) :
  is_ascii_digit d = true ->
  float_of_string (sign_str neg ++ String d ("e" ++ exponent_str z))
  = Ok (of_decimal neg (digits_value (String d "")) z).
Proof.
  intros Hd. destruct (exponent_tail z) as (Ht & Hp & _).
  apply (float_of_undotted neg (String d "") ("e" ++ exponent_str z) z).
  - simpl. rewrite Hd. reflexivity.
  - discriminate.
  - exact Ht.
  - exact Hp.
  - apply parse_exponent_str.
Qed.

Lemma read_exp_many (neg : bool) (d : ascii) (r : string) (z : Z) :
  all_chars is_ascii_digit (String d r) = true ->
  float_of_string
    (sign_str neg ++ String d ("." ++ r ++ "e" ++ exponent_str z))
  = Ok (of_decimal neg (digits_value (String d r))
          (z - Z.of_nat (String.length r))).
Proof.
  intros Hd. destruct (exponent_tail z) as (Ht & Hp & _).
  simpl in Hd. apply andb_true_iff in Hd. destruct Hd as [Hd Hr].
  apply (float_of_dotted neg (String d "") r ("e" ++ exponent_str z) z).
  - simpl. rewrite Hd. reflexivity.
  - exact Hr.
  - discriminate.
  - exact Ht.
  - exact Hp.
  - apply parse_exponent_str.
Qed.

Lemma read_small (neg : bool) (k : nat) (ds : string) :
  all_chars is_ascii_digit ds = true ->
  float_of_string (sign_str neg ++ "0." ++ zeros k ++ ds)
  = Ok (of_decimal neg (digits_value ds)
          (- Z.of_nat (k + String.length ds))).
Proof.
  intros Hd.
  pose proof (float_of_dotted neg "0" (zeros k ++ ds) "" 0%Z eq_refl) as P.
  rewrite append_nil_r in P. cbn [append] in P |- *. rewrite P.
  - f_equal. f_equal.
    + change (String "0" (zeros k ++ ds)) with (zeros (S k) ++ ds).
      unfold digits_value. rewrite digits_value_from_app, zeros_value.
      reflexivity.
    + rewrite length_append, zeros_length. lia.
  - apply all_chars_app_intro; [apply zeros_digits|exact Hd].
  - discriminate.
  - exact I.
  - reflexivity.
  - reflexivity.
Qed.

Lemma read_whole (neg : bool) (ds : string) (k : nat) :
  all_chars is_ascii_digit ds = true -> ds <> "" ->
  (0 < digits_value ds)%Z ->
  float_of_string (sign_str neg ++ ds ++ zeros k ++ ".0")
  = Ok (of_decimal neg (digits_value ds) (Z.of_nat k)).
Proof.
  intros Hd Hne Hpos.
  pose proof (float_of_dotted neg (ds ++ zeros k) "0" "" 0%Z) as P.
  cbn [append] in P. rewrite (append_assoc ds (zeros k) ".0") in P.
  rewrite P.
  - f_equal.
    replace (digits_value ((ds ++ zeros k) ++ "0"))
      with (digits_value ds * 10 ^ (Z.of_nat k + 1))%Z.
    + rewrite of_decimal_shift by lia. f_equal.
      change (Z.of_nat (String.length "0")) with 1%Z. lia.
    + change "0" with (zeros 1). rewrite append_assoc. unfold digits_value.
      rewrite digits_value_from_app.
      rewrite zeros_app, zeros_value. f_equal. f_equal. lia.
  - apply all_chars_app_intro; [exact Hd|apply zeros_digits].
  - reflexivity.
  - destruct ds; [congruence|discriminate].
  - exact I.
  - reflexivity.
  - reflexivity.
Qed.

Lemma read_split (neg : bool) (k : nat) (ds : string) :
  all_chars is_ascii_digit ds = true -> ds <> "" ->
  float_of_string (sign_str neg ++ take k ds ++ "." ++ drop k ds)
  = Ok (of_decimal neg (digits_value ds)
          (- Z.of_nat (String.length ds - k))).
Proof.
  intros Hd Hne.
  pose proof (float_of_dotted neg (take k ds) (drop k ds) "" 0%Z) as P.
  rewrite append_nil_r, take_drop in P. rewrite P.
  - rewrite length_drop. reflexivity.
  - apply all_chars_take. exact Hd.
  - apply all_chars_drop. exact Hd.
  - exact Hne.
  - exact I.
  - reflexivity.
  - reflexivity.
Qed.

(** [str] of a double, read by [float], is the double. *)
Lemma repr_finite_reads (neg : bool) (m e : Z) :
  canon m e -> (0 < m)%Z ->
  float_of_string (sign_str neg ++ repr_finite m e) = Ok (Finite neg m e)
  /\ all_chars solid (repr_finite m e) = true.
Proof.
  intros Hc Hm. unfold repr_finite.
  destruct (Z.eqb_spec m 0) as [Z0|_]; [lia|].
  pose proof (shortest_digits_reads m e Hc Hm) as H. cbv zeta in H.
  destruct (shortest_digits m e) as [ds decpt]. cbn [fst snd] in H.
  destruct H as (Hd & Hne & Hread). specialize (Hread neg).
  pose proof (digits_solid ds Hd) as Hs.
  destruct ((decpt <=? -4)%Z || (16 <? decpt)%Z).
  - destruct (exponent_tail (decpt - 1)) as (_ & _ & Hts).
    destruct ds as [|d r]; [congruence|]. destruct r as [|d2 r2].
    + split.
      * rewrite read_exp_one by (simpl in Hd; apply andb_true_iff in Hd; tauto).
        f_equal. exact Hread.
      * cbn [all_chars append] in Hs |- *. apply andb_true_iff in Hs.
        destruct Hs as [-> _]. exact Hts.
    + split.
      * rewrite read_exp_many by exact Hd. f_equal. rewrite <- Hread.
        f_equal. cbn [String.length]. lia.
      * change (String d ("." ++ String d2 r2 ++ "e" ++ exponent_str (decpt - 1)))
          with (String d "" ++ "." ++ String d2 r2 ++ "e"
                ++ exponent_str (decpt - 1)).
        cbn [all_chars] in Hs. apply andb_true_iff in Hs. destruct Hs as [H1 H2].
        apply all_chars_app_intro; [simpl; rewrite H1; reflexivity|].
        apply (all_chars_app_intro solid "."); [reflexivity|].
        apply all_chars_app_intro; [exact H2|exact Hts].
  - destruct (Z.leb_spec decpt 0) as [L0|L0].
    + split.
      * rewrite read_small by exact Hd. f_equal. rewrite <- Hread. f_equal.
        rewrite Nat2Z.inj_add, Z2Nat.id by lia. lia.
      * apply (all_chars_app_intro solid "0."); [reflexivity|].
        apply all_chars_app_intro; [|exact Hs].
        apply digits_solid, zeros_digits.
    + destruct (Z.leb_spec (Z.of_nat (String.length ds)) decpt) as [L1|L1].
      * split.
        -- rewrite read_whole; [|exact Hd|exact Hne|].
           ++ f_equal. rewrite <- Hread. f_equal.
              rewrite Z2Nat.id by lia. reflexivity.
           ++ pose proof (digits_value_from_nonneg ds 0 Hd ltac:(lia)) as H0.
              fold (digits_value ds) in H0.
              destruct (Z.eq_dec (digits_value ds) 0) as [E0|]; [|lia].
              exfalso. rewrite E0, of_decimal_eq in Hread. cbn in Hread.
              injection Hread as Hmz _. lia.
        -- apply all_chars_app_intro; [exact Hs|].
           apply all_chars_app_intro; [apply digits_solid, zeros_digits|].
           reflexivity.
      * split.
        -- rewrite read_split by assumption. f_equal. rewrite <- Hread.
           f_equal. rewrite Nat2Z.inj_sub, Z2Nat.id by lia. lia.
        -- apply all_chars_app_intro; [apply all_chars_take; exact Hs|].
           apply (all_chars_app_intro solid "."); [reflexivity|].
           apply all_chars_drop. exact Hs.
Qed.

(** ** The doubles [float] returns *)

Lemma zero_canon : canon 0 emin.
Proof. split; [exact zero_valid|right; reflexivity]. Qed.

Lemma of_decimal_canon (neg neg' : bool) (d x m e : Z) :
  (0 <= d)%Z -> of_decimal neg d x = Finite neg' m e -> canon m e.
Proof.
  intros Hd. rewrite of_decimal_eq. destruct (Z.eqb_spec d 0) as [E|E].
  - intros [= _ <- <-]. exact zero_canon.
  - destruct (dec_ratio_pos d x ltac:(lia)) as [Hp Hq].
    destruct (of_ratio _ _) as [[m' e']|] eqn:Er; [|discriminate].
    intros [= _ <- <-]. exact (of_ratio_canon _ _ _ _ Hp Hq Er).
Qed.

Lemma float_of_string_canon (s : string) (neg : bool) (m e : Z) :
  float_of_string s = Ok (Finite neg m e) -> canon m e.
Proof.
  unfold float_of_string.
  destruct (drop_underscores None s) as [s'|]; [|discriminate].
  destruct (split_sign s') as [sg body].
  destruct (String.eqb (lower body) "inf" || String.eqb (lower body) "infinity");
    [discriminate|].
  destruct (String.eqb (lower body) "nan"); [discriminate|].
  pose proof (span_digits_digits body) as Hi.
  destruct (span_digits body) as [ip r1]. simpl in Hi.
  assert (Hf : all_chars is_ascii_digit
                 (fst match r1 with
                      | String "." t => span_digits t
                      | _ => (EmptyString, r1)
                      end) = true).
  { destruct r1 as [|c t]; [reflexivity|].
    destruct c as [[] [] [] [] [] [] [] []]; try reflexivity.
    apply span_digits_digits. }
  destruct (match r1 with
            | String "." t => span_digits t
            | _ => (EmptyString, r1)
            end) as [fp r2].
  simpl in Hf.
  pose proof (all_chars_app_intro _ _ _ Hi Hf) as Hd.
  destruct (ip ++ fp) as [|c ds] eqn:Eds; [discriminate|].
  destruct (parse_exponent r2) as [x|]; [|discriminate].
  intros [= H].
  apply of_decimal_canon in H; [exact H|].
  apply digits_value_from_nonneg; [exact Hd|lia].
Qed.

(** [str(float(s))], read again and written again, is the same text. *)
Lemma float_settled (text : string) :
  normalize_float_value (Some (normalize_float_value (Some text) false)) false
  = normalize_float_value (Some text) false.
Proof.
  rewrite (float_value_eq text).
  destruct (float_of_string (fclean text)) as [[neg m e|neg|]|err] eqn:E.
  - pose proof (float_of_string_canon _ _ _ _ E) as Hc.
    pose proof Hc as [[[Hm _] _] Hn].
    destruct (Z.eq_dec m 0) as [Z0|Z0].
    + subst m. assert (e = -1074)%Z by (destruct Hn as [Hn|Hn]; [cbn in Hn|]; lia).
      subst e. destruct neg; vm_compute; reflexivity.
    + destruct (repr_finite_reads neg m e Hc ltac:(lia)) as [Hr Hs].
      rewrite float_value_eq. cbn [repr].
      rewrite fclean_solid, Hr; [reflexivity|].
      apply all_chars_app_intro; [apply sign_solid|exact Hs].
  - destruct neg; vm_compute; reflexivity.
  - vm_compute. reflexivity.
  - rewrite float_value_eq, fclean_idempotent, E. reflexivity.
Qed.

End ShortestFacts.

(** * Further properties of the rate and of the canonical form read again *)

(** X22. The decimal normalizer without fixed decimals, the one of the
    rate, applied to its own result returns it, whatever the text, a
    missing one included: [str] writes a double with the digits [float]
    needs to read the same double, and writes them in one way. *)
Theorem float_idempotent (text : option string) :
  normalize_float_value (Some (normalize_float_value text false)) false
  = normalize_float_value text false.
Proof.
  destruct text as [t|]; [apply ShortestFacts.float_settled|reflexivity].
Qed.

(** X23. When the cleaned text of the rate reads as a finite double,
    the text the normalizer returns reads as the same double: nothing
    of the value is lost in the canonical form. *)
Theorem rate_text_exact (text : string) (neg : bool) (m e : Z) :
  PyFloat.float_of_string (ReadFacts.fclean text)
  = Ok (PyFloat.Finite neg m e) ->
  PyFloat.float_of_string (normalize_float_value (Some text) false)
  = Ok (PyFloat.Finite neg m e).
Proof.
  intros E. rewrite ReadFacts.float_value_eq, E.
  pose proof (ShortestFacts.float_of_string_canon _ _ _ _ E) as Hc.
  pose proof Hc as [[[Hm _] _] Hn].
  destruct (Z.eq_dec m 0) as [Z0|Z0].
  - subst m.
    assert (e = -1074)%Z by (destruct Hn as [Hn|Hn]; [cbn in Hn|]; lia).
    subst e. destruct neg; vm_compute; reflexivity.
  - apply (ShortestFacts.repr_finite_reads neg m e Hc). lia.
Qed.

Lemma rate_text_exact_witness :
  PyFloat.float_of_string (normalize_float_value (Some " 03,025 ") false)
  = Ok (PyFloat.Finite false 6811694436397875 (-51)).
Proof.
  apply (rate_text_exact " 03,025 " false 6811694436397875 (-51)).
  vm_compute. reflexivity.
Defined.

(** ** The canonical form read again *)

Lemma settled_float (serie : option string -> string) (text : string) :
  settled serie "float" text.
Proof. apply ShortestFacts.float_settled. Qed.

(** In the script with the new fields every kind is settled on every
    text. *)
Lemma novos_settled (kind text : string) :
  settled Novos.normalize_serie_nfts kind text.
Proof.
  destruct (String.eqb_spec kind "num_str") as [->|H1];
    [apply settled_numeric|].
  destruct (String.eqb_spec kind "float_currency") as [->|H2];
    [apply settled_currency|].
  destruct (String.eqb_spec kind "float") as [->|H3];
    [apply settled_float|].
  destruct (String.eqb_spec kind "bool") as [->|H4];
    [apply settled_boolean|].
  assert (E : forall t, normalize Novos.normalize_serie_nfts kind t = clean t).
  { intros t. unfold normalize.
    apply String.eqb_neq in H1, H2, H3, H4. rewrite H1, H2, H3, H4.
    destruct (String.eqb kind "serie"); reflexivity. }
  unfold settled. rewrite !E. apply clean_idempotent.
Qed.

(** X24. In the script with the new fields, the canonical tree of a
    unit, taken as a unit and put through the builder again, comes out
    the same, and so do its bytes, for every unit: every normalizer of
    this script returns its own results unchanged. *)
Theorem novos_reparse (u : Element) :
  Novos.canonical_root (Novos.canonical_root u) = Novos.canonical_root u
  /\ Novos.build_tpNFTS_bytes (Novos.canonical_root u)
     = Novos.build_tpNFTS_bytes u.
Proof.
  assert (E : Novos.canonical_root (Novos.canonical_root u)
              = Novos.canonical_root u).
  { apply canonical_root_reparse.
    - exact novos_no_assinatura_key.
    - exact novos_distinct_keys.
    - intros path kind text _ _. apply novos_settled. }
  split; [exact E|].
  unfold Novos.build_tpNFTS_bytes, build_tpNFTS_bytes.
  fold Novos.canonical_root. rewrite E. reflexivity.
Qed.

(** X25. In the debug script the same holds for every unit whose
    series, if it has one, has no white space other than spaces in the
    five characters kept: the series is the only field whose normalizer
    can change its own result. *)
Theorem debug_reparse (u : Element) :
  (forall t, field_text u ["ChaveDocumento"; "SerieNFTS"] = Some t ->
             serie_plain_spaces t = true) ->
  Debug.canonical_root (Debug.canonical_root u) = Debug.canonical_root u
  /\ Debug.build_tpNFTS_bytes (Debug.canonical_root u)
     = Debug.build_tpNFTS_bytes u.
Proof.
  intros Hserie.
  assert (E : Debug.canonical_root (Debug.canonical_root u)
              = Debug.canonical_root u).
  { apply canonical_root_reparse.
    - exact debug_no_assinatura_key.
    - exact debug_distinct_keys.
    - apply debug_all_settled; [exact Hserie|].
      intros t _. apply settled_float. }
  split; [exact E|].
  unfold Debug.build_tpNFTS_bytes, build_tpNFTS_bytes.
  fold Debug.canonical_root. rewrite E. reflexivity.
Qed.

Lemma debug_reparse_witness :
  Debug.canonical_root (Debug.canonical_root unit_with_decimals)
  = Debug.canonical_root unit_with_decimals
  /\ Debug.build_tpNFTS_bytes (Debug.canonical_root unit_with_decimals)
     = Debug.build_tpNFTS_bytes unit_with_decimals.
Proof.
  apply (debug_reparse unit_with_decimals).
  intros t H. injection H as <-. reflexivity.
Defined.

(** ** The verification loop and a signature element without text *)

Lemma verify_unit_raises
  (PublicKey : Type) (rsa_verify : PublicKey -> string -> string -> bool)
  (sha1 : string -> string) (pubkey : PublicKey) (nfts : Element) (e : exn) :
  verify_unit PublicKey rsa_verify sha1 Debug.build_tpNFTS_bytes pubkey nfts
  = Raise e
  <-> e = AttributeError
      /\ exists assin rest,
           filter (has_local "Assinatura") (children_of nfts) = assin :: rest
           /\ text_of assin = None.
Proof.
  unfold verify_unit.
  destruct (filter (has_local "Assinatura") (children_of nfts))
    as [|assin rest].
  - split; [discriminate|]. intros (_ & a & r & H & _). discriminate.
  - destruct (text_of assin) as [t|] eqn:Et.
    + split.
      * destruct (Base64.b64decode (remove_spaces t)); [|discriminate].
        destruct (rsa_verify pubkey _ _); discriminate.
      * intros (_ & a & r & [= <- <-] & H). congruence.
    + split.
      * intros [= <-]. split; [reflexivity|]. exists assin, rest. auto.
      * intros (-> & _). reflexivity.
Qed.

(** X26. The loop of [verify_signed_nfts] ends with an exception
    exactly when one of the units has a first signature element without
    text; the exception is an [AttributeError], and the units after
    that one are not looked at.  Units without signature or with a
    signature that is not Base64 do not stop the loop. *)
Theorem verify_loop_raises
  (PublicKey : Type) (rsa_verify : PublicKey -> string -> string -> bool)
  (sha1 : string -> string) (pubkey : PublicKey)
  (nodes : list Element) (e : exn) :
  verify_nodes PublicKey rsa_verify sha1 pubkey nodes = Raise e
  <-> e = AttributeError
      /\ exists nfts assin rest,
           In nfts nodes
           /\ filter (has_local "Assinatura") (children_of nfts) = assin :: rest
           /\ text_of assin = None.
Proof.
  revert e. induction nodes as [|n r IH]; intros e; cbn [verify_nodes].
  - split; [discriminate|]. intros (_ & x & _ & _ & [] & _).
  - destruct (verify_unit PublicKey rsa_verify sha1 Debug.build_tpNFTS_bytes
                pubkey n) as [v|e'] eqn:E; cbn [Raising.bind].
    + destruct (verify_nodes PublicKey rsa_verify sha1 pubkey r) as [vs|e'']
        eqn:Er; cbn [Raising.bind].
      * split; [discriminate|].
        intros (He & x & a & rest & [<-|Hin] & Hf & Ht).
        -- assert (R : verify_unit PublicKey rsa_verify sha1
                         Debug.build_tpNFTS_bytes pubkey n
                       = Raise AttributeError).
           { apply verify_unit_raises. split; [reflexivity|]. eauto. }
           congruence.
        -- assert (R : Ok vs = Raise e) by (apply IH; eauto 8).
           discriminate.
      * split.
        -- intros [= <-]. destruct (proj1 (IH e'') eq_refl)
             as (He & x & a & rest & Hin & Hf & Ht).
           split; [exact He|]. exists x, a, rest. split; [right|]; auto.
        -- intros (-> & _). f_equal.
           destruct (proj1 (IH e'') eq_refl) as (He & _). exact He.
    + apply verify_unit_raises in E. destruct E as (-> & a & rest & Hf & Ht).
      split.
      * intros [= <-]. split; [reflexivity|]. exists n, a, rest.
        split; [left; reflexivity|]. auto.
      * intros (-> & _). reflexivity.
Qed.
